(** * Reference-counted handles: [shared_ptr], [weak_ptr] and their control block

    A shallow embedding of [shared-ptr.h] / [shared-ptr.cpp].

    - Control blocks live in a heap indexed by their address; [delete this]
      removes the block from the heap.
    - Every [shared_ptr] / [weak_ptr] object (named variable or temporary)
      lives in an object store indexed by the identity of the object, so that
      [*this] and [other] may denote the same object (self assignment).
    - Member functions are computations in a state monad with C++ exceptions,
      undefined behaviour (use of a deleted control block) and ill-formed
      programs (use of an object outside its lifetime) as distinct outcomes.
    - All handles of a program have one element type: the member functions
      are modelled as their non-template overloads.  The stored pointers are
      opaque addresses that the handles only copy and compare; what they
      point to, and the conversion from [Y*] to [T*] that the converting
      overloads apply to [other.ptr_], are not part of the model.
    - Calls of the opaque collaborators (the deleter, [std::destroy_at], the
      allocator) are recorded in an event log. *)

From stdpp Require Import gmap list.
From Stdlib Require Import ZArith Lia.

Open Scope Z_scope.

(** ** Machine integers: [std::size_t] is a 64-bit unsigned integer *)

Definition size_max : Z := 2 ^ 64.

Definition wrap (z : Z) : Z := z mod size_max.

(** ** Pointers *)

(** Address of a managed object: either an object owned by the caller and
    handed over as a raw pointer, or the [storage_.data] member embedded in
    the in-place control block at the given address. *)
Inductive obj_addr :=
| RawObj (a : N)
| Embedded (b : N).

#[global] Instance obj_addr_eq_dec : EqDecision obj_addr.
Proof. solve_decision. Defined.

(** [T*]: [None] is [nullptr]. *)
Definition pointer := option obj_addr.

(** [control_block_t*]: [None] is [nullptr], [Some b] the address of a block. *)
Definition block_ptr := option N.

(** Deleters are opaque callables; only their identity matters. *)
Inductive deleter :=
| default_delete
| custom_deleter (id : N).

(** ** Events: calls that leave the modelled code *)

Inductive event :=
| EvNew (b : N)                          (* a control block was created at b *)
| EvDeleteData (b : N)                   (* b->delete_data() ran *)
| EvDeleter (d : deleter) (p : pointer)  (* d(p) was called *)
| EvDestroyAt (b : N)                    (* std::destroy_at(&b->storage_.data) *)
| EvFree (b : N).                        (* delete this, for the block at b *)

#[global] Instance deleter_eq_dec : EqDecision deleter.
Proof. solve_decision. Defined.

#[global] Instance event_eq_dec : EqDecision event.
Proof. solve_decision. Defined.

Inductive exn :=
| bad_alloc       (* operator new failed *)
| ctor_failure.   (* the constructor of the managed object threw *)

(** ** Handles *)

Record shared_ptr := { ptr_ : pointer; cb_ : block_ptr }.

Record weak_ptr := { w_ptr_ : pointer; w_cb_ : block_ptr }.

Section Model.

(** The managed type, the arguments of its constructor, and the constructor
    itself ([None]: the constructor throws). *)
Context {T Args : Type} (construct_at : Args → option T).

(** ** Control blocks *)

Inductive block_body :=
| mem_control_block (data_ : pointer) (deleter_ : deleter)
| inplace_control_block (storage_ : option T).

Record control_block := {
  strong_refs_ : Z;
  weak_refs_ : Z;
  body : block_body
}.

Definition set_strong (n : Z) (c : control_block) : control_block :=
  {| strong_refs_ := n; weak_refs_ := weak_refs_ c; body := body c |}.

Definition set_weak (n : Z) (c : control_block) : control_block :=
  {| strong_refs_ := strong_refs_ c; weak_refs_ := n; body := body c |}.

Definition set_body (k : block_body) (c : control_block) : control_block :=
  {| strong_refs_ := strong_refs_ c; weak_refs_ := weak_refs_ c; body := k |}.

(** ** Program state *)

Record state := {
  heap : gmap N control_block;   (* allocated control blocks *)
  shared : gmap N shared_ptr;    (* live shared_ptr objects *)
  weak : gmap N weak_ptr;        (* live weak_ptr objects *)
  log : list event               (* newest event first *)
}.

Definition init : state :=
  {| heap := ∅; shared := ∅; weak := ∅; log := [] |}.

Definition with_heap (f : gmap N control_block → gmap N control_block)
    (st : state) : state :=
  {| heap := f (heap st); shared := shared st; weak := weak st; log := log st |}.

Definition with_shared (f : gmap N shared_ptr → gmap N shared_ptr)
    (st : state) : state :=
  {| heap := heap st; shared := f (shared st); weak := weak st; log := log st |}.

Definition with_weak (f : gmap N weak_ptr → gmap N weak_ptr)
    (st : state) : state :=
  {| heap := heap st; shared := shared st; weak := f (weak st); log := log st |}.

Definition with_log (f : list event → list event) (st : state) : state :=
  {| heap := heap st; shared := shared st; weak := weak st; log := f (log st) |}.

(** ** The monad of member functions *)

Inductive outcome (A : Type) :=
| Ok (a : A) (st : state)        (* normal return *)
| Throw (e : exn) (st : state)   (* an exception leaves the function *)
| Undefined                      (* a deleted control block is used *)
| IllFormed.                     (* not a program: object used outside its lifetime *)

Arguments Ok {A} a st.
Arguments Throw {A} e st.
Arguments Undefined {A}.
Arguments IllFormed {A}.

Definition M (A : Type) : Type := state → outcome A.

Definition ret {A} (a : A) : M A := λ st, Ok a st.

Definition bind {A B} (m : M A) (f : A → M B) : M B := λ st,
  match m st with
  | Ok a st' => f a st'
  | Throw e st' => Throw e st'
  | Undefined => Undefined
  | IllFormed => IllFormed
  end.

Definition throw {A} (e : exn) : M A := λ st, Throw e st.

(** [try { m } catch (...) { h }] *)
Definition try_catch {A} (m : M A) (h : exn → M A) : M A := λ st,
  match m st with
  | Throw e st' => h e st'
  | r => r
  end.

(** The outcome [r] with its final state changed by [g]. *)
Definition map_state {A} (g : state → state) (r : outcome A) : outcome A :=
  match r with
  | Ok a st => Ok a (g st)
  | Throw e st => Throw e (g st)
  | Undefined => Undefined
  | IllFormed => IllFormed
  end.

Definition emit (ev : event) : M unit := λ st,
  Ok tt (with_log (cons ev) st).

Notation "x ← m ; f" := (bind m (λ x, f))
  (at level 20, m at level 100, f at level 200, only parsing, right associativity).
Notation "m ;; f" := (bind m (λ _, f))
  (at level 100, f at level 200, only parsing, right associativity).

(** *** Access to control blocks through a pointer *)

Definition load_block (b : N) : M control_block := λ st,
  match heap st !! b with
  | Some c => Ok c st
  | None => Undefined
  end.

Definition store_block (b : N) (c : control_block) : M unit := λ st,
  Ok tt (with_heap <[b := c]> st).

(** [operator new]: the allocator either fails ([None]) or answers with an
    address that is not in use. *)
Definition operator_new (answer : option N) : M N := λ st,
  match answer with
  | None => Throw bad_alloc st
  | Some b =>
      match heap st !! b with
      | Some _ => IllFormed
      | None => Ok b st
      end
  end.

(** [delete this]: destroys the block and returns its storage. *)
Definition delete_this (this : N) : M unit := λ st,
  Ok tt (with_log (cons (EvFree this)) (with_heap (delete this) st)).

(** ** [details::control_block_base] *)

(** [strong_refs_{1}], [weak_refs_{1}] *)
Definition control_block_base (k : block_body) : control_block :=
  {| strong_refs_ := 1; weak_refs_ := 1; body := k |}.

(** [void add_strong_ref() { strong_refs_++; }] *)
Definition add_strong_ref (this : N) : M unit :=
  c ← load_block this;
  store_block this (set_strong (wrap (strong_refs_ c + 1)) c).

(** [void add_weak_ref() { weak_refs_++; }] *)
Definition add_weak_ref (this : N) : M unit :=
  c ← load_block this;
  store_block this (set_weak (wrap (weak_refs_ c + 1)) c).

(** [std::size_t get_strong_refs() const { return strong_refs_; }] *)
Definition get_strong_refs (this : N) : M Z :=
  c ← load_block this;
  ret (strong_refs_ c).

(** [void release_weak_ref() { if (--weak_refs_ == 0) delete this; }] *)
Definition release_weak_ref (this : N) : M unit :=
  c ← load_block this;
  let w := wrap (weak_refs_ c - 1) in
  store_block this (set_weak w c);;
  if decide (w = 0) then delete_this this else ret tt.

(** The virtual [delete_data()]:
    - [mem_control_block]: [deleter_(data_)];
    - [inplace_control_block]: [std::destroy_at(&storage_.data)]. *)
Definition delete_data (this : N) : M unit :=
  c ← load_block this;
  emit (EvDeleteData this);;
  match body c with
  | mem_control_block p d => emit (EvDeleter d p)
  | inplace_control_block _ =>
      emit (EvDestroyAt this);;
      store_block this (set_body (inplace_control_block None) c)
  end.

(** [void release_strong_ref() {
       if (--strong_refs_ == 0) { delete_data(); release_weak_ref(); } }] *)
Definition release_strong_ref (this : N) : M unit :=
  c ← load_block this;
  let s := wrap (strong_refs_ c - 1) in
  store_block this (set_strong s c);;
  if decide (s = 0) then delete_data this;; release_weak_ref this else ret tt.

(** ** Lifetime of handle objects *)

Definition null_shared : shared_ptr := {| ptr_ := None; cb_ := None |}.

Definition null_weak : weak_ptr := {| w_ptr_ := None; w_cb_ := None |}.

(** Reading a [shared_ptr] object; it has to be within its lifetime. *)
Definition read_shared (x : N) : M shared_ptr := λ st,
  match shared st !! x with
  | Some h => Ok h st
  | None => IllFormed
  end.

(** Assigning the members of a live [shared_ptr] object. *)
Definition write_shared (x : N) (h : shared_ptr) : M unit :=
  read_shared x;;
  λ st, Ok tt (with_shared <[x := h]> st).

(** The storage of a [shared_ptr] about to be constructed holds no live object. *)
Definition unborn_shared (x : N) : M unit := λ st,
  match shared st !! x with
  | Some _ => IllFormed
  | None => Ok tt st
  end.

(** The lifetime of a [shared_ptr] object begins, with members [h]. *)
Definition begin_shared (x : N) (h : shared_ptr) : M unit := λ st,
  match shared st !! x with
  | Some _ => IllFormed
  | None => Ok tt (with_shared <[x := h]> st)
  end.

(** The lifetime of a [shared_ptr] object ends (after its destructor). *)
Definition end_shared (x : N) : M unit :=
  read_shared x;;
  λ st, Ok tt (with_shared (delete x) st).

(** Identity of a fresh temporary [shared_ptr]. *)
Definition temp_shared : M N := λ st, Ok (fresh (dom (shared st))) st.

Definition read_weak (x : N) : M weak_ptr := λ st,
  match weak st !! x with
  | Some h => Ok h st
  | None => IllFormed
  end.

Definition write_weak (x : N) (h : weak_ptr) : M unit :=
  read_weak x;;
  λ st, Ok tt (with_weak <[x := h]> st).

Definition begin_weak (x : N) (h : weak_ptr) : M unit := λ st,
  match weak st !! x with
  | Some _ => IllFormed
  | None => Ok tt (with_weak <[x := h]> st)
  end.

Definition end_weak (x : N) : M unit :=
  read_weak x;;
  λ st, Ok tt (with_weak (delete x) st).

Definition temp_weak : M N := λ st, Ok (fresh (dom (weak st))) st.

(** ** [shared_ptr<T>]

    In every constructor [this] is the identity of the object under
    construction.  The definitions are those of the overloads on one element
    type.  A converting overload ([shared_ptr<Y>] to [shared_ptr<T>]) runs
    the same code on the counters and the block, and the definitions describe
    it as long as the conversion from [Y*] to [T*] leaves the address as it
    is and does not read the object; a conversion that does (to a virtual
    base) is not modelled. *)

(** [shared_ptr() noexcept : ptr_(nullptr), cb_(nullptr) {}] and
    [shared_ptr(std::nullptr_t)] *)
Definition shared_ptr_default (this : N) : M unit :=
  begin_shared this null_shared.

(** [explicit shared_ptr(T* ptr, control_block_t* cb) noexcept
       : ptr_(ptr), cb_(cb) { if (cb_) cb_->add_strong_ref(); }] *)
Definition shared_ptr_ptr_cb (this : N) (ptr : pointer) (cb : block_ptr) : M unit :=
  begin_shared this {| ptr_ := ptr; cb_ := cb |};;
  match cb with
  | Some b => add_strong_ref b
  | None => ret tt
  end.

(** [shared_ptr(Y* ptr, Deleter deleter) : ptr_(ptr) {
       try { cb_ = new details::mem_control_block(ptr, std::move(deleter)); }
       catch (...) { deleter(ptr); throw; } }]
    [answer] is what the allocator answers to the [new]. *)
Definition shared_ptr_ptr_deleter (this : N) (ptr : pointer) (d : deleter)
    (answer : option N) : M unit :=
  unborn_shared this;;
  cb ← try_catch
         (b ← operator_new answer;
          store_block b (control_block_base (mem_control_block ptr d));;
          emit (EvNew b);;
          ret b)
         (λ e, emit (EvDeleter d ptr);; throw e);
  begin_shared this {| ptr_ := ptr; cb_ := Some cb |}.

(** [explicit shared_ptr(Y* ptr) : shared_ptr(ptr, std::default_delete<Y>()) {}] *)
Definition shared_ptr_ptr (this : N) (ptr : pointer) (answer : option N) : M unit :=
  shared_ptr_ptr_deleter this ptr default_delete answer.

(** [shared_ptr(const shared_ptr<Y>& other, T* ptr) noexcept
       : shared_ptr(ptr, other.cb_) {}] *)
Definition shared_ptr_alias_copy (this other : N) (ptr : pointer) : M unit :=
  o ← read_shared other;
  shared_ptr_ptr_cb this ptr (cb_ o).

(** [shared_ptr(shared_ptr<Y>&& other, T* ptr) noexcept
       : ptr_(ptr), cb_(std::exchange(other.cb_, nullptr)) { other.ptr_ = nullptr; }] *)
Definition shared_ptr_alias_move (this other : N) (ptr : pointer) : M unit :=
  o ← read_shared other;
  begin_shared this {| ptr_ := ptr; cb_ := cb_ o |};;
  write_shared other {| ptr_ := None; cb_ := None |}.

(** [shared_ptr(const shared_ptr& other) noexcept : shared_ptr(other, other.ptr_) {}] *)
Definition shared_ptr_copy (this other : N) : M unit :=
  o ← read_shared other;
  shared_ptr_alias_copy this other (ptr_ o).

(** [shared_ptr(shared_ptr&& other) noexcept
       : shared_ptr(std::move(other), other.ptr_) {}] *)
Definition shared_ptr_move (this other : N) : M unit :=
  o ← read_shared other;
  shared_ptr_alias_move this other (ptr_ o).

(** [void swap(shared_ptr& other) noexcept {
       std::swap(ptr_, other.ptr_); std::swap(cb_, other.cb_); }] *)
Definition shared_ptr_swap (this other : N) : M unit :=
  a ← read_shared this;
  b ← read_shared other;
  write_shared this b;;
  write_shared other a.

(** [if (cb_) cb_->release_strong_ref();] *)
Definition release_strong (cb : block_ptr) : M unit :=
  match cb with
  | Some b => release_strong_ref b
  | None => ret tt
  end.

(** [~shared_ptr() { if (cb_) cb_->release_strong_ref(); }], after which the
    lifetime of the object is over. *)
Definition shared_ptr_dtor (this : N) : M unit :=
  h ← read_shared this;
  release_strong (cb_ h);;
  end_shared this.

(** [shared_ptr& operator=(const shared_ptr& other) noexcept {
       shared_ptr(other).swap( *this ); return *this; }]
    The temporary dies at the end of the full expression.  The leading
    [read_shared this] only says that [*this] is within its lifetime when
    the member function is called. *)
Definition shared_ptr_assign_copy (this other : N) : M unit :=
  read_shared this;;
  tmp ← temp_shared;
  shared_ptr_copy tmp other;;
  shared_ptr_swap tmp this;;
  shared_ptr_dtor tmp.

(** [shared_ptr& operator=(shared_ptr&& other) noexcept {
       shared_ptr(std::move(other)).swap( *this ); return *this; }] *)
Definition shared_ptr_assign_move (this other : N) : M unit :=
  read_shared this;;
  tmp ← temp_shared;
  shared_ptr_move tmp other;;
  shared_ptr_swap tmp this;;
  shared_ptr_dtor tmp.

(** [void reset() noexcept { shared_ptr().swap( *this ); }] *)
Definition shared_ptr_reset (this : N) : M unit :=
  read_shared this;;
  tmp ← temp_shared;
  shared_ptr_default tmp;;
  shared_ptr_swap tmp this;;
  shared_ptr_dtor tmp.

(** [void reset(Y* new_ptr) { shared_ptr(new_ptr).swap( *this ); }] *)
Definition shared_ptr_reset_ptr (this : N) (new_ptr : pointer)
    (answer : option N) : M unit :=
  read_shared this;;
  tmp ← temp_shared;
  shared_ptr_ptr tmp new_ptr answer;;
  shared_ptr_swap tmp this;;
  shared_ptr_dtor tmp.

(** [void reset(Y* new_ptr, Deleter deleter) {
       shared_ptr(new_ptr, std::move(deleter)).swap( *this ); }] *)
Definition shared_ptr_reset_ptr_deleter (this : N) (new_ptr : pointer)
    (d : deleter) (answer : option N) : M unit :=
  read_shared this;;
  tmp ← temp_shared;
  shared_ptr_ptr_deleter tmp new_ptr d answer;;
  shared_ptr_swap tmp this;;
  shared_ptr_dtor tmp.

(** [T* get() const noexcept { return ptr_; }] *)
Definition get (h : shared_ptr) : pointer := ptr_ h.

(** [operator bool() const noexcept { return ptr_; }] *)
Definition operator_bool (h : shared_ptr) : bool :=
  bool_decide (ptr_ h ≠ None).

(** [std::size_t use_count() const noexcept {
       return cb_ ? cb_->get_strong_refs() : 0; }] *)
Definition use_count (h : shared_ptr) : M Z :=
  match cb_ h with
  | Some b => get_strong_refs b
  | None => ret 0
  end.

(** [bool operator==(const shared_ptr<TL>& lhs, const shared_ptr<TR>& rhs) {
       return lhs.get() == rhs.get(); }] *)
Definition shared_ptr_eq (lhs rhs : shared_ptr) : bool :=
  bool_decide (get lhs = get rhs).

(** [bool operator==(const shared_ptr<T>& lhs, std::nullptr_t) { return !lhs.get(); }] *)
Definition shared_ptr_eq_null (lhs : shared_ptr) : bool :=
  negb (bool_decide (get lhs ≠ None)).

(** [bool operator==(std::nullptr_t, const shared_ptr<T>& rhs) { return !rhs.get(); }] *)
Definition null_eq_shared_ptr (rhs : shared_ptr) : bool :=
  negb (bool_decide (get rhs ≠ None)).

(** [operator!=]: the negation of the matching [operator==]. *)
Definition shared_ptr_ne (lhs rhs : shared_ptr) : bool :=
  negb (shared_ptr_eq lhs rhs).

Definition shared_ptr_ne_null (lhs : shared_ptr) : bool :=
  negb (shared_ptr_eq_null lhs).

Definition null_ne_shared_ptr (rhs : shared_ptr) : bool :=
  negb (null_eq_shared_ptr rhs).

(** The object a pointer points to, when it lies in the modelled heap: the
    live object embedded in an in-place control block.  Objects behind raw
    pointers belong to the caller. *)
Definition points_to (st : state) (p : pointer) : option T :=
  match p with
  | Some (Embedded b) =>
      match heap st !! b with
      | Some c =>
          match body c with
          | inplace_control_block v => v
          | mem_control_block _ _ => None
          end
      | None => None
      end
  | _ => None
  end.

(** [explicit shared_ptr(details::inplace_control_block<T>* cb) noexcept
       : ptr_(cb->get_ptr()), cb_(cb) {}]
    where [get_ptr()] is [&storage_.data]. *)
Definition shared_ptr_inplace (this : N) (cb : N) : M unit :=
  begin_shared this {| ptr_ := Some (Embedded cb); cb_ := Some cb |}.

(** [shared_ptr<T> make_shared(Args&&... args) {
       auto cb = new details::inplace_control_block<T>(std::forward<Args>(args)...);
       return shared_ptr<T>(cb); }]
    The handle is returned into the object [result].  When the constructor of
    [T] throws, the new-expression returns the storage and no block exists. *)
Definition make_shared (result : N) (args : Args) (answer : option N) : M unit :=
  unborn_shared result;;
  b ← operator_new answer;
  match construct_at args with
  | None => throw ctor_failure
  | Some v =>
      store_block b (control_block_base (inplace_control_block (Some v)));;
      emit (EvNew b);;
      shared_ptr_inplace result b
  end.

(** ** [weak_ptr<T>]

    As for [shared_ptr], the definitions are those of the overloads on one
    element type.  The converting constructors and assignments of [weak_ptr]
    convert [other.ptr_] whether or not the object is still alive; for a
    conversion that reads the object this is undefined once the object is
    destroyed, and it is outside the model: [weak_ptr_copy] and
    [weak_ptr_move] are [weak_ptr(const weak_ptr&)] and
    [weak_ptr(weak_ptr&&)]. *)

(** [weak_ptr() noexcept : ptr_(nullptr), cb_(nullptr) {}] *)
Definition weak_ptr_default (this : N) : M unit :=
  begin_weak this null_weak.

(** [explicit weak_ptr(T* ptr, control_block_t* cb) noexcept
       : ptr_(ptr), cb_(cb) { if (cb_) cb_->add_weak_ref(); }] *)
Definition weak_ptr_ptr_cb (this : N) (ptr : pointer) (cb : block_ptr) : M unit :=
  begin_weak this {| w_ptr_ := ptr; w_cb_ := cb |};;
  match cb with
  | Some b => add_weak_ref b
  | None => ret tt
  end.

(** [weak_ptr(const shared_ptr<Y>& other) noexcept
       : weak_ptr(other.ptr_, other.cb_) {}] *)
Definition weak_ptr_from_shared (this other : N) : M unit :=
  o ← read_shared other;
  weak_ptr_ptr_cb this (ptr_ o) (cb_ o).

(** [weak_ptr(const weak_ptr& other) noexcept : weak_ptr(other.ptr_, other.cb_) {}] *)
Definition weak_ptr_copy (this other : N) : M unit :=
  o ← read_weak other;
  weak_ptr_ptr_cb this (w_ptr_ o) (w_cb_ o).

(** [weak_ptr(weak_ptr&& other) noexcept
       : ptr_(std::exchange(other.ptr_, nullptr)),
         cb_(std::exchange(other.cb_, nullptr)) {}] *)
Definition weak_ptr_move (this other : N) : M unit :=
  o ← read_weak other;
  begin_weak this {| w_ptr_ := w_ptr_ o; w_cb_ := w_cb_ o |};;
  write_weak other {| w_ptr_ := None; w_cb_ := None |}.

(** [void swap(weak_ptr& other) noexcept {
       std::swap(ptr_, other.ptr_); std::swap(cb_, other.cb_); }] *)
Definition weak_ptr_swap (this other : N) : M unit :=
  a ← read_weak this;
  b ← read_weak other;
  write_weak this b;;
  write_weak other a.

(** [if (cb_) cb_->release_weak_ref();] *)
Definition release_weak (cb : block_ptr) : M unit :=
  match cb with
  | Some b => release_weak_ref b
  | None => ret tt
  end.

(** [~weak_ptr() { if (cb_) cb_->release_weak_ref(); }] *)
Definition weak_ptr_dtor (this : N) : M unit :=
  h ← read_weak this;
  release_weak (w_cb_ h);;
  end_weak this.

(** [weak_ptr& operator=(const shared_ptr<Y>& other) noexcept {
       weak_ptr(other).swap( *this ); return *this; }] *)
Definition weak_ptr_assign_shared (this other : N) : M unit :=
  read_weak this;;
  tmp ← temp_weak;
  weak_ptr_from_shared tmp other;;
  weak_ptr_swap tmp this;;
  weak_ptr_dtor tmp.

(** [weak_ptr& operator=(const weak_ptr& other) noexcept {
       weak_ptr(other).swap( *this ); return *this; }] *)
Definition weak_ptr_assign_copy (this other : N) : M unit :=
  read_weak this;;
  tmp ← temp_weak;
  weak_ptr_copy tmp other;;
  weak_ptr_swap tmp this;;
  weak_ptr_dtor tmp.

(** [weak_ptr& operator=(weak_ptr&& other) noexcept {
       weak_ptr(std::move(other)).swap( *this ); return *this; }] *)
Definition weak_ptr_assign_move (this other : N) : M unit :=
  read_weak this;;
  tmp ← temp_weak;
  weak_ptr_move tmp other;;
  weak_ptr_swap tmp this;;
  weak_ptr_dtor tmp.

(** [void reset() noexcept { weak_ptr().swap( *this ); }] *)
Definition weak_ptr_reset (this : N) : M unit :=
  read_weak this;;
  tmp ← temp_weak;
  weak_ptr_default tmp;;
  weak_ptr_swap tmp this;;
  weak_ptr_dtor tmp.

(** [shared_ptr<T> lock() const noexcept {
       if (!cb_ || cb_->get_strong_refs() == 0) return shared_ptr<T>();
       return shared_ptr<T>(ptr_, cb_); }]
    The handle is returned into the object [result]. *)
Definition weak_ptr_lock (result this : N) : M unit :=
  w ← read_weak this;
  expired ← match w_cb_ w with
            | None => ret true
            | Some b => s ← get_strong_refs b; ret (bool_decide (s = 0))
            end;
  if expired : bool then shared_ptr_default result
  else shared_ptr_ptr_cb result (w_ptr_ w) (w_cb_ w).

(** ** Programs: sequences of operations on handle objects

    Each operation is one statement of client code.  [x] names the object a
    declaration creates; [answer] is the allocator's answer to the [new] the
    statement performs. *)

Inductive op :=
| SpDefault (x : N)                                    (* shared_ptr<T> x; *)
| SpPtr (x : N) (p : pointer) (answer : option N)      (* shared_ptr<T> x(p); *)
| SpPtrDeleter (x : N) (p : pointer) (d : deleter) (answer : option N)
                                                       (* shared_ptr<T> x(p, d); *)
| SpAliasCopy (x y : N) (p : pointer)                  (* shared_ptr<T> x(y, p); *)
| SpAliasMove (x y : N) (p : pointer)                  (* shared_ptr<T> x(std::move(y), p); *)
| SpCopy (x y : N)                                     (* shared_ptr<T> x(y); *)
| SpMove (x y : N)                                     (* shared_ptr<T> x(std::move(y)); *)
| SpAssignCopy (x y : N)                               (* x = y; *)
| SpAssignMove (x y : N)                               (* x = std::move(y); *)
| SpReset (x : N)                                      (* x.reset(); *)
| SpResetPtr (x : N) (p : pointer) (answer : option N) (* x.reset(p); *)
| SpResetPtrDeleter (x : N) (p : pointer) (d : deleter) (answer : option N)
                                                       (* x.reset(p, d); *)
| SpSwap (x y : N)                                     (* x.swap(y); *)
| SpDestroy (x : N)                                    (* x goes out of scope *)
| SpMake (x : N) (args : Args) (answer : option N)     (* auto x = make_shared<T>(args); *)
| WpDefault (x : N)                                    (* weak_ptr<T> x; *)
| WpFromShared (x y : N)                               (* weak_ptr<T> x(y);  y shared *)
| WpCopy (x y : N)                                     (* weak_ptr<T> x(y); *)
| WpMove (x y : N)                                     (* weak_ptr<T> x(std::move(y)); *)
| WpAssignShared (x y : N)                             (* x = y;  y shared *)
| WpAssignCopy (x y : N)                               (* x = y; *)
| WpAssignMove (x y : N)                               (* x = std::move(y); *)
| WpReset (x : N)                                      (* x.reset(); *)
| WpSwap (x y : N)                                     (* x.swap(y); *)
| WpDestroy (x : N)                                    (* x goes out of scope *)
| WpLock (x w : N).                                    (* auto x = w.lock(); *)

Definition step (o : op) : M unit :=
  match o with
  | SpDefault x => shared_ptr_default x
  | SpPtr x p answer => shared_ptr_ptr x p answer
  | SpPtrDeleter x p d answer => shared_ptr_ptr_deleter x p d answer
  | SpAliasCopy x y p => shared_ptr_alias_copy x y p
  | SpAliasMove x y p => shared_ptr_alias_move x y p
  | SpCopy x y => shared_ptr_copy x y
  | SpMove x y => shared_ptr_move x y
  | SpAssignCopy x y => shared_ptr_assign_copy x y
  | SpAssignMove x y => shared_ptr_assign_move x y
  | SpReset x => shared_ptr_reset x
  | SpResetPtr x p answer => shared_ptr_reset_ptr x p answer
  | SpResetPtrDeleter x p d answer => shared_ptr_reset_ptr_deleter x p d answer
  | SpSwap x y => shared_ptr_swap x y
  | SpDestroy x => shared_ptr_dtor x
  | SpMake x args answer => make_shared x args answer
  | WpDefault x => weak_ptr_default x
  | WpFromShared x y => weak_ptr_from_shared x y
  | WpCopy x y => weak_ptr_copy x y
  | WpMove x y => weak_ptr_move x y
  | WpAssignShared x y => weak_ptr_assign_shared x y
  | WpAssignCopy x y => weak_ptr_assign_copy x y
  | WpAssignMove x y => weak_ptr_assign_move x y
  | WpReset x => weak_ptr_reset x
  | WpSwap x y => weak_ptr_swap x y
  | WpDestroy x => weak_ptr_dtor x
  | WpLock x w => weak_ptr_lock x w
  end.

(** Running a program; an exception thrown by a statement is caught by the
    client, which goes on with the next statement. *)
Fixpoint run (prog : list op) : M unit := λ st,
  match prog with
  | [] => Ok tt st
  | o :: prog' =>
      match step o st with
      | Ok _ st' | Throw _ st' => run prog' st'
      | Undefined => Undefined
      | IllFormed => IllFormed
      end
  end.

End Model.

Arguments Ok {T A} a st.
Arguments Throw {T A} e st.
Arguments Undefined {T A}.
Arguments IllFormed {T A}.

(** ** Counting the handles that hold a block *)

Section Holders.
Context {A : Type} (f : A → block_ptr).

(** 1 when the handle [h] refers to the block [b], else 0. *)
Definition holds (b : N) (h : A) : nat :=
  if decide (f h = Some b) then 1%nat else 0%nat.

(** Number of live handle objects in the store [m] that refer to [b]. *)
Definition holders (b : N) (m : gmap N A) : nat :=
  size (filter (λ kv, f kv.2 = Some b) m).

End Holders.

(** ** Life cycle of a control block, read off the event log *)

Inductive phase :=
| Absent     (* no block at this address *)
| Alive      (* block allocated, managed object alive *)
| Expired.   (* block allocated, managed object destroyed *)

#[global] Instance phase_eq_dec : EqDecision phase.
Proof. solve_decision. Defined.

(** The only legal order of events on one address:
    [EvNew], then [EvDeleteData], then [EvFree], and again from the start
    when the allocator reuses the address. *)
Definition next_phase (b : N) (ph : phase) (ev : event) : option phase :=
  match ev with
  | EvNew b' =>
      if decide (b' = b)
      then match ph with Absent => Some Alive | _ => None end
      else Some ph
  | EvDeleteData b' =>
      if decide (b' = b)
      then match ph with Alive => Some Expired | _ => None end
      else Some ph
  | EvFree b' =>
      if decide (b' = b)
      then match ph with Expired => Some Absent | _ => None end
      else Some ph
  | EvDeleter _ _ | EvDestroyAt _ => Some ph
  end.

(** Phase of the address [b] after the events of [l] (newest first);
    [None] when the events break the legal order. *)
Fixpoint lifecycle (b : N) (l : list event) : option phase :=
  match l with
  | [] => Some Absent
  | ev :: l' =>
      match lifecycle b l' with
      | Some ph => next_phase b ph ev
      | None => None
      end
  end.

(** Number of occurrences of an event in a log. *)
Definition occurrences (ev : event) (l : list event) : nat :=
  length (filter (λ e, e = ev) l).

(** ** The invariant of reachable states *)

Section Invariant.
Context {T : Type}.
Implicit Types (st : @state T) (b x : N) (c : @control_block T).

Definition strong_holders st b : nat := holders cb_ b (shared st).

Definition weak_holders st b : nat := holders w_cb_ b (weak st).

(** Number of live handle objects. *)
Definition handles st : nat := (size (shared st) + size (weak st))%nat.

(** Every counter has room for one more reference. *)
Definition fits st : Prop := Z.of_nat (handles st) + 2 < size_max.

(** The block at [b] is consistent with the handles, up to [ds] strong and
    [dw] weak references that are counted but whose handle is not (or not
    yet, or no longer) in the store:
    - the strong counter is the number of shared handles on the block;
    - the weak counter is the number of weak handles on it, plus the one
      reference that the strong holders own together;
    - an allocated block has a positive weak counter, and both counters are
      values of [std::size_t];
    - the log shows the matching phase of the life cycle;
    - no handle refers to an address without a block. *)
Definition block_at st b (ds dw : Z) : Prop :=
  match heap st !! b with
  | Some c =>
      strong_refs_ c = Z.of_nat (strong_holders st b) + ds ∧
      weak_refs_ c = Z.of_nat (weak_holders st b) + dw
                     + (if decide (strong_refs_ c = 0) then 0 else 1) ∧
      0 < weak_refs_ c < size_max ∧
      strong_refs_ c < size_max ∧
      lifecycle b (log st) =
        Some (if decide (strong_refs_ c = 0) then Expired else Alive)
  | None =>
      Z.of_nat (strong_holders st b) + ds = 0 ∧
      Z.of_nat (weak_holders st b) + dw = 0 ∧
      lifecycle b (log st) = Some Absent
  end.

(** The invariant, with a surplus of [ds], [dw] references on block [b0]. *)
Definition InvAt (b0 : N) (ds dw : Z) st : Prop :=
  ∀ b, block_at st b (if decide (b = b0) then ds else 0)
                     (if decide (b = b0) then dw else 0).

Definition Inv st : Prop := ∀ b, block_at st b 0 0.

(** The counters of the block at [b]; 0 when there is no block. *)
Definition strong_of st b : Z :=
  match heap st !! b with
  | Some c => strong_refs_ c
  | None => 0
  end.

Definition weak_of st b : Z :=
  match heap st !! b with
  | Some c => weak_refs_ c
  | None => 0
  end.

(** Phase of the block at [b] according to the heap. *)
Definition block_phase st b : phase :=
  match heap st !! b with
  | Some c => if decide (strong_refs_ c = 0) then Expired else Alive
  | None => Absent
  end.

(** Handles without a block store a null pointer. *)
Definition null_ok st : Prop :=
  (∀ x h, shared st !! x = Some h → cb_ h = None → ptr_ h = None) ∧
  (∀ x h, weak st !! x = Some h → w_cb_ h = None → w_ptr_ h = None).

(** What [lock()] answers in state [st] for the weak handle [w]. *)
Definition lock_result st (w : weak_ptr) : shared_ptr :=
  match w_cb_ w with
  | None => null_shared
  | Some b =>
      match heap st !! b with
      | Some c =>
          if decide (strong_refs_ c = 0) then null_shared
          else {| ptr_ := w_ptr_ w; cb_ := Some b |}
      | None => null_shared
      end
  end.

End Invariant.

Section Programs.
Context {T Args : Type} (construct_at : Args → option T).
Implicit Types (st : @state T).

(** The statement does not build an aliasing handle with a non-null address
    from a source handle without a block. *)
Definition alias_guard (o : @op Args) st : Prop :=
  match o with
  | SpAliasCopy _ y p | SpAliasMove _ y p =>
      ∀ h, shared st !! y = Some h → cb_ h = None → p = None
  | _ => True
  end.

(** [alias_guard] holds for every statement of the run of [prog] from [st]. *)
Fixpoint alias_guarded (prog : list op) st : Prop :=
  match prog with
  | [] => True
  | o :: prog' =>
      alias_guard o st ∧
      match step construct_at o st with
      | Ok _ st' | Throw _ st' => alias_guarded prog' st'
      | _ => True
      end
  end.

(** What a statement may do to a state that satisfies the invariant. *)
Definition step_ok (o : @op Args) st (r : @outcome T unit) : Prop :=
  match r with
  | Ok _ st' | Throw _ st' =>
      Inv st' ∧ (handles st' ≤ S (handles st))%nat ∧
      (alias_guard o st → null_ok st → null_ok st')
  | Undefined => False
  | IllFormed => True
  end.

End Programs.

(** ** Concrete programs on [shared_ptr<int>] *)

Module Demo.

(** [int] is constructed from one [int]; its constructor does not throw. *)
Definition ctor (n : Z) : option Z := Some n.

(** The state a program ends in (the empty state if it does not end). *)
Definition final (prog : list (@op Z)) : @state Z :=
  match run ctor prog init with
  | Ok _ st => st
  | _ => init
  end.

Definition count_of (st : @state Z) (x : N) : option Z :=
  h ← shared st !! x;
  match use_count h st with
  | Ok n _ => Some n
  | _ => None
  end.

(** [auto p0 = make_shared<int>(42);] *)
Definition one_holder_prog : list (@op Z) := [SpMake 0%N 42 (Some 7%N)].

Definition one_holder : @state Z := final one_holder_prog.

(** [auto p0 = make_shared<int>(42); shared_ptr<int> p1(p0);] *)
Definition two_holders_prog : list (@op Z) :=
  [SpMake 0%N 42 (Some 7%N); SpCopy 1%N 0%N].

Definition two_holders : @state Z := final two_holders_prog.

(** [auto p0 = make_shared<int>(42); weak_ptr<int> w0(p0);] *)
Definition observed_prog : list (@op Z) :=
  [SpMake 0%N 42 (Some 7%N); WpFromShared 0%N 0%N].

Definition observed : @state Z := final observed_prog.

(** A block created, shared, and given up by all its holders. *)
Definition whole_life_prog : list (@op Z) :=
  [SpPtrDeleter 0%N (Some (RawObj 100)) (custom_deleter 5) (Some 7%N);
   SpCopy 1%N 0%N; WpFromShared 0%N 1%N; SpDestroy 0%N; SpDestroy 1%N;
   WpDestroy 0%N].

Definition whole_life : @state Z := final whole_life_prog.

(** [shared_ptr<int> p0; shared_ptr<int> p1(p0, q);] with [q] not null. *)
Definition alias_of_null_prog : list (@op Z) :=
  [SpDefault 0%N; SpAliasCopy 1%N 0%N (Some (RawObj 5))].

Definition alias_of_null : @state Z := final alias_of_null_prog.

End Demo.

(** ** Further notions used by the properties beyond the handles' counters *)

Section Further.
Context {T : Type}.
Implicit Types (st : @state T) (b x : N) (c : @control_block T).

(** The computation [m] keeps the state predicate [P], whether it returns or
    throws. *)
Definition keeps {A} (P : @state T → Prop) (m : M A) : Prop :=
  ∀ st, P st →
    match m st with
    | Ok _ st' | Throw _ st' => P st'
    | _ => True
    end.

(** The predicate [P] looks at the heap and the log only. *)
Definition on_heap_and_log (P : @state T → Prop) : Prop :=
  ∀ st st', heap st' = heap st → log st' = log st → P st → P st'.

(** The computation [m] lets no exception out. *)
Definition nothrow {A} (m : M A) : Prop :=
  ∀ st, match m st with Throw _ _ => False | _ => True end.

(** The storage of every in-place block follows the life cycle of the block:
    initialised while the managed object is alive, empty once the destroy
    hook has run. *)
Definition storage_ok st : Prop :=
  ∀ b c v, heap st !! b = Some c → body c = inplace_control_block v →
    (lifecycle b (log st) = Some Alive → is_Some v) ∧
    (lifecycle b (log st) = Some Expired → v = None).

(** Number of life-cycle events of the block at [b] in a log. *)
Definition life_events b (l : list event) : nat :=
  (occurrences (EvNew b) l + occurrences (EvDeleteData b) l
   + occurrences (EvFree b) l)%nat.

(** The object embedded at [b] is [v] for as long as the log holds no more
    than [n] life-cycle events of [b]. *)
Definition untouched b (v : T) (n : nat) st : Prop :=
  (n ≤ life_events b (log st))%nat ∧
  (life_events b (log st) = n → points_to st (Some (Embedded b)) = Some v).

(** The call that [delete_data()] of the block [c] at [b] makes. *)
Definition hook_event b c : event :=
  match body c with
  | mem_control_block p d => EvDeleter d p
  | inplace_control_block _ => EvDestroyAt b
  end.

(** The events of one [release_strong_ref()] on the block [c] at [b],
    newest first. *)
Definition release_events b c : list event :=
  if decide (strong_refs_ c = 1)
  then (if decide (weak_refs_ c = 1) then [EvFree b] else [])
       ++ [hook_event b c; EvDeleteData b]
  else [].

(** The phase of the block at [b] according to the handles on it. *)
Definition phase_by_holders st b : phase :=
  if decide (0 < strong_holders st b)%nat then Alive
  else if decide (0 < weak_holders st b)%nat then Expired
  else Absent.

End Further.

Section Failing.
Context {Args : Type}.

(** The statements that allocate. *)
Definition allocates (o : @op Args) : bool :=
  match o with
  | SpPtr _ _ _ | SpPtrDeleter _ _ _ _ | SpResetPtr _ _ _
  | SpResetPtrDeleter _ _ _ _ | SpMake _ _ _ => true
  | _ => false
  end.

(** The events of a statement that throws. *)
Definition failure_trace (o : @op Args) : list event :=
  match o with
  | SpPtr _ p _ | SpResetPtr _ p _ => [EvDeleter default_delete p]
  | SpPtrDeleter _ p d _ | SpResetPtrDeleter _ p d _ => [EvDeleter d p]
  | _ => []
  end.

End Failing.

(** ** More concrete programs on [shared_ptr<int>] *)

Module Cases.

(** [auto p0 = make_shared<int>(42); weak_ptr<int> w0(p0);] and the end of
    the lifetime of [p0]. *)
Definition expired_prog : list (@op Z) :=
  [SpMake 0%N 42 (Some 7%N); WpFromShared 0%N 0%N; SpDestroy 0%N].

Definition expired : @state Z := Demo.final expired_prog.

(** Two blocks, each with one shared and one weak handle. *)
Definition crowd_prog : list (@op Z) :=
  [SpMake 0%N 42 (Some 7%N); SpPtr 1%N (Some (RawObj 100)) (Some 8%N);
   WpFromShared 0%N 0%N; WpFromShared 1%N 1%N].

Definition crowd : @state Z := Demo.final crowd_prog.

(** The handle [p0] of [Demo.one_holder_prog] is copied, observed and
    destroyed. *)
Definition handed_on_prog : list (@op Z) :=
  [SpCopy 1%N 0%N; WpFromShared 0%N 1%N; SpDestroy 0%N].

Definition handed_on : @state Z :=
  Demo.final (Demo.one_holder_prog ++ handed_on_prog).

End Cases.

(** * Proofs *)

(** ** Counting lemmas *)

Section HoldersFacts.
Context {A : Type} (f : A → block_ptr).

Lemma holders_empty b : holders f b ∅ = 0%nat.
Proof. unfold holders. by rewrite map_filter_empty, map_size_empty. Qed.

Lemma holders_insert_fresh b (m : gmap N A) x h :
  m !! x = None → holders f b (<[x := h]> m) = (holders f b m + holds f b h)%nat.
Proof.
  intros Hx. unfold holders, holds. destruct (decide (f h = Some b)) as [Hb|Hb].
  - rewrite map_filter_insert_True by done.
    rewrite map_size_insert_None; [lia|].
    by rewrite map_lookup_filter_None; left.
  - rewrite map_filter_insert_not'; [lia | done | ].
    intros y Hy. congruence.
Qed.

Lemma holders_delete b (m : gmap N A) x h :
  m !! x = Some h → holders f b m = (holders f b (delete x m) + holds f b h)%nat.
Proof.
  intros Hx. rewrite <- (insert_delete_id m x h) at 1 by done.
  apply holders_insert_fresh, lookup_delete_eq.
Qed.

Lemma holders_update b (m : gmap N A) x h h' :
  m !! x = Some h →
  (holders f b (<[x := h']> m) + holds f b h = holders f b m + holds f b h')%nat.
Proof.
  intros Hx. rewrite <- (insert_delete_eq m x h').
  rewrite holders_insert_fresh by apply lookup_delete_eq.
  rewrite (holders_delete b m x h Hx). lia.
Qed.

Lemma holders_le_size b (m : gmap N A) : (holders f b m ≤ size m)%nat.
Proof. apply map_subseteq_size, map_filter_subseteq. Qed.

Lemma holders_pos b (m : gmap N A) x h :
  m !! x = Some h → f h = Some b → (0 < holders f b m)%nat.
Proof.
  intros Hx Hb. rewrite (holders_delete b m x h Hx). unfold holds.
  rewrite decide_True by done. lia.
Qed.

Lemma holds_same b h : f h = Some b → holds f b h = 1%nat.
Proof. intros H. unfold holds. by rewrite decide_True. Qed.

Lemma holds_other b h : f h ≠ Some b → holds f b h = 0%nat.
Proof. intros H. unfold holds. by rewrite decide_False. Qed.

End HoldersFacts.

(** ** Machine arithmetic *)

Lemma wrap_small z : 0 ≤ z < size_max → wrap z = z.
Proof. intros H. unfold wrap. by apply Z.mod_small. Qed.

(** ** The member functions keep the invariant

    Each lemma runs one member function on a state that satisfies the
    invariant and gives the final state: the invariant again, and the
    handle stores in terms of the initial ones. *)

Ltac unfold_inv :=
  unfold block_at, strong_holders, weak_holders in *; simpl in *.

Ltac split_all := repeat match goal with |- _ ∧ _ => split end.

Section Primitives.
Context {T : Type}.
Implicit Types (st : @state T) (b x : N) (c : @control_block T).

Lemma Inv_InvAt st b0 : Inv st ↔ InvAt b0 0 0 st.
Proof.
  unfold Inv, InvAt. split; intros H b; specialize (H b);
    by destruct (decide (b = b0)).
Qed.

Lemma add_strong_ref_spec st b c ds dw :
  InvAt b ds dw st →
  heap st !! b = Some c → 0 < strong_refs_ c → strong_refs_ c + 1 < size_max →
  ∃ st', add_strong_ref b st = Ok tt st' ∧
         shared st' = shared st ∧ weak st' = weak st ∧
         InvAt b (ds + 1) dw st'.
Proof.
  intros HI Hc Hpos Hlt. eexists. split.
  { unfold add_strong_ref, bind, load_block. rewrite Hc. reflexivity. }
  do 2 (split; [done|]). intros b'. specialize (HI b'). unfold_inv.
  destruct (decide (b' = b)) as [->|Hne].
  - rewrite lookup_insert_eq. rewrite Hc in HI. simpl.
    rewrite wrap_small by lia.
    destruct HI as (Hs & Hw & Hw0 & Hs0 & Hl).
    repeat case_decide; try lia. split_all; try done; lia.
  - by rewrite lookup_insert_ne.
Qed.

Lemma add_weak_ref_spec st b c ds dw :
  InvAt b ds dw st →
  heap st !! b = Some c → weak_refs_ c + 1 < size_max →
  ∃ st', add_weak_ref b st = Ok tt st' ∧
         shared st' = shared st ∧ weak st' = weak st ∧
         InvAt b ds (dw + 1) st'.
Proof.
  intros HI Hc Hlt. eexists. split.
  { unfold add_weak_ref, bind, load_block. rewrite Hc. reflexivity. }
  do 2 (split; [done|]). intros b'. specialize (HI b'). unfold_inv.
  destruct (decide (b' = b)) as [->|Hne].
  - rewrite lookup_insert_eq. rewrite Hc in HI. simpl.
    destruct HI as (Hs & Hw & Hw0 & Hs0 & Hl).
    rewrite wrap_small by lia.
    repeat case_decide; try lia; split_all; try done; lia.
  - by rewrite lookup_insert_ne.
Qed.

Lemma release_weak_ref_spec st b c ds dw :
  InvAt b ds dw st →
  heap st !! b = Some c → strong_refs_ c = 0 ∨ weak_refs_ c ≠ 1 →
  ∃ st', release_weak_ref b st = Ok tt st' ∧
         shared st' = shared st ∧ weak st' = weak st ∧
         InvAt b ds (dw - 1) st'.
Proof.
  intros HI Hc Hpre.
  pose proof (HI b) as Hb. unfold_inv. rewrite Hc in Hb.
  rewrite decide_True in Hb by done.
  destruct Hb as (Hs & Hw & Hw0 & Hs0 & Hl).
  unfold release_weak_ref, bind, load_block, store_block. rewrite Hc.
  rewrite wrap_small by lia.
  destruct (decide (weak_refs_ c - 1 = 0)) as [Hz|Hz].
  - eexists. split; [reflexivity|]. do 2 (split; [done|]).
    intros b'. specialize (HI b'). unfold_inv.
    destruct (decide (b' = b)) as [->|Hne].
    + rewrite lookup_delete_eq. rewrite Hl. simpl.
      rewrite decide_True by done.
      repeat case_decide; try lia. split_all; try done; lia.
    + rewrite lookup_delete_ne, lookup_insert_ne by done.
      destruct (heap st !! b') as [c'|]; simpl;
        destruct HI as (? & ? & HI); split_all; try tauto;
        [destruct HI as (? & ? & HI)|]; rewrite HI; simpl;
        by rewrite decide_False.
  - eexists. split; [reflexivity|]. do 2 (split; [done|]).
    intros b'. specialize (HI b'). unfold_inv.
    destruct (decide (b' = b)) as [->|Hne].
    + rewrite lookup_insert_eq. simpl.
      repeat case_decide; try lia; split_all; try done; lia.
    + by rewrite lookup_insert_ne.
Qed.

Lemma delete_data_spec st b c ds dw :
  InvAt b ds dw st →
  heap st !! b = Some c → strong_refs_ c = 1 →
  ∃ st' c', delete_data b (with_heap <[b := set_strong 0 c]> st) = Ok tt st' ∧
            shared st' = shared st ∧ weak st' = weak st ∧
            heap st' !! b = Some c' ∧ strong_refs_ c' = 0 ∧
            InvAt b (ds - 1) (dw + 1) st'.
Proof.
  intros HI Hc Hone.
  unfold delete_data, bind, load_block, emit, store_block. simpl.
  rewrite lookup_insert_eq. simpl.
  destruct (body c) as [p d|v] eqn:Hbody; simpl.
  - eexists _, _. split; [reflexivity|]. do 2 (split; [done|]). simpl.
    rewrite lookup_insert_eq. do 2 (split; [done|]).
    intros b'. specialize (HI b'). unfold_inv.
    destruct (decide (b' = b)) as [->|Hne].
    + rewrite lookup_insert_eq. rewrite Hc in HI. simpl.
      destruct HI as (Hs & Hw & Hw0 & Hs0 & Hl). rewrite Hl. simpl.
      rewrite decide_True by done.
      repeat case_decide; try lia. split_all; try done; lia.
    + rewrite lookup_insert_ne by done.
      destruct (heap st !! b') as [c'|]; simpl;
        destruct HI as (? & ? & HI); split_all; try tauto;
        [destruct HI as (? & ? & HI)|]; rewrite HI; simpl;
        by rewrite decide_False.
  - eexists _, _. split; [reflexivity|]. do 2 (split; [done|]). simpl.
    rewrite lookup_insert_eq. do 2 (split; [done|]).
    intros b'. specialize (HI b'). unfold_inv.
    destruct (decide (b' = b)) as [->|Hne].
    + rewrite lookup_insert_eq. rewrite Hc in HI. simpl.
      destruct HI as (Hs & Hw & Hw0 & Hs0 & Hl). rewrite Hl. simpl.
      rewrite decide_True by done.
      repeat case_decide; try lia. split_all; try done; lia.
    + rewrite !lookup_insert_ne by done.
      destruct (heap st !! b') as [c'|]; simpl;
        destruct HI as (? & ? & HI); split_all; try tauto;
        [destruct HI as (? & ? & HI)|]; rewrite HI; simpl;
        by rewrite decide_False.
Qed.

Lemma release_strong_ref_spec st b c ds dw :
  InvAt b ds dw st →
  heap st !! b = Some c → 0 < strong_refs_ c →
  ∃ st', release_strong_ref b st = Ok tt st' ∧
         shared st' = shared st ∧ weak st' = weak st ∧
         InvAt b (ds - 1) dw st'.
Proof.
  intros HI Hc Hpos.
  pose proof (HI b) as Hb. unfold_inv. rewrite Hc in Hb.
  rewrite decide_True in Hb by done.
  destruct Hb as (Hs & Hw & Hw0 & Hs0 & Hl).
  unfold release_strong_ref. unfold bind at 1. unfold load_block at 1.
  rewrite Hc. rewrite wrap_small by lia.
  unfold bind at 1. unfold store_block at 1.
  destruct (decide (strong_refs_ c - 1 = 0)) as [Hz|Hz].
  - destruct (delete_data_spec st b c ds dw HI Hc ltac:(lia))
      as (st2 & c2 & Hrun & Hsh & Hwk & Hc2 & Hs2 & HI2).
    rewrite Hz. unfold bind. rewrite Hrun.
    destruct (release_weak_ref_spec st2 b c2 _ _ HI2 Hc2 ltac:(by left))
      as (st3 & Hrun3 & Hsh3 & Hwk3 & HI3).
    exists st3. split; [done|]. split; [congruence|]. split; [congruence|].
    by replace (dw + 1 - 1) with dw in HI3 by lia.
  - eexists. split; [reflexivity|]. do 2 (split; [done|]).
    intros b'. specialize (HI b'). unfold_inv.
    destruct (decide (b' = b)) as [->|Hne].
    + rewrite lookup_insert_eq. simpl. rewrite Hc in HI.
      repeat case_decide; try lia; split_all; try done; lia.
    + by rewrite lookup_insert_ne.
Qed.

(** *** Changes of the handle stores *)

Lemma block_at_transfer st st' b ds dw ds' dw' :
  heap st' !! b = heap st !! b → log st' = log st →
  Z.of_nat (strong_holders st' b) + ds' = Z.of_nat (strong_holders st b) + ds →
  Z.of_nat (weak_holders st' b) + dw' = Z.of_nat (weak_holders st b) + dw →
  block_at st b ds dw → block_at st' b ds' dw'.
Proof.
  intros Hh Hl Hs Hw. unfold block_at. rewrite Hh, Hl.
  destruct (heap st !! b); intros H; split_all; try tauto; lia.
Qed.

Lemma handles_cases st b :
  (strong_holders st b ≤ size (shared st))%nat ∧
  (weak_holders st b ≤ size (weak st))%nat.
Proof. split; apply holders_le_size. Qed.

(** A shared handle on [b] keeps the managed object alive. *)
Lemma shared_holder_alive st x h b :
  Inv st → shared st !! x = Some h → cb_ h = Some b →
  ∃ c, heap st !! b = Some c ∧ 0 < strong_refs_ c.
Proof.
  intros HI Hx Hb. specialize (HI b). unfold_inv.
  pose proof (holders_pos cb_ b _ x h Hx Hb).
  destruct (heap st !! b) as [c|]; [|lia].
  exists c. split; [done|]. case_decide; lia.
Qed.

(** A weak handle on [b] keeps the control block allocated. *)
Lemma weak_holder_allocated st x h b :
  Inv st → weak st !! x = Some h → w_cb_ h = Some b →
  ∃ c, heap st !! b = Some c ∧ 0 ≤ strong_refs_ c ∧
       (strong_refs_ c = 0 ∨ 1 < weak_refs_ c).
Proof.
  intros HI Hx Hb. specialize (HI b). unfold_inv.
  pose proof (holders_pos w_cb_ b _ x h Hx Hb).
  destruct (heap st !! b) as [c|]; [|lia].
  exists c. split; [done|]. case_decide; lia.
Qed.

Lemma counters_bounded st b c :
  Inv st → fits st → heap st !! b = Some c →
  strong_refs_ c + 1 < size_max ∧ weak_refs_ c + 1 < size_max.
Proof.
  intros HI Hfit Hc. specialize (HI b). unfold fits, handles in Hfit.
  destruct (handles_cases st b). unfold_inv. rewrite Hc in HI.
  case_decide; lia.
Qed.

(** *** Constructors and destructor of [shared_ptr] *)

Lemma shared_ptr_default_spec st this :
  Inv st → shared st !! this = None →
  ∃ st', shared_ptr_default this st = Ok tt st' ∧ Inv st' ∧
         shared st' = <[this := null_shared]> (shared st) ∧
         weak st' = weak st ∧ heap st' = heap st ∧ log st' = log st.
Proof.
  intros HI Hx. eexists. split.
  { unfold shared_ptr_default, begin_shared. rewrite Hx. reflexivity. }
  split; [|done]. intros b. eapply block_at_transfer, HI; try done.
  unfold strong_holders. simpl. rewrite holders_insert_fresh by done.
  rewrite holds_other by done. lia.
Qed.

Lemma shared_ptr_ptr_cb_spec st this p cb :
  Inv st → fits st → shared st !! this = None →
  (∀ b, cb = Some b → ∃ c, heap st !! b = Some c ∧ 0 < strong_refs_ c) →
  ∃ st', shared_ptr_ptr_cb this p cb st = Ok tt st' ∧ Inv st' ∧
         shared st' = <[this := {| ptr_ := p; cb_ := cb |}]> (shared st) ∧
         weak st' = weak st ∧ log st' = log st ∧
         heap st' = match cb with
                    | Some b => alter (λ c, set_strong (strong_refs_ c + 1) c) b (heap st)
                    | None => heap st
                    end.
Proof.
  intros HI Hfit Hx Hlive.
  unfold shared_ptr_ptr_cb, bind, begin_shared. rewrite Hx.
  destruct cb as [b|].
  - destruct (Hlive b eq_refl) as (c & Hc & Hpos).
    destruct (counters_bounded st b c HI Hfit Hc) as [Hlt _].
    set (st1 := with_shared _ st).
    assert (HI1 : InvAt b (-1) 0 st1).
    { intros b'. eapply block_at_transfer, HI; try done.
      unfold strong_holders. simpl. rewrite holders_insert_fresh by done.
      unfold holds. simpl. repeat case_decide; try congruence; try lia.
      unfold weak_holders. simpl. case_decide; lia. }
    destruct (add_strong_ref_spec st1 b c _ _ HI1 Hc Hpos Hlt)
      as (st2 & Hrun & Hsh & Hwk & HI2).
    exists st2. split; [done|]. split; [by apply (Inv_InvAt st2 b)|].
    split; [by rewrite Hsh|]. split; [by rewrite Hwk|].
    unfold add_strong_ref, bind, load_block in Hrun. simpl in Hrun.
    rewrite Hc in Hrun. inversion Hrun. simpl. split; [done|].
    rewrite wrap_small by lia.
    apply map_eq. intros b'. rewrite lookup_alter, lookup_insert.
    case_decide; [subst; by rewrite Hc|done].
  - eexists. split; [reflexivity|]. split; [|done].
    intros b. eapply block_at_transfer, HI; try done.
    unfold strong_holders. simpl. rewrite holders_insert_fresh by done.
    rewrite holds_other by done. lia.
Qed.

Lemma shared_ptr_alias_move_spec st this other o p :
  Inv st → shared st !! this = None → shared st !! other = Some o →
  ∃ st', shared_ptr_alias_move this other p st = Ok tt st' ∧ Inv st' ∧
         shared st' = <[other := null_shared]>
                        (<[this := {| ptr_ := p; cb_ := cb_ o |}]> (shared st)) ∧
         weak st' = weak st ∧ heap st' = heap st ∧ log st' = log st.
Proof.
  intros HI Hx Ho.
  assert (Hne : this ≠ other) by congruence.
  eexists. split.
  { unfold shared_ptr_alias_move, bind, read_shared, begin_shared, write_shared,
      bind, read_shared.
    rewrite Ho, Hx. simpl. rewrite (lookup_insert_ne _ _ _ _ Hne), Ho.
    reflexivity. }
  split; [|done]. intros b. eapply block_at_transfer, HI; try done.
  unfold strong_holders. simpl.
  pose proof (holders_update cb_ b
    (<[this := {| ptr_ := p; cb_ := cb_ o |}]> (shared st)) other o null_shared)
    as Hu.
  rewrite lookup_insert_ne in Hu by done. specialize (Hu Ho).
  rewrite (holders_insert_fresh cb_ b (shared st) this) in Hu by done.
  unfold holds, null_shared in *. simpl in *.
  repeat case_decide; try congruence; lia.
Qed.

Lemma shared_ptr_swap_spec st this other (h1 h2 : shared_ptr) :
  Inv st → shared st !! this = Some h1 → shared st !! other = Some h2 →
  ∃ st', shared_ptr_swap this other st = Ok tt st' ∧ Inv st' ∧
         shared st' = <[other := h1]> (<[this := h2]> (shared st)) ∧
         weak st' = weak st ∧ heap st' = heap st ∧ log st' = log st.
Proof.
  intros HI H1 H2.
  assert (Hmid : <[this := h2]> (shared st) !! other = Some h2).
  { destruct (decide (this = other)) as [->|Hne].
    - by rewrite lookup_insert_eq.
    - by rewrite lookup_insert_ne. }
  eexists. split.
  { unfold shared_ptr_swap, bind, read_shared, write_shared, bind, read_shared.
    rewrite H1, H2. simpl. rewrite H1. simpl. rewrite Hmid. reflexivity. }
  split; [|done]. intros b0. eapply block_at_transfer, HI; try done.
  unfold strong_holders. simpl.
  pose proof (holders_update cb_ b0 (shared st) this h1 h2 H1) as Hu1.
  pose proof (holders_update cb_ b0 _ other _ h1 Hmid) as Hu2.
  lia.
Qed.

Lemma shared_ptr_dtor_spec st this h :
  Inv st → shared st !! this = Some h →
  ∃ st', shared_ptr_dtor this st = Ok tt st' ∧ Inv st' ∧
         shared st' = delete this (shared st) ∧ weak st' = weak st.
Proof.
  intros HI Hx. unfold shared_ptr_dtor, release_strong.
  unfold bind at 1. unfold read_shared at 1. rewrite Hx.
  destruct (cb_ h) as [b|] eqn:Hcb.
  - destruct (shared_holder_alive st this h b HI Hx Hcb) as (c & Hc & Hpos).
    destruct (release_strong_ref_spec st b c 0 0
                (proj1 (Inv_InvAt st b) HI) Hc Hpos)
      as (st1 & Hrun & Hsh & Hwk & HI1).
    unfold bind at 1. rewrite Hrun.
    unfold end_shared, bind, read_shared. rewrite Hsh, Hx.
    eexists. split; [reflexivity|]. simpl. rewrite Hsh, Hwk.
    split; [|done]. intros b'. eapply block_at_transfer, HI1; try done.
    + unfold strong_holders. simpl. rewrite Hsh.
      rewrite (holders_delete cb_ b' (shared st) this h Hx).
      unfold holds. repeat case_decide; try congruence; lia.
    + unfold weak_holders. simpl. case_decide; lia.
  - unfold bind, ret, end_shared, bind, read_shared. rewrite Hx.
    eexists. split; [reflexivity|]. split; [|done].
    intros b'. eapply block_at_transfer, HI; try done.
    unfold strong_holders. simpl.
    rewrite (holders_delete cb_ b' (shared st) this h Hx).
    rewrite holds_other by congruence. lia.
Qed.

(** A new block with its first shared handle. *)
Lemma new_block_inv st b x k p :
  Inv st → heap st !! b = None → shared st !! x = None →
  Inv (with_shared <[x := {| ptr_ := p; cb_ := Some b |}]>
         (with_log (cons (EvNew b))
            (with_heap <[b := control_block_base k]> st))).
Proof.
  intros HI Hb Hx b'. specialize (HI b'). unfold_inv.
  rewrite holders_insert_fresh by done. unfold holds. simpl.
  destruct (decide (b' = b)) as [->|Hne].
  - rewrite lookup_insert_eq. rewrite Hb in HI. simpl.
    destruct HI as (Hs & Hw & Hl). rewrite Hl. simpl.
    rewrite !decide_True by done. unfold size_max. split_all; try done; lia.
  - rewrite lookup_insert_ne by done.
    rewrite decide_False by congruence.
    destruct (heap st !! b') as [c'|]; simpl;
      destruct HI as (? & ? & HI); split_all; try tauto; try lia;
      [destruct HI as (? & ? & HI)|]; rewrite HI; simpl;
      by rewrite decide_False.
Qed.

(** Calls of a deleter do not touch the life cycle of any block. *)
Lemma deleter_call_inv st d p :
  Inv st → Inv (with_log (cons (EvDeleter d p)) st).
Proof.
  intros HI b. specialize (HI b). unfold_inv.
  destruct (heap st !! b) as [c|];
    destruct HI as (? & ? & HI); split_all; try tauto;
    [destruct HI as (? & ? & HI)|]; by rewrite HI.
Qed.

Lemma shared_ptr_ptr_deleter_spec st this p d b :
  Inv st → shared st !! this = None → heap st !! b = None →
  ∃ st', shared_ptr_ptr_deleter this p d (Some b) st = Ok tt st' ∧ Inv st' ∧
         shared st' = <[this := {| ptr_ := p; cb_ := Some b |}]> (shared st) ∧
         weak st' = weak st ∧
         heap st' = <[b := control_block_base (mem_control_block p d)]> (heap st) ∧
         log st' = EvNew b :: log st.
Proof.
  intros HI Hx Hb. eexists. split.
  { unfold shared_ptr_ptr_deleter, bind, unborn_shared, try_catch, bind,
      operator_new, begin_shared.
    rewrite Hx, Hb. simpl. rewrite Hx. reflexivity. }
  split; [|done]. by apply new_block_inv.
Qed.

Lemma shared_ptr_ptr_deleter_throws st this p d :
  shared st !! this = None →
  shared_ptr_ptr_deleter this p d None st =
    Throw bad_alloc (with_log (cons (EvDeleter d p)) st).
Proof.
  intros Hx.
  unfold shared_ptr_ptr_deleter, bind, unborn_shared, try_catch, bind,
    operator_new.
  rewrite Hx. reflexivity.
Qed.
End Primitives.

(** *** [make_shared] *)

Section MakeShared.
Context {T Args : Type} (construct_at : Args → option T).
Implicit Types (st : @state T).

Lemma make_shared_spec st result args v b :
  Inv st → shared st !! result = None → heap st !! b = None →
  construct_at args = Some v →
  ∃ st', make_shared construct_at result args (Some b) st = Ok tt st' ∧ Inv st' ∧
         shared st' = <[result := {| ptr_ := Some (Embedded b); cb_ := Some b |}]>
                        (shared st) ∧
         weak st' = weak st ∧
         heap st' = <[b := control_block_base (inplace_control_block (Some v))]>
                      (heap st) ∧
         log st' = EvNew b :: log st.
Proof.
  intros HI Hx Hb Hv. eexists. split.
  { unfold make_shared, bind, unborn_shared, operator_new.
    rewrite Hx, Hb, Hv. unfold bind, shared_ptr_inplace, begin_shared. simpl.
    rewrite Hx. reflexivity. }
  split; [|done]. by apply new_block_inv.
Qed.

Lemma make_shared_throws st result args answer :
  shared st !! result = None →
  answer = None ∨ construct_at args = None →
  (∀ b, answer = Some b → heap st !! b = None) →
  ∃ e, make_shared construct_at result args answer st = Throw e st.
Proof.
  intros Hx Hfail Hfresh.
  unfold make_shared, bind, unborn_shared, operator_new. rewrite Hx.
  destruct answer as [b|]; [|by eexists].
  rewrite (Hfresh b eq_refl).
  destruct Hfail as [?|Hv]; [done|]. rewrite Hv. by eexists.
Qed.
End MakeShared.

(** *** [weak_ptr] *)

Section WeakMethods.
Context {T : Type}.
Implicit Types (st : @state T) (b x : N) (c : @control_block T).

(** *** Constructors and destructor of [weak_ptr] *)

Lemma weak_ptr_default_spec st this :
  Inv st → weak st !! this = None →
  ∃ st', weak_ptr_default this st = Ok tt st' ∧ Inv st' ∧
         weak st' = <[this := null_weak]> (weak st) ∧
         shared st' = shared st ∧ heap st' = heap st ∧ log st' = log st.
Proof.
  intros HI Hx. eexists. split.
  { unfold weak_ptr_default, begin_weak. rewrite Hx. reflexivity. }
  split; [|done]. intros b. eapply block_at_transfer, HI; try done.
  unfold weak_holders. simpl. rewrite holders_insert_fresh by done.
  rewrite holds_other by done. lia.
Qed.

Lemma weak_ptr_ptr_cb_spec st this p cb :
  Inv st → fits st → weak st !! this = None →
  (∀ b, cb = Some b → is_Some (heap st !! b)) →
  ∃ st', weak_ptr_ptr_cb this p cb st = Ok tt st' ∧ Inv st' ∧
         weak st' = <[this := {| w_ptr_ := p; w_cb_ := cb |}]> (weak st) ∧
         shared st' = shared st ∧ log st' = log st.
Proof.
  intros HI Hfit Hx Hlive.
  unfold weak_ptr_ptr_cb, bind, begin_weak. rewrite Hx.
  destruct cb as [b|].
  - destruct (Hlive b eq_refl) as (c & Hc).
    destruct (counters_bounded st b c HI Hfit Hc) as [_ Hlt].
    set (st1 := with_weak _ st).
    assert (HI1 : InvAt b 0 (-1) st1).
    { intros b'. eapply block_at_transfer, HI; try done.
      - unfold strong_holders. simpl. case_decide; lia.
      - unfold weak_holders. simpl. rewrite holders_insert_fresh by done.
        unfold holds. simpl. repeat case_decide; try congruence; lia. }
    destruct (add_weak_ref_spec st1 b c _ _ HI1 Hc Hlt)
      as (st2 & Hrun & Hsh & Hwk & HI2).
    exists st2. split; [done|]. split; [by apply (Inv_InvAt st2 b)|].
    split; [by rewrite Hwk|]. split; [by rewrite Hsh|].
    unfold add_weak_ref, bind, load_block in Hrun. simpl in Hrun.
    rewrite Hc in Hrun. by inversion Hrun.
  - eexists. split; [reflexivity|]. split; [|done].
    intros b. eapply block_at_transfer, HI; try done.
    unfold weak_holders. simpl. rewrite holders_insert_fresh by done.
    rewrite holds_other by done. lia.
Qed.

Lemma weak_ptr_move_spec st this other (o : weak_ptr) :
  Inv st → weak st !! this = None → weak st !! other = Some o →
  ∃ st', weak_ptr_move this other st = Ok tt st' ∧ Inv st' ∧
         weak st' = <[other := null_weak]> (<[this := o]> (weak st)) ∧
         shared st' = shared st ∧ heap st' = heap st ∧ log st' = log st.
Proof.
  intros HI Hx Ho.
  assert (Hne : this ≠ other) by congruence.
  destruct o as [op ocb]. eexists. split.
  { unfold weak_ptr_move, bind, read_weak, begin_weak, write_weak, bind, read_weak.
    rewrite Ho, Hx. simpl. rewrite (lookup_insert_ne _ _ _ _ Hne), Ho.
    reflexivity. }
  split; [|done]. intros b. eapply block_at_transfer, HI; try done.
  unfold weak_holders. simpl.
  pose proof (holders_update w_cb_ b
    (<[this := {| w_ptr_ := op; w_cb_ := ocb |}]> (weak st)) other
    {| w_ptr_ := op; w_cb_ := ocb |} null_weak) as Hu.
  rewrite lookup_insert_ne in Hu by done. specialize (Hu Ho).
  rewrite (holders_insert_fresh w_cb_ b (weak st) this) in Hu by done.
  unfold holds, null_weak in *. simpl in *.
  repeat case_decide; try congruence; lia.
Qed.

Lemma weak_ptr_swap_spec st this other (h1 h2 : weak_ptr) :
  Inv st → weak st !! this = Some h1 → weak st !! other = Some h2 →
  ∃ st', weak_ptr_swap this other st = Ok tt st' ∧ Inv st' ∧
         weak st' = <[other := h1]> (<[this := h2]> (weak st)) ∧
         shared st' = shared st ∧ heap st' = heap st ∧ log st' = log st.
Proof.
  intros HI H1 H2.
  assert (Hmid : <[this := h2]> (weak st) !! other = Some h2).
  { destruct (decide (this = other)) as [->|Hne].
    - by rewrite lookup_insert_eq.
    - by rewrite lookup_insert_ne. }
  eexists. split.
  { unfold weak_ptr_swap, bind, read_weak, write_weak, bind, read_weak.
    rewrite H1, H2. simpl. rewrite H1. simpl. rewrite Hmid. reflexivity. }
  split; [|done]. intros b0. eapply block_at_transfer, HI; try done.
  unfold weak_holders. simpl.
  pose proof (holders_update w_cb_ b0 (weak st) this h1 h2 H1) as Hu1.
  pose proof (holders_update w_cb_ b0 _ other _ h1 Hmid) as Hu2.
  lia.
Qed.

Lemma weak_ptr_dtor_spec st this (h : weak_ptr) :
  Inv st → weak st !! this = Some h →
  ∃ st', weak_ptr_dtor this st = Ok tt st' ∧ Inv st' ∧
         weak st' = delete this (weak st) ∧ shared st' = shared st.
Proof.
  intros HI Hx. unfold weak_ptr_dtor, release_weak.
  unfold bind at 1. unfold read_weak at 1. rewrite Hx.
  destruct (w_cb_ h) as [b|] eqn:Hcb.
  - destruct (weak_holder_allocated st this h b HI Hx Hcb) as (c & Hc & _ & Hpre).
    destruct (release_weak_ref_spec st b c 0 0
                (proj1 (Inv_InvAt st b) HI) Hc ltac:(lia))
      as (st1 & Hrun & Hsh & Hwk & HI1).
    unfold bind at 1. rewrite Hrun.
    unfold end_weak, bind, read_weak. rewrite Hwk, Hx.
    eexists. split; [reflexivity|]. simpl. rewrite Hsh, Hwk.
    split; [|done]. intros b'. eapply block_at_transfer, HI1; try done.
    + unfold strong_holders. simpl. case_decide; lia.
    + unfold weak_holders. simpl. rewrite Hwk.
      rewrite (holders_delete w_cb_ b' (weak st) this h Hx).
      unfold holds. repeat case_decide; try congruence; lia.
  - unfold bind, ret, end_weak, bind, read_weak. rewrite Hx.
    eexists. split; [reflexivity|]. split; [|done].
    intros b'. eapply block_at_transfer, HI; try done.
    unfold weak_holders. simpl.
    rewrite (holders_delete w_cb_ b' (weak st) this h Hx).
    rewrite holds_other by congruence. lia.
Qed.

End WeakMethods.

(** *** Copies, moves, assignments and [reset] *)

Ltac map_lookups :=
  apply map_eq; intros ?;
  repeat (rewrite lookup_insert || rewrite lookup_delete);
  repeat case_decide; congruence.

Section Composite.
Context {T : Type}.
Implicit Types (st : @state T) (b x : N) (c : @control_block T).

Lemma bind_Ok {A B} (m : M A) (f : A → M B) st a st' :
  m st = Ok a st' → bind m f st = f a st'.
Proof. intros H. unfold bind. by rewrite H. Qed.

Lemma bind_Throw {A B} (m : M A) (f : A → M B) st e st' :
  m st = Throw e st' → bind m f st = Throw e st'.
Proof. intros H. unfold bind. by rewrite H. Qed.

Lemma read_shared_Ok st x h :
  shared st !! x = Some h → read_shared x st = Ok h st.
Proof. intros H. unfold read_shared. by rewrite H. Qed.

Lemma read_weak_Ok st x h :
  weak st !! x = Some h → read_weak x st = Ok h st.
Proof. intros H. unfold read_weak. by rewrite H. Qed.

Lemma temp_shared_Ok st : temp_shared st = Ok (fresh (dom (shared st))) st.
Proof. reflexivity. Qed.

Lemma temp_weak_Ok st : temp_weak st = Ok (fresh (dom (weak st))) st.
Proof. reflexivity. Qed.

Lemma temp_shared_fresh st : shared st !! fresh (dom (shared st)) = None.
Proof. apply not_elem_of_dom, is_fresh. Qed.

Lemma temp_weak_fresh st : weak st !! fresh (dom (weak st)) = None.
Proof. apply not_elem_of_dom, is_fresh. Qed.

Lemma shared_ptr_alias_copy_spec st this other (o : shared_ptr) p :
  Inv st → fits st → shared st !! this = None → shared st !! other = Some o →
  ∃ st', shared_ptr_alias_copy this other p st = Ok tt st' ∧ Inv st' ∧
         shared st' = <[this := {| ptr_ := p; cb_ := cb_ o |}]> (shared st) ∧
         weak st' = weak st ∧ log st' = log st ∧
         heap st' = match cb_ o with
                    | Some b => alter (λ c, set_strong (strong_refs_ c + 1) c) b (heap st)
                    | None => heap st
                    end.
Proof.
  intros HI Hfit Hx Ho. unfold shared_ptr_alias_copy.
  rewrite (bind_Ok _ _ _ _ _ (read_shared_Ok st other o Ho)).
  apply shared_ptr_ptr_cb_spec; try done.
  intros b Hb. by apply (shared_holder_alive st other o).
Qed.

Lemma shared_ptr_copy_spec st this other (o : shared_ptr) :
  Inv st → fits st → shared st !! this = None → shared st !! other = Some o →
  ∃ st', shared_ptr_copy this other st = Ok tt st' ∧ Inv st' ∧
         shared st' = <[this := o]> (shared st) ∧
         weak st' = weak st ∧ log st' = log st ∧
         heap st' = match cb_ o with
                    | Some b => alter (λ c, set_strong (strong_refs_ c + 1) c) b (heap st)
                    | None => heap st
                    end.
Proof.
  intros HI Hfit Hx Ho. unfold shared_ptr_copy.
  rewrite (bind_Ok _ _ _ _ _ (read_shared_Ok st other o Ho)).
  destruct (shared_ptr_alias_copy_spec st this other o (ptr_ o) HI Hfit Hx Ho)
    as (st' & Hrun & HI' & Hsh & Hrest).
  exists st'. split; [done|]. split; [done|]. split; [|done].
  rewrite Hsh. by destruct o.
Qed.

Lemma shared_ptr_move_spec st this other (o : shared_ptr) :
  Inv st → shared st !! this = None → shared st !! other = Some o →
  ∃ st', shared_ptr_move this other st = Ok tt st' ∧ Inv st' ∧
         shared st' = <[other := null_shared]> (<[this := o]> (shared st)) ∧
         weak st' = weak st ∧ heap st' = heap st ∧ log st' = log st.
Proof.
  intros HI Hx Ho. unfold shared_ptr_move.
  rewrite (bind_Ok _ _ _ _ _ (read_shared_Ok st other o Ho)).
  destruct (shared_ptr_alias_move_spec st this other o (ptr_ o) HI Hx Ho)
    as (st' & Hrun & HI' & Hsh & Hrest).
  exists st'. split; [done|]. split; [done|]. split; [|done].
  rewrite Hsh. by destruct o.
Qed.

(** [tmp.swap( *this )] followed by the death of the temporary. *)
Lemma swap_in_spec st tmp this (hn h : shared_ptr) :
  Inv st → tmp ≠ this →
  shared st !! tmp = Some hn → shared st !! this = Some h →
  ∃ st', (bind (shared_ptr_swap tmp this) (λ _, shared_ptr_dtor tmp)) st
           = Ok tt st' ∧ Inv st' ∧
         shared st' = <[this := hn]> (delete tmp (shared st)) ∧
         weak st' = weak st.
Proof.
  intros HI Hne Htmp Hthis.
  destruct (shared_ptr_swap_spec st tmp this hn h HI Htmp Hthis)
    as (st1 & Hrun1 & HI1 & Hsh1 & Hwk1 & _).
  rewrite (bind_Ok _ _ _ _ _ Hrun1).
  assert (Ht1 : shared st1 !! tmp = Some h).
  { rewrite Hsh1, lookup_insert_ne, lookup_insert_eq; done. }
  destruct (shared_ptr_dtor_spec st1 tmp h HI1 Ht1)
    as (st2 & Hrun2 & HI2 & Hsh2 & Hwk2).
  exists st2. split; [done|]. split; [done|]. split; [|congruence].
  rewrite Hsh2, Hsh1. map_lookups.
Qed.

Lemma shared_ptr_assign_copy_spec st this other (h o : shared_ptr) :
  Inv st → fits st → shared st !! this = Some h → shared st !! other = Some o →
  ∃ st', shared_ptr_assign_copy this other st = Ok tt st' ∧ Inv st' ∧
         shared st' = <[this := o]> (shared st) ∧ weak st' = weak st.
Proof.
  intros HI Hfit Hthis Ho. unfold shared_ptr_assign_copy.
  rewrite (bind_Ok _ _ _ _ _ (read_shared_Ok st this h Hthis)).
  pose proof (temp_shared_fresh st) as Htmp.
  rewrite (bind_Ok _ _ _ _ _ (temp_shared_Ok st)).
  set (tmp := fresh (dom (shared st))) in *.
  assert (Hne : tmp ≠ this) by congruence.
  destruct (shared_ptr_copy_spec st tmp other o HI Hfit Htmp Ho)
    as (st1 & Hrun1 & HI1 & Hsh1 & Hwk1 & _).
  rewrite (bind_Ok _ _ _ _ _ Hrun1).
  destruct (swap_in_spec st1 tmp this o h HI1 Hne) as (st2 & Hrun2 & HI2 & Hsh2 & Hwk2).
  { by rewrite Hsh1, lookup_insert_eq. }
  { by rewrite Hsh1, lookup_insert_ne. }
  exists st2. split; [done|]. split; [done|]. split; [|congruence].
  rewrite Hsh2, Hsh1. map_lookups.
Qed.

Lemma shared_ptr_assign_move_spec st this other (h o : shared_ptr) :
  Inv st → shared st !! this = Some h → shared st !! other = Some o →
  ∃ st', shared_ptr_assign_move this other st = Ok tt st' ∧ Inv st' ∧
         shared st' = <[this := o]> (<[other := null_shared]> (shared st)) ∧
         weak st' = weak st.
Proof.
  intros HI Hthis Ho. unfold shared_ptr_assign_move.
  rewrite (bind_Ok _ _ _ _ _ (read_shared_Ok st this h Hthis)).
  pose proof (temp_shared_fresh st) as Htmp.
  rewrite (bind_Ok _ _ _ _ _ (temp_shared_Ok st)).
  set (tmp := fresh (dom (shared st))) in *.
  assert (Hne : tmp ≠ this) by congruence.
  assert (Hne' : tmp ≠ other) by congruence.
  destruct (shared_ptr_move_spec st tmp other o HI Htmp Ho)
    as (st1 & Hrun1 & HI1 & Hsh1 & Hwk1 & _).
  rewrite (bind_Ok _ _ _ _ _ Hrun1).
  assert (∃ h', shared st1 !! this = Some h') as [h' Hthis1].
  { rewrite Hsh1, lookup_insert. case_decide; [by eexists|].
    rewrite lookup_insert_ne by done. by eexists. }
  destruct (swap_in_spec st1 tmp this o h' HI1 Hne) as (st2 & Hrun2 & HI2 & Hsh2 & Hwk2).
  { by rewrite Hsh1, lookup_insert_ne, lookup_insert_eq. }
  { done. }
  exists st2. split; [done|]. split; [done|]. split; [|congruence].
  rewrite Hsh2, Hsh1. map_lookups.
Qed.

Lemma shared_ptr_reset_spec st this (h : shared_ptr) :
  Inv st → shared st !! this = Some h →
  ∃ st', shared_ptr_reset this st = Ok tt st' ∧ Inv st' ∧
         shared st' = <[this := null_shared]> (shared st) ∧ weak st' = weak st.
Proof.
  intros HI Hthis. unfold shared_ptr_reset.
  rewrite (bind_Ok _ _ _ _ _ (read_shared_Ok st this h Hthis)).
  pose proof (temp_shared_fresh st) as Htmp.
  rewrite (bind_Ok _ _ _ _ _ (temp_shared_Ok st)).
  set (tmp := fresh (dom (shared st))) in *.
  assert (Hne : tmp ≠ this) by congruence.
  destruct (shared_ptr_default_spec st tmp HI Htmp)
    as (st1 & Hrun1 & HI1 & Hsh1 & Hwk1 & _).
  rewrite (bind_Ok _ _ _ _ _ Hrun1).
  destruct (swap_in_spec st1 tmp this null_shared h HI1 Hne)
    as (st2 & Hrun2 & HI2 & Hsh2 & Hwk2).
  { by rewrite Hsh1, lookup_insert_eq. }
  { by rewrite Hsh1, lookup_insert_ne. }
  exists st2. split; [done|]. split; [done|]. split; [|congruence].
  rewrite Hsh2, Hsh1. map_lookups.
Qed.

Lemma shared_ptr_reset_ptr_deleter_spec st this (h : shared_ptr) p d b :
  Inv st → shared st !! this = Some h → heap st !! b = None →
  ∃ st', shared_ptr_reset_ptr_deleter this p d (Some b) st = Ok tt st' ∧ Inv st' ∧
         shared st' = <[this := {| ptr_ := p; cb_ := Some b |}]> (shared st) ∧
         weak st' = weak st.
Proof.
  intros HI Hthis Hb. unfold shared_ptr_reset_ptr_deleter.
  rewrite (bind_Ok _ _ _ _ _ (read_shared_Ok st this h Hthis)).
  pose proof (temp_shared_fresh st) as Htmp.
  rewrite (bind_Ok _ _ _ _ _ (temp_shared_Ok st)).
  set (tmp := fresh (dom (shared st))) in *.
  assert (Hne : tmp ≠ this) by congruence.
  destruct (shared_ptr_ptr_deleter_spec st tmp p d b HI Htmp Hb)
    as (st1 & Hrun1 & HI1 & Hsh1 & Hwk1 & _).
  rewrite (bind_Ok _ _ _ _ _ Hrun1).
  destruct (swap_in_spec st1 tmp this {| ptr_ := p; cb_ := Some b |} h HI1 Hne)
    as (st2 & Hrun2 & HI2 & Hsh2 & Hwk2).
  { by rewrite Hsh1, lookup_insert_eq. }
  { by rewrite Hsh1, lookup_insert_ne. }
  exists st2. split; [done|]. split; [done|]. split; [|congruence].
  rewrite Hsh2, Hsh1. map_lookups.
Qed.

Lemma shared_ptr_reset_ptr_deleter_throws st this (h : shared_ptr) p d :
  shared st !! this = Some h →
  shared_ptr_reset_ptr_deleter this p d None st =
    Throw bad_alloc (with_log (cons (EvDeleter d p)) st).
Proof.
  intros Hthis. unfold shared_ptr_reset_ptr_deleter.
  rewrite (bind_Ok _ _ _ _ _ (read_shared_Ok st this h Hthis)).
  rewrite (bind_Ok _ _ _ _ _ (temp_shared_Ok st)).
  apply bind_Throw, shared_ptr_ptr_deleter_throws, temp_shared_fresh.
Qed.

End Composite.

Section WeakComposite.
Context {T : Type}.
Implicit Types (st : @state T) (b x : N) (c : @control_block T).

Lemma weak_ptr_from_shared_spec st this other (o : shared_ptr) :
  Inv st → fits st → weak st !! this = None → shared st !! other = Some o →
  ∃ st', weak_ptr_from_shared this other st = Ok tt st' ∧ Inv st' ∧
         weak st' = <[this := {| w_ptr_ := ptr_ o; w_cb_ := cb_ o |}]> (weak st) ∧
         shared st' = shared st ∧ log st' = log st.
Proof.
  intros HI Hfit Hx Ho. unfold weak_ptr_from_shared.
  rewrite (bind_Ok _ _ _ _ _ (read_shared_Ok st other o Ho)).
  apply weak_ptr_ptr_cb_spec; try done.
  intros b Hb. destruct (shared_holder_alive st other o b HI Ho Hb) as (c & Hc & _).
  by exists c.
Qed.

Lemma weak_ptr_copy_spec st this other (o : weak_ptr) :
  Inv st → fits st → weak st !! this = None → weak st !! other = Some o →
  ∃ st', weak_ptr_copy this other st = Ok tt st' ∧ Inv st' ∧
         weak st' = <[this := o]> (weak st) ∧
         shared st' = shared st ∧ log st' = log st.
Proof.
  intros HI Hfit Hx Ho. unfold weak_ptr_copy.
  rewrite (bind_Ok _ _ _ _ _ (read_weak_Ok st other o Ho)).
  destruct (weak_ptr_ptr_cb_spec st this (w_ptr_ o) (w_cb_ o) HI Hfit Hx)
    as (st' & Hrun & HI' & Hwk & Hrest).
  { intros b Hb.
    destruct (weak_holder_allocated st other o b HI Ho Hb) as (c & Hc & _).
    by exists c. }
  exists st'. split; [done|]. split; [done|]. split; [|done].
  rewrite Hwk. by destruct o.
Qed.

(** [tmp.swap( *this )] followed by the death of the temporary. *)
Lemma weak_swap_in_spec st tmp this (hn h : weak_ptr) :
  Inv st → tmp ≠ this →
  weak st !! tmp = Some hn → weak st !! this = Some h →
  ∃ st', (bind (weak_ptr_swap tmp this) (λ _, weak_ptr_dtor tmp)) st
           = Ok tt st' ∧ Inv st' ∧
         weak st' = <[this := hn]> (delete tmp (weak st)) ∧
         shared st' = shared st.
Proof.
  intros HI Hne Htmp Hthis.
  destruct (weak_ptr_swap_spec st tmp this hn h HI Htmp Hthis)
    as (st1 & Hrun1 & HI1 & Hwk1 & Hsh1 & _).
  rewrite (bind_Ok _ _ _ _ _ Hrun1).
  assert (Ht1 : weak st1 !! tmp = Some h).
  { rewrite Hwk1, lookup_insert_ne, lookup_insert_eq; done. }
  destruct (weak_ptr_dtor_spec st1 tmp h HI1 Ht1)
    as (st2 & Hrun2 & HI2 & Hwk2 & Hsh2).
  exists st2. split; [done|]. split; [done|]. split; [|congruence].
  rewrite Hwk2, Hwk1. map_lookups.
Qed.

Lemma weak_ptr_assign_shared_spec st this other (h : weak_ptr) (o : shared_ptr) :
  Inv st → fits st → weak st !! this = Some h → shared st !! other = Some o →
  ∃ st', weak_ptr_assign_shared this other st = Ok tt st' ∧ Inv st' ∧
         weak st' = <[this := {| w_ptr_ := ptr_ o; w_cb_ := cb_ o |}]> (weak st) ∧
         shared st' = shared st.
Proof.
  intros HI Hfit Hthis Ho. unfold weak_ptr_assign_shared.
  rewrite (bind_Ok _ _ _ _ _ (read_weak_Ok st this h Hthis)).
  pose proof (temp_weak_fresh st) as Htmp.
  rewrite (bind_Ok _ _ _ _ _ (temp_weak_Ok st)).
  set (tmp := fresh (dom (weak st))) in *.
  assert (Hne : tmp ≠ this) by congruence.
  destruct (weak_ptr_from_shared_spec st tmp other o HI Hfit Htmp Ho)
    as (st1 & Hrun1 & HI1 & Hwk1 & Hsh1 & _).
  rewrite (bind_Ok _ _ _ _ _ Hrun1).
  destruct (weak_swap_in_spec st1 tmp this
              {| w_ptr_ := ptr_ o; w_cb_ := cb_ o |} h HI1 Hne)
    as (st2 & Hrun2 & HI2 & Hwk2 & Hsh2).
  { by rewrite Hwk1, lookup_insert_eq. }
  { by rewrite Hwk1, lookup_insert_ne. }
  exists st2. split; [done|]. split; [done|]. split; [|congruence].
  rewrite Hwk2, Hwk1. map_lookups.
Qed.

Lemma weak_ptr_assign_copy_spec st this other (h o : weak_ptr) :
  Inv st → fits st → weak st !! this = Some h → weak st !! other = Some o →
  ∃ st', weak_ptr_assign_copy this other st = Ok tt st' ∧ Inv st' ∧
         weak st' = <[this := o]> (weak st) ∧ shared st' = shared st.
Proof.
  intros HI Hfit Hthis Ho. unfold weak_ptr_assign_copy.
  rewrite (bind_Ok _ _ _ _ _ (read_weak_Ok st this h Hthis)).
  pose proof (temp_weak_fresh st) as Htmp.
  rewrite (bind_Ok _ _ _ _ _ (temp_weak_Ok st)).
  set (tmp := fresh (dom (weak st))) in *.
  assert (Hne : tmp ≠ this) by congruence.
  destruct (weak_ptr_copy_spec st tmp other o HI Hfit Htmp Ho)
    as (st1 & Hrun1 & HI1 & Hwk1 & Hsh1 & _).
  rewrite (bind_Ok _ _ _ _ _ Hrun1).
  destruct (weak_swap_in_spec st1 tmp this o h HI1 Hne)
    as (st2 & Hrun2 & HI2 & Hwk2 & Hsh2).
  { by rewrite Hwk1, lookup_insert_eq. }
  { by rewrite Hwk1, lookup_insert_ne. }
  exists st2. split; [done|]. split; [done|]. split; [|congruence].
  rewrite Hwk2, Hwk1. map_lookups.
Qed.

Lemma weak_ptr_assign_move_spec st this other (h o : weak_ptr) :
  Inv st → weak st !! this = Some h → weak st !! other = Some o →
  ∃ st', weak_ptr_assign_move this other st = Ok tt st' ∧ Inv st' ∧
         weak st' = <[this := o]> (<[other := null_weak]> (weak st)) ∧
         shared st' = shared st.
Proof.
  intros HI Hthis Ho. unfold weak_ptr_assign_move.
  rewrite (bind_Ok _ _ _ _ _ (read_weak_Ok st this h Hthis)).
  pose proof (temp_weak_fresh st) as Htmp.
  rewrite (bind_Ok _ _ _ _ _ (temp_weak_Ok st)).
  set (tmp := fresh (dom (weak st))) in *.
  assert (Hne : tmp ≠ this) by congruence.
  assert (Hne' : tmp ≠ other) by congruence.
  destruct (weak_ptr_move_spec st tmp other o HI Htmp Ho)
    as (st1 & Hrun1 & HI1 & Hwk1 & Hsh1 & _).
  rewrite (bind_Ok _ _ _ _ _ Hrun1).
  assert (∃ h', weak st1 !! this = Some h') as [h' Hthis1].
  { rewrite Hwk1, lookup_insert. case_decide; [by eexists|].
    rewrite lookup_insert_ne by done. by eexists. }
  destruct (weak_swap_in_spec st1 tmp this o h' HI1 Hne)
    as (st2 & Hrun2 & HI2 & Hwk2 & Hsh2).
  { by rewrite Hwk1, lookup_insert_ne, lookup_insert_eq. }
  { done. }
  exists st2. split; [done|]. split; [done|]. split; [|congruence].
  rewrite Hwk2, Hwk1. map_lookups.
Qed.

Lemma weak_ptr_reset_spec st this (h : weak_ptr) :
  Inv st → weak st !! this = Some h →
  ∃ st', weak_ptr_reset this st = Ok tt st' ∧ Inv st' ∧
         weak st' = <[this := null_weak]> (weak st) ∧ shared st' = shared st.
Proof.
  intros HI Hthis. unfold weak_ptr_reset.
  rewrite (bind_Ok _ _ _ _ _ (read_weak_Ok st this h Hthis)).
  pose proof (temp_weak_fresh st) as Htmp.
  rewrite (bind_Ok _ _ _ _ _ (temp_weak_Ok st)).
  set (tmp := fresh (dom (weak st))) in *.
  assert (Hne : tmp ≠ this) by congruence.
  destruct (weak_ptr_default_spec st tmp HI Htmp)
    as (st1 & Hrun1 & HI1 & Hwk1 & Hsh1 & _).
  rewrite (bind_Ok _ _ _ _ _ Hrun1).
  destruct (weak_swap_in_spec st1 tmp this null_weak h HI1 Hne)
    as (st2 & Hrun2 & HI2 & Hwk2 & Hsh2).
  { by rewrite Hwk1, lookup_insert_eq. }
  { by rewrite Hwk1, lookup_insert_ne. }
  exists st2. split; [done|]. split; [done|]. split; [|congruence].
  rewrite Hwk2, Hwk1. map_lookups.
Qed.

Lemma weak_ptr_lock_spec st result this (w : weak_ptr) :
  Inv st → fits st → shared st !! result = None → weak st !! this = Some w →
  ∃ st', weak_ptr_lock result this st = Ok tt st' ∧ Inv st' ∧
         shared st' = <[result := lock_result st w]> (shared st) ∧
         weak st' = weak st ∧ log st' = log st.
Proof.
  intros HI Hfit Hx Hw. unfold weak_ptr_lock, lock_result.
  rewrite (bind_Ok _ _ _ _ _ (read_weak_Ok st this w Hw)).
  destruct (w_cb_ w) as [b|] eqn:Hcb.
  - destruct (weak_holder_allocated st this w b HI Hw Hcb) as (c & Hc & Hs0 & _).
    rewrite Hc.
    assert (Hget : bind (get_strong_refs b)
                     (λ s, ret (bool_decide (s = 0))) st
                   = Ok (bool_decide (strong_refs_ c = 0)) st).
    { unfold get_strong_refs, bind, load_block. by rewrite Hc. }
    rewrite (bind_Ok _ _ _ _ _ Hget).
    destruct (decide (strong_refs_ c = 0)) as [Hz|Hz].
    + rewrite bool_decide_eq_true_2 by done.
      destruct (shared_ptr_default_spec st result HI Hx)
        as (st' & Hrun & HI' & Hsh & Hwk & _ & Hl).
      by exists st'.
    + rewrite bool_decide_eq_false_2 by done.
      destruct (shared_ptr_ptr_cb_spec st result (w_ptr_ w) (Some b) HI Hfit Hx)
        as (st' & Hrun & HI' & Hsh & Hwk & Hl & _).
      { intros b' [= <-]. exists c. split; [done|lia]. }
      by exists st'.
  - assert (Hret : ret (T:=T) true st = Ok true st) by done.
    rewrite (bind_Ok _ _ _ _ _ Hret).
    destruct (shared_ptr_default_spec st result HI Hx)
      as (st' & Hrun & HI' & Hsh & Hwk & _ & Hl).
    by exists st'.
Qed.

End WeakComposite.

(** ** Every statement keeps the invariant *)

Ltac use_lookups :=
  repeat (simpl;
          match goal with
          | H : ?m !! ?x = _ |- context [?m !! ?x] => rewrite H
          end).

Ltac ill_formed :=
  cbv [step shared_ptr_default shared_ptr_ptr shared_ptr_ptr_deleter
       shared_ptr_alias_copy shared_ptr_alias_move shared_ptr_copy
       shared_ptr_move shared_ptr_assign_copy shared_ptr_assign_move
       shared_ptr_reset shared_ptr_reset_ptr shared_ptr_reset_ptr_deleter
       shared_ptr_swap shared_ptr_dtor shared_ptr_ptr_cb shared_ptr_inplace
       make_shared weak_ptr_default weak_ptr_from_shared weak_ptr_copy
       weak_ptr_move weak_ptr_assign_shared weak_ptr_assign_copy
       weak_ptr_assign_move weak_ptr_reset weak_ptr_swap weak_ptr_dtor
       weak_ptr_lock weak_ptr_ptr_cb
       bind try_catch read_shared read_weak begin_shared begin_weak
       write_shared write_weak end_shared end_weak unborn_shared operator_new
       temp_shared temp_weak];
  use_lookups; exact I.

Section Steps.
Context {T Args : Type} (construct_at : Args → option T).
Implicit Types (st : @state T) (b x : N) (o : @op Args).

Lemma size_insert_le {A} (m : gmap N A) x h : (size (<[x := h]> m) ≤ S (size m))%nat.
Proof. rewrite map_size_insert. destruct (m !! x); simpl; lia. Qed.

Lemma size_insert_live {A} (m : gmap N A) x h h' :
  m !! x = Some h → size (<[x := h']> m) = size m.
Proof. intros H. apply map_size_insert_Some. by rewrite H. Qed.

Lemma size_delete_le {A} (m : gmap N A) x : (size (delete x m) ≤ size m)%nat.
Proof. rewrite map_size_delete. destruct (m !! x); simpl; lia. Qed.

Lemma size_insert2_le {A} (m : gmap N A) x y h h' hy :
  m !! y = Some hy →
  (size (<[y := h']> (<[x := h]> m)) ≤ S (size m))%nat ∧
  (size (<[x := h]> (<[y := h']> m)) ≤ S (size m))%nat.
Proof.
  intros Hy. split.
  - pose proof (size_insert_le m x h).
    destruct (decide (x = y)) as [->|Hne].
    + rewrite insert_insert_eq. pose proof (size_insert_le m y h'). lia.
    + rewrite (size_insert_live _ y hy) by (by rewrite lookup_insert_ne). lia.
  - pose proof (size_insert_le (<[y := h']> m) x h).
    rewrite (size_insert_live _ y hy) in * by done. lia.
Qed.

(** Handles of the new state are handles of the old one, or respect
    [null_ok] by themselves. *)
Lemma null_ok_from st st' :
  (∀ x h, shared st' !! x = Some h →
     (∃ y, shared st !! y = Some h) ∨ (cb_ h = None → ptr_ h = None)) →
  (∀ x h, weak st' !! x = Some h →
     (∃ y, weak st !! y = Some h) ∨ (w_cb_ h = None → w_ptr_ h = None)) →
  null_ok st → null_ok st'.
Proof.
  intros Hs Hw [Hn1 Hn2]. split.
  - intros x h Hx. destruct (Hs x h Hx) as [[y Hy]|]; [by eapply Hn1|done].
  - intros x h Hx. destruct (Hw x h Hx) as [[y Hy]|]; [by eapply Hn2|done].
Qed.

Lemma step_ok_shared_insert o st st' x h :
  Inv st' → shared st' = <[x := h]> (shared st) → weak st' = weak st →
  (alias_guard o st → null_ok st → cb_ h = None → ptr_ h = None) →
  step_ok o st (Ok tt st').
Proof.
  intros HI Hsh Hwk Hh. split; [done|]. split.
  - unfold handles. rewrite Hsh, Hwk.
    pose proof (size_insert_le (shared st) x h). lia.
  - intros Hg Hn. apply (null_ok_from st); [| |done].
    + intros x' h'. rewrite Hsh, lookup_insert. case_decide.
      * intros [= <-]. right. by apply Hh.
      * intros Hl. left. by exists x'.
    + intros x' h'. rewrite Hwk. intros Hl. left. by exists x'.
Qed.

Lemma step_ok_weak_insert o st st' x h :
  Inv st' → weak st' = <[x := h]> (weak st) → shared st' = shared st →
  (null_ok st → w_cb_ h = None → w_ptr_ h = None) →
  step_ok o st (Ok tt st').
Proof.
  intros HI Hwk Hsh Hh. split; [done|]. split.
  - unfold handles. rewrite Hsh, Hwk.
    pose proof (size_insert_le (weak st) x h). lia.
  - intros Hg Hn. apply (null_ok_from st); [| |done].
    + intros x' h'. rewrite Hsh. intros Hl. left. by exists x'.
    + intros x' h'. rewrite Hwk, lookup_insert. case_decide.
      * intros [= <-]. right. by apply Hh.
      * intros Hl. left. by exists x'.
Qed.

Lemma step_ok_shared_insert2 o st st' x y h h' hy :
  Inv st' → shared st !! y = Some hy →
  (shared st' = <[y := h']> (<[x := h]> (shared st)) ∨
   shared st' = <[x := h]> (<[y := h']> (shared st))) →
  weak st' = weak st →
  (alias_guard o st → null_ok st → cb_ h = None → ptr_ h = None) →
  (null_ok st → cb_ h' = None → ptr_ h' = None) →
  step_ok o st (Ok tt st').
Proof.
  intros HI Hy Hsh Hwk Hh Hh'. split; [done|]. split.
  - unfold handles. rewrite Hwk.
    destruct (size_insert2_le (shared st) x y h h' hy Hy).
    destruct Hsh as [-> | ->]; lia.
  - intros Hg Hn. apply (null_ok_from st); [| |done].
    + intros x' h0 Hl.
      assert (h0 = h ∨ h0 = h' ∨ shared st !! x' = Some h0) as [->|[->|?]].
      { destruct Hsh as [Hsh|Hsh]; rewrite Hsh in Hl;
          rewrite !lookup_insert in Hl; repeat case_decide;
          try (injection Hl as <-); auto. }
      * right. by apply Hh.
      * right. by apply Hh'.
      * left. by exists x'.
    + intros x' h0. rewrite Hwk. intros Hl. left. by exists x'.
Qed.

Lemma step_ok_weak_insert2 o st st' x y h h' hy :
  Inv st' → weak st !! y = Some hy →
  (weak st' = <[y := h']> (<[x := h]> (weak st)) ∨
   weak st' = <[x := h]> (<[y := h']> (weak st))) →
  shared st' = shared st →
  (null_ok st → w_cb_ h = None → w_ptr_ h = None) →
  (null_ok st → w_cb_ h' = None → w_ptr_ h' = None) →
  step_ok o st (Ok tt st').
Proof.
  intros HI Hy Hwk Hsh Hh Hh'. split; [done|]. split.
  - unfold handles. rewrite Hsh.
    destruct (size_insert2_le (weak st) x y h h' hy Hy).
    destruct Hwk as [-> | ->]; lia.
  - intros Hg Hn. apply (null_ok_from st); [| |done].
    + intros x' h0. rewrite Hsh. intros Hl. left. by exists x'.
    + intros x' h0 Hl.
      assert (h0 = h ∨ h0 = h' ∨ weak st !! x' = Some h0) as [->|[->|?]].
      { destruct Hwk as [Hwk|Hwk]; rewrite Hwk in Hl;
          rewrite !lookup_insert in Hl; repeat case_decide;
          try (injection Hl as <-); auto. }
      * right. by apply Hh.
      * right. by apply Hh'.
      * left. by exists x'.
Qed.

Lemma step_ok_delete o st st' :
  Inv st' →
  (∃ x, shared st' = delete x (shared st) ∧ weak st' = weak st) ∨
  (∃ x, weak st' = delete x (weak st) ∧ shared st' = shared st) →
  step_ok o st (Ok tt st').
Proof.
  intros HI Hst. split; [done|]. split.
  - unfold handles.
    destruct Hst as [(x & -> & ->)|(x & -> & ->)].
    + pose proof (size_delete_le (shared st) x). lia.
    + pose proof (size_delete_le (weak st) x). lia.
  - intros _. apply null_ok_from; intros x' h Hl; left; exists x';
      destruct Hst as [(x & Hs & Hw)|(x & Hw & Hs)]; rewrite ?Hs, ?Hw in Hl;
      try done; by apply lookup_delete_Some in Hl as [_ ?].
Qed.

Lemma step_ok_log o st e f :
  Inv (with_log f st) → step_ok o st (Throw e (with_log f st)).
Proof.
  intros HI. split; [done|]. split; [unfold handles; simpl; lia|].
  by intros _ [? ?].
Qed.

Lemma step_ok_unchanged o st e : Inv st → step_ok o st (Throw e st).
Proof. intros HI. split; [done|]. split; [lia|done]. Qed.

Lemma step_ok_ptr_deleter o st x p d answer :
  Inv st → step_ok o st (shared_ptr_ptr_deleter x p d answer st).
Proof.
  intros HI.
  destruct (shared st !! x) as [h|] eqn:Hx; [ill_formed|].
  destruct answer as [b|].
  - destruct (heap st !! b) as [c|] eqn:Hb; [ill_formed|].
    destruct (shared_ptr_ptr_deleter_spec st x p d b HI Hx Hb)
      as (st' & -> & HI' & Hsh & Hwk & _).
    by eapply step_ok_shared_insert; eauto.
  - rewrite shared_ptr_ptr_deleter_throws by done.
    by apply step_ok_log, deleter_call_inv.
Qed.

Lemma step_ok_reset_ptr_deleter o st x p d answer :
  Inv st → step_ok o st (shared_ptr_reset_ptr_deleter x p d answer st).
Proof.
  intros HI.
  destruct (shared st !! x) as [h|] eqn:Hx; [|ill_formed].
  destruct answer as [b|].
  - destruct (heap st !! b) as [c|] eqn:Hb.
    { pose proof (temp_shared_fresh st). ill_formed. }
    destruct (shared_ptr_reset_ptr_deleter_spec st x h p d b HI Hx Hb)
      as (st' & -> & HI' & Hsh & Hwk).
    by eapply step_ok_shared_insert; eauto.
  - rewrite (shared_ptr_reset_ptr_deleter_throws st x h) by done.
    by apply step_ok_log, deleter_call_inv.
Qed.

Lemma step_ok_make_shared o st x args answer :
  Inv st → step_ok o st (make_shared construct_at x args answer st).
Proof.
  intros HI.
  destruct (shared st !! x) as [h|] eqn:Hx; [ill_formed|].
  destruct answer as [b|].
  - destruct (heap st !! b) as [c|] eqn:Hb; [ill_formed|].
    destruct (construct_at args) as [v|] eqn:Hv.
    + destruct (make_shared_spec construct_at st x args v b HI Hx Hb Hv)
        as (st' & -> & HI' & Hsh & Hwk & _).
      by eapply step_ok_shared_insert; eauto.
    + destruct (make_shared_throws construct_at st x args (Some b) Hx)
        as [e ->]; [by right | by intros ? [= <-] |].
      by apply step_ok_unchanged.
  - destruct (make_shared_throws construct_at st x args None Hx)
      as [e ->]; [by left | done |].
    by apply step_ok_unchanged.
Qed.

Ltac from_store :=
  match goal with
  | |- null_ok _ → _ => intros [? ?] ?; eauto
  | |- _ → null_ok _ → _ => intros _ [? ?] ?; eauto
  end.

Lemma step_inv o st : Inv st → fits st → step_ok o st (step construct_at o st).
Proof.
  intros HI Hfit. destruct o as
    [x | x p answer | x p d answer | x y p | x y p | x y | x y | x y | x y
    | x | x p answer | x p d answer | x y | x | x args answer
    | x | x y | x y | x y | x y | x y | x y | x | x y | x | x w];
    cbn [step].
  - (* shared_ptr<T> x; *)
    destruct (shared st !! x) as [h|] eqn:Hx; [ill_formed|].
    destruct (shared_ptr_default_spec st x HI Hx) as (st' & -> & HI' & Hsh & Hwk & _).
    by eapply step_ok_shared_insert; eauto.
  - (* shared_ptr<T> x(p); *)
    by apply step_ok_ptr_deleter.
  - (* shared_ptr<T> x(p, d); *)
    by apply step_ok_ptr_deleter.
  - (* shared_ptr<T> x(y, p); *)
    destruct (shared st !! y) as [o|] eqn:Hy; [|ill_formed].
    destruct (shared st !! x) as [h|] eqn:Hx; [ill_formed|].
    destruct (shared_ptr_alias_copy_spec st x y o p HI Hfit Hx Hy)
      as (st' & -> & HI' & Hsh & Hwk & _).
    eapply step_ok_shared_insert; eauto;
      try (intros Hg _ Hc; by apply (Hg o)).
  - (* shared_ptr<T> x(std::move(y), p); *)
    destruct (shared st !! y) as [o|] eqn:Hy; [|ill_formed].
    destruct (shared st !! x) as [h|] eqn:Hx; [ill_formed|].
    destruct (shared_ptr_alias_move_spec st x y o p HI Hx Hy)
      as (st' & -> & HI' & Hsh & Hwk & _).
    eapply step_ok_shared_insert2; eauto;
      try (intros Hg _ Hc; by apply (Hg o)).
  - (* shared_ptr<T> x(y); *)
    destruct (shared st !! y) as [o|] eqn:Hy; [|ill_formed].
    destruct (shared st !! x) as [h|] eqn:Hx; [ill_formed|].
    destruct (shared_ptr_copy_spec st x y o HI Hfit Hx Hy)
      as (st' & -> & HI' & Hsh & Hwk & _).
    eapply step_ok_shared_insert; eauto; try from_store.
  - (* shared_ptr<T> x(std::move(y)); *)
    destruct (shared st !! y) as [o|] eqn:Hy; [|ill_formed].
    destruct (shared st !! x) as [h|] eqn:Hx; [ill_formed|].
    destruct (shared_ptr_move_spec st x y o HI Hx Hy)
      as (st' & -> & HI' & Hsh & Hwk & _).
    eapply step_ok_shared_insert2; eauto; try from_store.
  - (* x = y; *)
    destruct (shared st !! x) as [h|] eqn:Hx; [|ill_formed].
    destruct (shared st !! y) as [o|] eqn:Hy; [|ill_formed].
    destruct (shared_ptr_assign_copy_spec st x y h o HI Hfit Hx Hy)
      as (st' & -> & HI' & Hsh & Hwk).
    eapply step_ok_shared_insert; eauto; try from_store.
  - (* x = std::move(y); *)
    destruct (shared st !! x) as [h|] eqn:Hx; [|ill_formed].
    destruct (shared st !! y) as [o|] eqn:Hy; [|ill_formed].
    destruct (shared_ptr_assign_move_spec st x y h o HI Hx Hy)
      as (st' & -> & HI' & Hsh & Hwk).
    eapply step_ok_shared_insert2; eauto; try from_store.
  - (* x.reset(); *)
    destruct (shared st !! x) as [h|] eqn:Hx; [|ill_formed].
    destruct (shared_ptr_reset_spec st x h HI Hx) as (st' & -> & HI' & Hsh & Hwk).
    by eapply step_ok_shared_insert; eauto.
  - (* x.reset(p); *)
    by apply step_ok_reset_ptr_deleter.
  - (* x.reset(p, d); *)
    by apply step_ok_reset_ptr_deleter.
  - (* x.swap(y); *)
    destruct (shared st !! x) as [h|] eqn:Hx; [|ill_formed].
    destruct (shared st !! y) as [o|] eqn:Hy; [|ill_formed].
    destruct (shared_ptr_swap_spec st x y h o HI Hx Hy)
      as (st' & -> & HI' & Hsh & Hwk & _).
    eapply step_ok_shared_insert2; eauto; from_store.
  - (* x goes out of scope *)
    destruct (shared st !! x) as [h|] eqn:Hx; [|ill_formed].
    destruct (shared_ptr_dtor_spec st x h HI Hx) as (st' & -> & HI' & Hsh & Hwk).
    apply step_ok_delete; eauto.
  - (* auto x = make_shared<T>(args); *)
    by apply step_ok_make_shared.
  - (* weak_ptr<T> x; *)
    destruct (weak st !! x) as [h|] eqn:Hx; [ill_formed|].
    destruct (weak_ptr_default_spec st x HI Hx) as (st' & -> & HI' & Hwk & Hsh & _).
    by eapply step_ok_weak_insert; eauto.
  - (* weak_ptr<T> x(y), y shared *)
    destruct (shared st !! y) as [o|] eqn:Hy; [|ill_formed].
    destruct (weak st !! x) as [h|] eqn:Hx; [ill_formed|].
    destruct (weak_ptr_from_shared_spec st x y o HI Hfit Hx Hy)
      as (st' & -> & HI' & Hwk & Hsh & _).
    eapply step_ok_weak_insert; eauto; try from_store.
  - (* weak_ptr<T> x(y); *)
    destruct (weak st !! y) as [o|] eqn:Hy; [|ill_formed].
    destruct (weak st !! x) as [h|] eqn:Hx; [ill_formed|].
    destruct (weak_ptr_copy_spec st x y o HI Hfit Hx Hy)
      as (st' & -> & HI' & Hwk & Hsh & _).
    eapply step_ok_weak_insert; eauto; try from_store.
  - (* weak_ptr<T> x(std::move(y)); *)
    destruct (weak st !! y) as [o|] eqn:Hy; [|ill_formed].
    destruct (weak st !! x) as [h|] eqn:Hx; [ill_formed|].
    destruct (weak_ptr_move_spec st x y o HI Hx Hy)
      as (st' & -> & HI' & Hwk & Hsh & _).
    eapply step_ok_weak_insert2; eauto; try from_store.
  - (* x = y, y shared *)
    destruct (weak st !! x) as [h|] eqn:Hx; [|ill_formed].
    destruct (shared st !! y) as [o|] eqn:Hy; [|ill_formed].
    destruct (weak_ptr_assign_shared_spec st x y h o HI Hfit Hx Hy)
      as (st' & -> & HI' & Hwk & Hsh).
    eapply step_ok_weak_insert; eauto; try from_store.
  - (* x = y; *)
    destruct (weak st !! x) as [h|] eqn:Hx; [|ill_formed].
    destruct (weak st !! y) as [o|] eqn:Hy; [|ill_formed].
    destruct (weak_ptr_assign_copy_spec st x y h o HI Hfit Hx Hy)
      as (st' & -> & HI' & Hwk & Hsh).
    eapply step_ok_weak_insert; eauto; try from_store.
  - (* x = std::move(y); *)
    destruct (weak st !! x) as [h|] eqn:Hx; [|ill_formed].
    destruct (weak st !! y) as [o|] eqn:Hy; [|ill_formed].
    destruct (weak_ptr_assign_move_spec st x y h o HI Hx Hy)
      as (st' & -> & HI' & Hwk & Hsh).
    eapply step_ok_weak_insert2; eauto; try from_store.
  - (* x.reset(); *)
    destruct (weak st !! x) as [h|] eqn:Hx; [|ill_formed].
    destruct (weak_ptr_reset_spec st x h HI Hx) as (st' & -> & HI' & Hwk & Hsh).
    by eapply step_ok_weak_insert; eauto.
  - (* x.swap(y); *)
    destruct (weak st !! x) as [h|] eqn:Hx; [|ill_formed].
    destruct (weak st !! y) as [o|] eqn:Hy; [|ill_formed].
    destruct (weak_ptr_swap_spec st x y h o HI Hx Hy)
      as (st' & -> & HI' & Hwk & Hsh & _).
    eapply step_ok_weak_insert2; eauto; from_store.
  - (* x goes out of scope *)
    destruct (weak st !! x) as [h|] eqn:Hx; [|ill_formed].
    destruct (weak_ptr_dtor_spec st x h HI Hx) as (st' & -> & HI' & Hwk & Hsh).
    apply step_ok_delete; eauto.
  - (* auto x = w.lock(); *)
    destruct (weak st !! w) as [o|] eqn:Hw; [|ill_formed].
    destruct (shared st !! x) as [h|] eqn:Hx.
    { unfold weak_ptr_lock.
      rewrite (bind_Ok _ _ _ _ _ (read_weak_Ok st w o Hw)).
      destruct (w_cb_ o) as [b|] eqn:Hcb.
      - destruct (weak_holder_allocated st w o b HI Hw Hcb) as (c & Hc & _).
        unfold bind, get_strong_refs, bind, load_block, ret. rewrite Hc.
        destruct (bool_decide (strong_refs_ c = 0));
          unfold shared_ptr_default, shared_ptr_ptr_cb, bind, begin_shared;
          by rewrite Hx.
      - unfold bind, ret, shared_ptr_default, begin_shared. by rewrite Hx. }
    destruct (weak_ptr_lock_spec st x w o HI Hfit Hx Hw)
      as (st' & -> & HI' & Hsh & Hwk & _).
    eapply step_ok_shared_insert; eauto.
    clear. intros _ _. unfold lock_result. destruct (w_cb_ o) as [b|]; [|done].
    destruct (heap st !! b) as [c|]; [|done]. by case_decide.
Qed.

End Steps.

(** ** Reachable states *)

Section Reachable.
Context {T Args : Type} (construct_at : Args → option T).
Implicit Types (st : @state T) (b x : N) (o : @op Args) (prog : list (@op Args)).

Lemma Inv_init : Inv (init (T:=T)).
Proof.
  intros b. unfold_inv. rewrite lookup_empty, !holders_empty. done.
Qed.

Lemma null_ok_init : null_ok (init (T:=T)).
Proof. split; intros x h; simpl; by rewrite lookup_empty. Qed.

Lemma run_inv prog : ∀ st,
  Inv st →
  Z.of_nat (handles st) + Z.of_nat (length prog) + 2 ≤ size_max →
  match run construct_at prog st with
  | Ok _ st' =>
      Inv st' ∧ (handles st' ≤ handles st + length prog)%nat ∧
      (alias_guarded construct_at prog st → null_ok st → null_ok st')
  | Throw _ _ | Undefined => False
  | IllFormed => True
  end.
Proof.
  induction prog as [|o prog IH]; intros st HI Hlen; simpl in *.
  { split; [done|]. split; [lia|done]. }
  assert (Hfit : fits st) by (unfold fits; lia).
  pose proof (step_inv construct_at o st HI Hfit) as Hstep.
  unfold step_ok in Hstep.
  destruct (step construct_at o st) as [[] st1|e st1| |]; try done.
  all: destruct Hstep as (HI1 & Hh1 & Hn1).
  all: specialize (IH st1 HI1 ltac:(lia)).
  all: destruct (run construct_at prog st1) as [[] st2|? ?| |]; try done.
  all: destruct IH as (HI2 & Hh2 & Hn2).
  all: split; [done|]; split; [lia|]; intros [Hg Hgs] Hn; auto.
Qed.

(** States reached from the empty state by programs of realistic length
    satisfy the invariant and leave room in every counter. *)
Lemma reachable_inv prog st :
  run construct_at prog init = Ok tt st →
  Z.of_nat (length prog) + 2 < size_max →
  Inv st ∧ fits st.
Proof.
  intros Hrun Hlen.
  pose proof (run_inv prog init Inv_init) as H.
  assert (Hh0 : handles (init (T:=T)) = 0%nat).
  { unfold handles. simpl. by rewrite !map_size_empty. }
  rewrite Hh0 in H. specialize (H ltac:(lia)). rewrite Hrun in H.
  destruct H as (HI & Hh & _). split; [done|]. unfold fits. lia.
Qed.

Lemma reachable_null_ok prog st :
  run construct_at prog init = Ok tt st →
  Z.of_nat (length prog) + 2 < size_max →
  alias_guarded construct_at prog init → null_ok st.
Proof.
  intros Hrun Hlen Hg.
  pose proof (run_inv prog init Inv_init) as H.
  assert (Hh0 : handles (init (T:=T)) = 0%nat).
  { unfold handles. simpl. by rewrite !map_size_empty. }
  rewrite Hh0 in H. specialize (H ltac:(lia)). rewrite Hrun in H.
  destruct H as (_ & _ & Hn). apply Hn; [done|apply null_ok_init].
Qed.

(** Programs whose statements only use objects within their lifetime never
    use a deleted control block. *)
Lemma run_defined prog :
  Z.of_nat (length prog) + 2 < size_max →
  run construct_at prog init ≠ Undefined.
Proof.
  intros Hlen Hrun.
  pose proof (run_inv prog init Inv_init) as H.
  assert (Hh0 : handles (init (T:=T)) = 0%nat).
  { unfold handles. simpl. by rewrite !map_size_empty. }
  rewrite Hh0 in H. specialize (H ltac:(lia)). by rewrite Hrun in H.
Qed.

Lemma strong_of_holders st b :
  Inv st → strong_of st b = Z.of_nat (strong_holders st b).
Proof.
  intros HI. specialize (HI b). unfold strong_of. unfold_inv.
  destruct (heap st !! b); lia.
Qed.

Lemma weak_of_holders st b :
  Inv st →
  weak_of st b = Z.of_nat (weak_holders st b)
                 + (if decide (strong_of st b = 0) then 0 else 1).
Proof.
  intros HI. specialize (HI b). unfold weak_of, strong_of. unfold_inv.
  destruct (heap st !! b); [lia|]. rewrite decide_True by done. lia.
Qed.

Lemma block_phase_lifecycle st b :
  Inv st → lifecycle b (log st) = Some (block_phase st b).
Proof.
  intros HI. specialize (HI b). unfold block_phase. unfold_inv.
  destruct (heap st !! b); tauto.
Qed.

End Reachable.

(** ** Events in the log *)

Lemma occurrences_cons ev e l :
  occurrences ev (e :: l) =
    ((if decide (e = ev) then 1 else 0) + occurrences ev l)%nat.
Proof.
  unfold occurrences. rewrite filter_cons. by case_decide.
Qed.

(** A log in legal order holds, for every address, one [EvDeleteData] per
    [EvNew] (but for a block whose object is alive) and one [EvFree] per
    [EvDeleteData] (but for a block that is still allocated). *)
Lemma lifecycle_counts b l : ∀ ph,
  lifecycle b l = Some ph →
  occurrences (EvNew b) l =
    (occurrences (EvDeleteData b) l + if decide (ph = Alive) then 1 else 0)%nat ∧
  occurrences (EvDeleteData b) l =
    (occurrences (EvFree b) l + if decide (ph = Expired) then 1 else 0)%nat.
Proof.
  induction l as [|ev l IH]; intros ph Hl; simpl in Hl.
  { injection Hl as <-. done. }
  destruct (lifecycle b l) as [ph'|]; [|done].
  destruct (IH ph' eq_refl) as [IH1 IH2].
  rewrite !occurrences_cons.
  destruct ev as [b'|b'|d p|b'|b']; simpl in Hl;
    try (destruct (decide (b' = b)) as [->|Hne]);
    try (destruct ph'; try done);
    injection Hl as <-;
    repeat case_decide; try congruence; try lia.
Qed.

(** ** What one release does *)

Ltac proj_simpl :=
  cbn [heap log shared weak with_heap with_log with_shared with_weak
       set_strong set_weak set_body body strong_refs_ weak_refs_].

Section Releases.
Context {T : Type}.
Implicit Types (st : @state T) (b x : N) (c : @control_block T).

Lemma phase_by_holders_correct st b :
  Inv st → block_phase st b = phase_by_holders st b.
Proof.
  intros HI. specialize (HI b). unfold block_phase, phase_by_holders.
  unfold block_at in HI.
  destruct (heap st !! b) as [c|]; repeat case_decide; try done; lia.
Qed.

Lemma release_weak_ref_events st b c :
  heap st !! b = Some c → 0 < weak_refs_ c < size_max →
  ∃ st', release_weak_ref b st = Ok tt st' ∧
         log st' = (if decide (weak_refs_ c = 1) then [EvFree b] else [])
                   ++ log st ∧
         shared st' = shared st ∧ weak st' = weak st ∧
         (heap st' !! b = None ↔ weak_refs_ c = 1) ∧
         strong_of st' b =
           (if decide (weak_refs_ c = 1) then 0 else strong_refs_ c) ∧
         weak_of st' b = weak_refs_ c - 1 ∧
         (∀ b', b' ≠ b → heap st' !! b' = heap st !! b').
Proof.
  intros Hc Hr. unfold release_weak_ref, bind, load_block, store_block.
  rewrite Hc. rewrite wrap_small by lia. unfold strong_of, weak_of.
  destruct (decide (weak_refs_ c - 1 = 0)).
  - eexists. split; [reflexivity|]. proj_simpl.
    rewrite !decide_True by lia. do 3 (split; [done|]).
    rewrite !lookup_delete_eq. split; [split; [lia|done]|].
    split; [done|]. split; [lia|].
    intros b' Hne. by rewrite lookup_delete_ne, lookup_insert_ne.
  - eexists. split; [reflexivity|]. proj_simpl.
    rewrite !decide_False by lia. do 3 (split; [done|]).
    rewrite !lookup_insert_eq. split; [split; [done|lia]|].
    do 2 (split; [done|]).
    intros b' Hne. by rewrite lookup_insert_ne.
Qed.

Lemma release_strong_ref_events st b c :
  heap st !! b = Some c → 0 < strong_refs_ c < size_max →
  0 < weak_refs_ c < size_max →
  ∃ st', release_strong_ref b st = Ok tt st' ∧
         log st' = release_events b c ++ log st ∧
         shared st' = shared st ∧ weak st' = weak st ∧
         (heap st' !! b = None ↔ strong_refs_ c = 1 ∧ weak_refs_ c = 1) ∧
         strong_of st' b = strong_refs_ c - 1 ∧
         weak_of st' b =
           weak_refs_ c - (if decide (strong_refs_ c = 1) then 1 else 0) ∧
         (∀ b', b' ≠ b → heap st' !! b' = heap st !! b').
Proof.
  intros Hc Hr Hrw. unfold release_strong_ref, release_events.
  unfold bind at 1. unfold load_block at 1. rewrite Hc.
  unfold bind at 1. unfold store_block at 1.
  rewrite wrap_small by lia.
  destruct (decide (strong_refs_ c - 1 = 0)) as [H1|H1].
  - rewrite !decide_True by lia. unfold bind at 1.
    assert (∃ st1 c1, delete_data b
              (with_heap <[b := set_strong (strong_refs_ c - 1) c]> st)
              = Ok tt st1 ∧ heap st1 !! b = Some c1 ∧
              weak_refs_ c1 = weak_refs_ c ∧
              strong_refs_ c1 = strong_refs_ c - 1 ∧
              log st1 = [hook_event b c; EvDeleteData b] ++ log st ∧
              shared st1 = shared st ∧ weak st1 = weak st ∧
              (∀ b', b' ≠ b → heap st1 !! b' = heap st !! b'))
      as (st1 & c1 & Hrun1 & Hc1 & Hw1 & Hs1' & Hl1 & Hs1 & Hk1 & Hf1).
    { unfold delete_data, bind, load_block, emit, store_block, hook_event.
      proj_simpl. rewrite lookup_insert_eq. proj_simpl.
      destruct (body c); eexists _, _;
        (split; [reflexivity|]); proj_simpl; rewrite ?lookup_insert_eq;
        (split; [reflexivity|]); do 5 (split; [done|]);
        intros b' Hne; by rewrite ?lookup_insert_ne. }
    rewrite Hrun1.
    destruct (release_weak_ref_events st1 b c1 Hc1 ltac:(lia))
      as (st2 & Hrun2 & Hl2 & Hs2 & Hk2 & Hh2 & Hso2 & Hwo2 & Hf2).
    exists st2. split; [done|]. rewrite Hw1 in Hl2, Hh2, Hso2, Hwo2.
    split; [by rewrite Hl2, Hl1, app_assoc|].
    split; [congruence|]. split; [congruence|].
    split; [rewrite Hh2; split; [lia|tauto]|].
    split; [rewrite Hso2; case_decide; lia|].
    split; [rewrite decide_True by lia; lia|].
    intros b' Hne. by rewrite Hf2, Hf1.
  - rewrite !decide_False by lia. eexists. split; [reflexivity|]. proj_simpl.
    do 3 (split; [done|]). unfold strong_of, weak_of. proj_simpl.
    rewrite !lookup_insert_eq. proj_simpl.
    split; [split; [done|lia]|]. split; [done|]. split; [lia|].
    intros b' Hne. by rewrite lookup_insert_ne.
Qed.

End Releases.

(** ** Properties of the handles *)

Section Claims.
Context {T Args : Type} (construct_at : Args → option T).
Implicit Types (st : @state T) (b x : N) (o : @op Args) (prog : list (@op Args)).

(** C1. After any program, [use_count()] of a live shared handle on block [b]
    returns exactly the number of live shared handles on [b]. *)
Theorem use_count_counts_strong_holders prog st x (h : shared_ptr) b :
  run construct_at prog init = Ok tt st →
  Z.of_nat (length prog) + 2 < size_max →
  shared st !! x = Some h → cb_ h = Some b →
  use_count h st = Ok (Z.of_nat (strong_holders st b)) st.
Proof.
  intros Hrun Hlen Hx Hb.
  destruct (reachable_inv construct_at prog st Hrun Hlen) as [HI _].
  destruct (shared_holder_alive st x h b HI Hx Hb) as (c & Hc & _).
  pose proof (strong_of_holders st b HI) as Hs. unfold strong_of in Hs.
  rewrite Hc in Hs.
  unfold use_count, get_strong_refs, bind, load_block, ret.
  by rewrite Hb, Hc, Hs.
Qed.

Lemma release_weak_ref_log st b (c : @control_block T) :
  heap st !! b = Some c → 0 ≤ weak_refs_ c < size_max →
  ∃ st', release_weak_ref b st = Ok tt st' ∧
         occurrences (EvFree b) (log st') =
           (occurrences (EvFree b) (log st)
            + if decide (weak_refs_ c = 1%Z) then 1 else 0)%nat ∧
         occurrences (EvDeleteData b) (log st') =
           occurrences (EvDeleteData b) (log st).
Proof.
  intros Hc Hr. unfold release_weak_ref, bind, load_block, store_block.
  rewrite Hc. unfold wrap, size_max in *.
  destruct (decide (weak_refs_ c = 0)) as [Hz|Hz].
  - rewrite Hz. simpl. eexists. split; [reflexivity|]. simpl. split; [lia|done].
  - rewrite Z.mod_small by lia.
    destruct (decide (weak_refs_ c - 1 = 0)).
    + eexists. split; [reflexivity|]. simpl. rewrite !occurrences_cons.
      split; repeat case_decide; try congruence; lia.
    + eexists. split; [reflexivity|]. simpl.
      split; repeat case_decide; lia.
Qed.

Lemma release_strong_ref_log st b (c : @control_block T) :
  heap st !! b = Some c → 0 ≤ strong_refs_ c < size_max →
  0 ≤ weak_refs_ c < size_max →
  ∃ st', release_strong_ref b st = Ok tt st' ∧
         occurrences (EvDeleteData b) (log st') =
           (occurrences (EvDeleteData b) (log st)
            + if decide (strong_refs_ c = 1%Z) then 1 else 0)%nat.
Proof.
  intros Hc Hr Hrw. unfold release_strong_ref.
  unfold bind at 1. unfold load_block at 1. rewrite Hc.
  unfold bind at 1. unfold store_block at 1.
  destruct (decide (strong_refs_ c = 0)) as [Hz|Hz].
  { rewrite Hz. unfold wrap, size_max. simpl. eexists. split; [reflexivity|].
    simpl. lia. }
  rewrite wrap_small by lia.
  destruct (decide (strong_refs_ c - 1 = 0)) as [H1|H1].
  - rewrite decide_True by lia.
    unfold bind at 1.
    assert (∃ st1 c1, delete_data b
              (with_heap <[b := set_strong (strong_refs_ c - 1) c]> st)
              = Ok tt st1 ∧ heap st1 !! b = Some c1 ∧
              weak_refs_ c1 = weak_refs_ c ∧
              occurrences (EvDeleteData b) (log st1) =
                S (occurrences (EvDeleteData b) (log st)))
      as (st1 & c1 & Hrun1 & Hc1 & Hw1 & Hl1).
    { unfold delete_data, bind, load_block, emit, store_block. simpl.
      rewrite lookup_insert_eq. simpl.
      destruct (body c); simpl; eexists _, _;
        (split; [reflexivity|]); simpl; rewrite lookup_insert_eq;
        (split; [reflexivity|]); (split; [reflexivity|]);
        rewrite !occurrences_cons; repeat case_decide; try congruence; lia. }
    rewrite Hrun1.
    destruct (release_weak_ref_log st1 b c1 Hc1 ltac:(lia))
      as (st2 & Hrun2 & _ & Hl2).
    exists st2. split; [done|]. rewrite Hl2, Hl1. lia.
  - rewrite decide_False by lia. eexists. split; [reflexivity|]. simpl. lia.
Qed.

(** C2. In every reachable state the events on each block address are in the
    legal order creation, destruction of the managed object, deallocation:
    the destroy hook has run once per creation except for blocks whose object
    is alive (strong count not 0), the storage was freed once per run of the
    hook except for blocks still allocated, and a deallocation never precedes
    the destruction.  The hook runs in [release_strong_ref] exactly when the
    strong count goes from 1 to 0, and that step also gives back the weak
    reference the strong holders own together: the weak count drops by 1 and
    the block is freed right after the hook when this was the last weak
    reference.  The block is freed in [release_weak_ref] exactly when the
    weak count goes from 1 to 0.  No block outlives its handles: the object
    is destroyed as soon as no shared handle is left, and the block is freed
    as soon as no handle at all is left. *)
Theorem destroyed_once_then_freed_once prog st b :
  run construct_at prog init = Ok tt st →
  Z.of_nat (length prog) + 2 < size_max →
  lifecycle b (log st) = Some (block_phase st b) ∧
  occurrences (EvNew b) (log st) =
    (occurrences (EvDeleteData b) (log st)
     + if decide (block_phase st b = Alive) then 1 else 0)%nat ∧
  occurrences (EvDeleteData b) (log st) =
    (occurrences (EvFree b) (log st)
     + if decide (block_phase st b = Expired) then 1 else 0)%nat ∧
  (∀ c, heap st !! b = Some c →
     ∃ st', release_strong_ref b st = Ok tt st' ∧
            occurrences (EvDeleteData b) (log st') =
              (occurrences (EvDeleteData b) (log st)
               + if decide (strong_refs_ c = 1%Z) then 1 else 0)%nat) ∧
  (∀ c, heap st !! b = Some c →
     ∃ st', release_weak_ref b st = Ok tt st' ∧
            occurrences (EvFree b) (log st') =
              (occurrences (EvFree b) (log st)
               + if decide (weak_refs_ c = 1%Z) then 1 else 0)%nat) ∧
  (∀ c, heap st !! b = Some c → 0 < strong_refs_ c →
     ∃ st', release_strong_ref b st = Ok tt st' ∧
            log st' = release_events b c ++ log st ∧
            strong_of st' b = strong_refs_ c - 1 ∧
            weak_of st' b =
              weak_refs_ c - (if decide (strong_refs_ c = 1) then 1 else 0) ∧
            (heap st' !! b = None ↔ strong_refs_ c = 1 ∧ weak_refs_ c = 1) ∧
            ∀ b', b' ≠ b → heap st' !! b' = heap st !! b') ∧
  (∀ c, heap st !! b = Some c →
     ∃ st', release_weak_ref b st = Ok tt st' ∧
            log st' = (if decide (weak_refs_ c = 1) then [EvFree b] else [])
                      ++ log st ∧
            weak_of st' b = weak_refs_ c - 1 ∧
            (heap st' !! b = None ↔ weak_refs_ c = 1) ∧
            ∀ b', b' ≠ b → heap st' !! b' = heap st !! b') ∧
  block_phase st b = phase_by_holders st b ∧
  (strong_holders st b = 0%nat → weak_holders st b = 0%nat →
     heap st !! b = None ∧
     occurrences (EvDeleteData b) (log st) = occurrences (EvNew b) (log st) ∧
     occurrences (EvFree b) (log st) = occurrences (EvNew b) (log st)).
Proof.
  intros Hrun Hlen.
  destruct (reachable_inv construct_at prog st Hrun Hlen) as [HI _].
  pose proof (block_phase_lifecycle st b HI) as Hl.
  destruct (lifecycle_counts b (log st) _ Hl) as [Hn Hd].
  split; [done|]. split; [done|]. split; [done|].
  pose proof (phase_by_holders_correct st b HI) as Hph.
  assert (Hgone : strong_holders st b = 0%nat → weak_holders st b = 0%nat →
            heap st !! b = None ∧
            occurrences (EvDeleteData b) (log st) =
              occurrences (EvNew b) (log st) ∧
            occurrences (EvFree b) (log st) = occurrences (EvNew b) (log st)).
  { intros Hs0 Hw0. unfold phase_by_holders in Hph.
    rewrite Hs0, Hw0 in Hph. simpl in Hph. rewrite Hph in Hn, Hd.
    unfold block_phase in Hph. simpl in Hn, Hd.
    split; [|lia]. destruct (heap st !! b); [by case_decide|done]. }
  pose proof (HI b) as Hb. unfold block_at in Hb.
  split_all.
  - intros c Hc. rewrite Hc in Hb. destruct Hb as (Hs & Hw & Hw0 & Hs0 & _).
    apply release_strong_ref_log; [done|lia|lia].
  - intros c Hc. rewrite Hc in Hb. destruct Hb as (Hs & Hw & Hw0 & Hs0 & _).
    destruct (release_weak_ref_log st b c Hc ltac:(lia)) as (st' & ? & ? & _).
    by exists st'.
  - intros c Hc Hpos. rewrite Hc in Hb.
    destruct Hb as (Hs & Hw & Hw0 & Hs0 & _).
    destruct (release_strong_ref_events st b c Hc ltac:(lia) ltac:(lia))
      as (st' & H1 & H2 & _ & _ & H3 & H4 & H5 & H6).
    by exists st'.
  - intros c Hc. rewrite Hc in Hb. destruct Hb as (Hs & Hw & Hw0 & Hs0 & _).
    destruct (release_weak_ref_events st b c Hc ltac:(lia))
      as (st' & H1 & H2 & _ & _ & H3 & _ & H4 & H5).
    by exists st'.
  - done.
  - done.
Qed.

End Claims.

Section Claims2.
Context {T Args : Type} (construct_at : Args → option T).
Implicit Types (st : @state T) (b x : N) (o : @op Args) (prog : list (@op Args)).

(** C3 (amended). In every reachable state each handle with a non-null block
    accounts for exactly one reference of its kind: the strong counter of a
    block is the number of shared handles on it, the weak counter the number
    of weak handles on it plus the one reference owned by the strong holders
    together; the block of a handle is allocated; the destructor of the
    handle, [reset()] and the assignment of a handle on another block each
    take exactly one reference back.  Handles without a block store a null
    pointer as long as no aliasing constructor was given a non-null address
    together with a source handle without a block. *)
Theorem handle_accounts_for_one_reference prog st :
  run construct_at prog init = Ok tt st →
  Z.of_nat (length prog) + 2 < size_max →
  (∀ b c, heap st !! b = Some c →
     strong_refs_ c = Z.of_nat (strong_holders st b) ∧
     weak_refs_ c = Z.of_nat (weak_holders st b)
                    + (if decide (strong_refs_ c = 0) then 0 else 1)) ∧
  (∀ x (h : shared_ptr) b, shared st !! x = Some h → cb_ h = Some b →
     is_Some (heap st !! b) ∧
     (∃ st', shared_ptr_dtor x st = Ok tt st' ∧
             strong_of st' b = strong_of st b - 1) ∧
     (∃ st', shared_ptr_reset x st = Ok tt st' ∧
             strong_of st' b = strong_of st b - 1) ∧
     (∀ y (hy : shared_ptr), shared st !! y = Some hy → cb_ hy ≠ Some b →
        ∃ st', shared_ptr_assign_copy x y st = Ok tt st' ∧
               strong_of st' b = strong_of st b - 1)) ∧
  (∀ x (h : weak_ptr) b, weak st !! x = Some h → w_cb_ h = Some b →
     is_Some (heap st !! b) ∧
     (∃ st', weak_ptr_dtor x st = Ok tt st' ∧
             weak_of st' b = weak_of st b - 1) ∧
     (∃ st', weak_ptr_reset x st = Ok tt st' ∧
             weak_of st' b = weak_of st b - 1) ∧
     (∀ y (hy : weak_ptr), weak st !! y = Some hy → w_cb_ hy ≠ Some b →
        ∃ st', weak_ptr_assign_copy x y st = Ok tt st' ∧
               weak_of st' b = weak_of st b - 1)) ∧
  (alias_guarded construct_at prog init →
     (∀ x (h : shared_ptr), shared st !! x = Some h → cb_ h = None → get h = None) ∧
     (∀ x (h : weak_ptr), weak st !! x = Some h → w_cb_ h = None → w_ptr_ h = None)).
Proof.
  intros Hrun Hlen.
  destruct (reachable_inv construct_at prog st Hrun Hlen) as [HI Hfit].
  split_all.
  - intros b c Hc. pose proof (HI b) as Hb. unfold_inv. rewrite Hc in Hb.
    destruct Hb as (Hs & Hw & _). split; lia.
  - intros x h b Hx Hb.
    destruct (shared_holder_alive st x h b HI Hx Hb) as (c & Hc & _).
    split; [by exists c|]. split_all.
    + destruct (shared_ptr_dtor_spec st x h HI Hx)
        as (st' & Hrun' & HI' & Hsh & Hwk).
      exists st'. split; [done|].
      rewrite !strong_of_holders by done. unfold strong_holders. rewrite Hsh.
      rewrite (holders_delete cb_ b (shared st) x h Hx), holds_same by done.
      lia.
    + destruct (shared_ptr_reset_spec st x h HI Hx)
        as (st' & Hrun' & HI' & Hsh & Hwk).
      exists st'. split; [done|].
      rewrite !strong_of_holders by done. unfold strong_holders. rewrite Hsh.
      pose proof (holders_update cb_ b (shared st) x h null_shared Hx) as Hu.
      rewrite holds_same, holds_other in Hu by done. lia.
    + intros y hy Hy Hother.
      destruct (shared_ptr_assign_copy_spec st x y h hy HI Hfit Hx Hy)
        as (st' & Hrun' & HI' & Hsh & Hwk).
      exists st'. split; [done|].
      rewrite !strong_of_holders by done. unfold strong_holders. rewrite Hsh.
      pose proof (holders_update cb_ b (shared st) x h hy Hx) as Hu.
      rewrite holds_same, holds_other in Hu by done. lia.
  - intros x h b Hx Hb.
    destruct (weak_holder_allocated st x h b HI Hx Hb) as (c & Hc & _).
    split; [by exists c|]. split_all.
    + destruct (weak_ptr_dtor_spec st x h HI Hx)
        as (st' & Hrun' & HI' & Hwk & Hsh).
      exists st'. split; [done|].
      rewrite !weak_of_holders, !strong_of_holders by done.
      unfold weak_holders, strong_holders. rewrite Hsh, Hwk.
      rewrite (holders_delete w_cb_ b (weak st) x h Hx), holds_same by done.
      lia.
    + destruct (weak_ptr_reset_spec st x h HI Hx)
        as (st' & Hrun' & HI' & Hwk & Hsh).
      exists st'. split; [done|].
      rewrite !weak_of_holders, !strong_of_holders by done.
      unfold weak_holders, strong_holders. rewrite Hsh, Hwk.
      pose proof (holders_update w_cb_ b (weak st) x h null_weak Hx) as Hu.
      rewrite holds_same, holds_other in Hu by done. lia.
    + intros y hy Hy Hother.
      destruct (weak_ptr_assign_copy_spec st x y h hy HI Hfit Hx Hy)
        as (st' & Hrun' & HI' & Hwk & Hsh).
      exists st'. split; [done|].
      rewrite !weak_of_holders, !strong_of_holders by done.
      unfold weak_holders, strong_holders. rewrite Hsh, Hwk.
      pose proof (holders_update w_cb_ b (weak st) x h hy Hx) as Hu.
      rewrite holds_same, holds_other in Hu by done. lia.
  - intros Hg. by apply (reachable_null_ok construct_at prog st).
Qed.

(** C4. [w.lock()] answers a null handle when [w] has no block or the strong
    count of its block is 0; otherwise it answers a handle with the block and
    the pointer of [w], and the strong count of the block has grown by
    exactly 1 (nothing else in the heap changes). *)
Theorem lock_null_or_one_more_strong prog st w (hw : weak_ptr) x :
  run construct_at prog init = Ok tt st →
  Z.of_nat (length prog) + 2 < size_max →
  weak st !! w = Some hw → shared st !! x = None →
  ∃ st' h, weak_ptr_lock x w st = Ok tt st' ∧ shared st' !! x = Some h ∧
    match w_cb_ hw with
    | None => h = null_shared ∧ heap st' = heap st
    | Some b =>
        is_Some (heap st !! b) ∧
        if decide (strong_of st b = 0)
        then h = null_shared ∧ heap st' = heap st
        else h = {| ptr_ := w_ptr_ hw; cb_ := Some b |} ∧
             strong_of st' b = strong_of st b + 1 ∧
             weak_of st' b = weak_of st b ∧
             ∀ b', b' ≠ b → heap st' !! b' = heap st !! b'
    end.
Proof.
  intros Hrun Hlen Hw Hx.
  destruct (reachable_inv construct_at prog st Hrun Hlen) as [HI Hfit].
  unfold weak_ptr_lock.
  rewrite (bind_Ok _ _ _ _ _ (read_weak_Ok st w hw Hw)).
  destruct (w_cb_ hw) as [b|] eqn:Hcb.
  - destruct (weak_holder_allocated st w hw b HI Hw Hcb) as (c & Hc & Hs0 & _).
    assert (Hget : bind (get_strong_refs b)
                     (λ s, ret (bool_decide (s = 0))) st
                   = Ok (bool_decide (strong_refs_ c = 0)) st).
    { unfold get_strong_refs, bind, load_block. by rewrite Hc. }
    rewrite (bind_Ok _ _ _ _ _ Hget).
    assert (Hso : strong_of st b = strong_refs_ c).
    { unfold strong_of. by rewrite Hc. }
    destruct (decide (strong_of st b = 0)) as [Hz|Hz]; rewrite Hso in Hz.
    + rewrite bool_decide_eq_true_2 by done.
      destruct (shared_ptr_default_spec st x HI Hx)
        as (st' & Hrun' & HI' & Hsh & Hwk & Hh & Hl).
      exists st', null_shared. split; [done|].
      split; [by rewrite Hsh, lookup_insert_eq|]. split; [by exists c|done].
    + rewrite bool_decide_eq_false_2 by done.
      destruct (shared_ptr_ptr_cb_spec st x (w_ptr_ hw) (Some b) HI Hfit Hx)
        as (st' & Hrun' & HI' & Hsh & Hwk & Hl & Hh).
      { intros b' [= <-]. exists c. split; [done|lia]. }
      exists st', {| ptr_ := w_ptr_ hw; cb_ := Some b |}. split; [done|].
      split; [by rewrite Hsh, lookup_insert_eq|]. split; [by exists c|].
      split; [done|]. rewrite Hso. unfold strong_of, weak_of. rewrite Hh, Hc.
      rewrite lookup_alter_eq, Hc. simpl. split; [done|]. split; [done|].
      intros b' Hne. by rewrite lookup_alter_ne.
  - assert (Hret : ret (T:=T) true st = Ok true st) by done.
    rewrite (bind_Ok _ _ _ _ _ Hret).
    destruct (shared_ptr_default_spec st x HI Hx)
      as (st' & Hrun' & HI' & Hsh & Hwk & Hh & Hl).
    exists st', null_shared. split; [done|].
    split; [by rewrite Hsh, lookup_insert_eq|done].
Qed.

(** C5. When the allocation of the control block fails, the constructor from
    a raw pointer and a deleter calls the deleter on the pointer once (one
    new event) and lets [bad_alloc] out; no handle object and no control
    block has been created.  The constructor from a raw pointer alone does
    the same with [std::default_delete]. *)
Theorem failed_allocation_deletes_pointer st this p d :
  shared st !! this = None →
  ∃ st', shared_ptr_ptr_deleter this p d None st = Throw bad_alloc st' ∧
         log st' = EvDeleter d p :: log st ∧
         occurrences (EvDeleter d p) (log st') =
           S (occurrences (EvDeleter d p) (log st)) ∧
         shared st' = shared st ∧ weak st' = weak st ∧ heap st' = heap st ∧
         shared_ptr_ptr this p None st =
           Throw bad_alloc (with_log (cons (EvDeleter default_delete p)) st).
Proof.
  intros Hx. eexists. split; [by apply shared_ptr_ptr_deleter_throws|].
  simpl. split; [done|]. split.
  { rewrite occurrences_cons, decide_True by done. lia. }
  do 3 (split; [done|]). by apply shared_ptr_ptr_deleter_throws.
Qed.

End Claims2.

Section Claims3.
Context {T Args : Type} (construct_at : Args → option T).
Implicit Types (st : @state T) (b x : N) (o : @op Args) (prog : list (@op Args)).

(** [release_strong_ref] reads and writes the heap and the log only. *)
Lemma release_strong_frame cb f st :
  release_strong cb (with_shared f st) =
    map_state (with_shared f) (release_strong cb st).
Proof.
  destruct cb as [b|]; [|reflexivity].
  unfold release_strong, release_strong_ref, bind, load_block, store_block.
  simpl. destruct (heap st !! b) as [c|]; [|reflexivity]. simpl.
  destruct (decide (wrap (strong_refs_ c - 1) = 0)); [|reflexivity].
  unfold delete_data, bind, load_block, emit, store_block. simpl.
  rewrite !lookup_insert_eq. simpl.
  destruct (body c); simpl;
    unfold release_weak_ref, bind, load_block, store_block, delete_this, ret;
    simpl; rewrite ?lookup_insert_eq; simpl; by case_decide.
Qed.

Lemma release_strong_stores cb st :
  match release_strong cb st with
  | Ok _ st' => shared st' = shared st
  | Throw _ _ => False
  | _ => True
  end.
Proof.
  destruct cb as [b|]; [|reflexivity].
  unfold release_strong, release_strong_ref, bind, load_block, store_block.
  destruct (heap st !! b) as [c|]; [|done]. simpl.
  destruct (decide (wrap (strong_refs_ c - 1) = 0)); [|reflexivity].
  unfold delete_data, bind, load_block, emit, store_block. simpl.
  rewrite !lookup_insert_eq. simpl.
  destruct (body c); simpl;
    unfold release_weak_ref, bind, load_block, store_block, delete_this, ret;
    simpl; rewrite ?lookup_insert_eq; simpl; by case_decide.
Qed.

(** The death of a temporary that holds [cb]. *)
Lemma temporary_dies st tmp (h : shared_ptr) :
  shared st !! tmp = Some h →
  shared_ptr_dtor tmp st = release_strong (cb_ h) (with_shared (delete tmp) st).
Proof.
  intros Htmp. unfold shared_ptr_dtor.
  rewrite (bind_Ok _ _ _ _ _ (read_shared_Ok st tmp h Htmp)).
  rewrite release_strong_frame. unfold bind.
  pose proof (release_strong_stores (cb_ h) st) as Hst.
  destruct (release_strong (cb_ h) st) as [[] st'|e st'| |]; try done.
  unfold end_shared, bind, read_shared. rewrite Hst, Htmp. done.
Qed.

Lemma shared_ptr_ptr_deleter_eq st this p d b :
  shared st !! this = None → heap st !! b = None →
  shared_ptr_ptr_deleter this p d (Some b) st =
    Ok tt (with_shared <[this := {| ptr_ := p; cb_ := Some b |}]>
             (with_log (cons (EvNew b))
                (with_heap <[b := control_block_base (mem_control_block p d)]> st))).
Proof.
  intros Hx Hb.
  unfold shared_ptr_ptr_deleter, bind, unborn_shared, try_catch, bind,
    operator_new, begin_shared.
  rewrite Hx, Hb. simpl. by rewrite Hx.
Qed.

(** [shared_ptr(...).swap( *this )], the temporary dying afterwards, is one
    release of the block that [*this] held, after [*this] took the new
    members. *)
Lemma swap_in_eq st tmp this (hn h : shared_ptr) :
  tmp ≠ this →
  shared st !! tmp = Some hn → shared st !! this = Some h →
  bind (shared_ptr_swap tmp this) (λ _, shared_ptr_dtor tmp) st =
    release_strong (cb_ h)
      (with_shared (λ m, <[this := hn]> (delete tmp m)) st).
Proof.
  intros Hne Htmp Hthis.
  assert (Hswap : shared_ptr_swap tmp this st =
            Ok tt (with_shared <[this := hn]> (with_shared <[tmp := h]> st))).
  { unfold shared_ptr_swap, bind, read_shared, write_shared, bind, read_shared.
    rewrite Htmp, Hthis. simpl. rewrite Htmp. simpl.
    by rewrite lookup_insert_ne, Hthis. }
  rewrite (bind_Ok _ _ _ _ _ Hswap).
  rewrite (temporary_dies _ tmp h).
  2:{ simpl. by rewrite lookup_insert_ne, lookup_insert_eq. }
  f_equal. unfold with_shared. simpl. f_equal. map_lookups.
Qed.

(** C6. [reset()], [reset(new_ptr)] and [reset(new_ptr, action)] give [*this]
    its new members and release the block it held before exactly once: each
    amounts to one call of [release_strong] on the previous block.  In a
    reachable state that one release takes exactly 1 from the strong count
    of the previous block and from the number of its holders, and runs the
    destroy hook of that block exactly once when [*this] was its last
    holder, not at all otherwise; the replacement block starts with
    [use_count()] 1.  A handle without a block has nothing to release.  When
    the allocation for the replacement fails, the exception leaves before
    any swap: the handle, its block and its [use_count()] are what they
    were. *)
Theorem reset_releases_previous_once st x (h : shared_ptr) :
  shared st !! x = Some h →
  shared_ptr_reset x st =
    release_strong (cb_ h) (with_shared <[x := null_shared]> st) ∧
  (∀ p d b, heap st !! b = None →
     shared_ptr_reset_ptr_deleter x p d (Some b) st =
       release_strong (cb_ h)
         (with_shared <[x := {| ptr_ := p; cb_ := Some b |}]>
            (with_log (cons (EvNew b))
               (with_heap <[b := control_block_base (mem_control_block p d)]>
                  st)))) ∧
  (∀ p d, ∃ st',
     shared_ptr_reset_ptr_deleter x p d None st = Throw bad_alloc st' ∧
     shared st' !! x = Some h ∧ shared st' = shared st ∧
     weak st' = weak st ∧ heap st' = heap st ∧
     use_count h st' = map_state (λ _, st') (use_count h st)) ∧
  (∀ p answer,
     shared_ptr_reset_ptr x p answer st =
       shared_ptr_reset_ptr_deleter x p default_delete answer st) ∧
  (∀ prog b,
     run construct_at prog init = Ok tt st →
     Z.of_nat (length prog) + 2 < size_max →
     cb_ h = Some b →
     ∃ c, heap st !! b = Some c ∧
       (∃ st', shared_ptr_reset x st = Ok tt st' ∧
               shared st' !! x = Some null_shared ∧
               log st' = release_events b c ++ log st ∧
               strong_of st' b = strong_of st b - 1 ∧
               S (strong_holders st' b) = strong_holders st b ∧
               (∀ b', b' ≠ b → heap st' !! b' = heap st !! b')) ∧
       (∀ p d b', heap st !! b' = None →
          ∃ st', shared_ptr_reset_ptr_deleter x p d (Some b') st = Ok tt st' ∧
                 shared st' !! x = Some {| ptr_ := p; cb_ := Some b' |} ∧
                 log st' = release_events b c ++ EvNew b' :: log st ∧
                 strong_of st' b = strong_of st b - 1 ∧
                 S (strong_holders st' b) = strong_holders st b ∧
                 use_count {| ptr_ := p; cb_ := Some b' |} st' = Ok 1 st')) ∧
  (cb_ h = None →
     shared_ptr_reset x st = Ok tt (with_shared <[x := null_shared]> st) ∧
     ∀ p d b', heap st !! b' = None →
       shared_ptr_reset_ptr_deleter x p d (Some b') st =
         Ok tt (with_shared <[x := {| ptr_ := p; cb_ := Some b' |}]>
                  (with_log (cons (EvNew b'))
                     (with_heap
                        <[b' := control_block_base (mem_control_block p d)]>
                        st)))).
Proof.
  intros Hx. pose proof (temp_shared_fresh st) as Htmp.
  assert (Hne : fresh (dom (shared st)) ≠ x) by congruence.
  assert (Hreset : shared_ptr_reset x st =
            release_strong (cb_ h) (with_shared <[x := null_shared]> st)).
  { unfold shared_ptr_reset.
    rewrite (bind_Ok _ _ _ _ _ (read_shared_Ok st x h Hx)).
    rewrite (bind_Ok _ _ _ _ _ (temp_shared_Ok st)).
    set (tmp := fresh (dom (shared st))) in *.
    assert (Hdef : shared_ptr_default tmp st =
              Ok tt (with_shared <[tmp := null_shared]> st)).
    { unfold shared_ptr_default, begin_shared. by rewrite Htmp. }
    rewrite (bind_Ok _ _ _ _ _ Hdef).
    rewrite (swap_in_eq _ tmp x null_shared h Hne).
    2:{ simpl. by rewrite lookup_insert_eq. }
    2:{ simpl. by rewrite lookup_insert_ne. }
    f_equal. unfold with_shared. simpl. f_equal. map_lookups. }
  assert (Hresetp : ∀ p d b, heap st !! b = None →
     shared_ptr_reset_ptr_deleter x p d (Some b) st =
       release_strong (cb_ h)
         (with_shared <[x := {| ptr_ := p; cb_ := Some b |}]>
            (with_log (cons (EvNew b))
               (with_heap <[b := control_block_base (mem_control_block p d)]>
                  st)))).
  { intros p d b Hb. unfold shared_ptr_reset_ptr_deleter.
    rewrite (bind_Ok _ _ _ _ _ (read_shared_Ok st x h Hx)).
    rewrite (bind_Ok _ _ _ _ _ (temp_shared_Ok st)).
    set (tmp := fresh (dom (shared st))) in *.
    rewrite (bind_Ok _ _ _ _ _ (shared_ptr_ptr_deleter_eq st tmp p d b Htmp Hb)).
    rewrite (swap_in_eq _ tmp x {| ptr_ := p; cb_ := Some b |} h Hne).
    2:{ simpl. by rewrite lookup_insert_eq. }
    2:{ simpl. by rewrite lookup_insert_ne. }
    f_equal. unfold with_shared. simpl. f_equal. map_lookups. }
  split_all.
  - done.
  - done.
  - intros p d. eexists.
    split; [by apply (shared_ptr_reset_ptr_deleter_throws st x h)|].
    simpl. do 4 (split; [done|]).
    unfold use_count. destruct (cb_ h) as [b|]; [|done].
    unfold get_strong_refs, bind, load_block. simpl.
    by destruct (heap st !! b).
  - done.
  - intros prog b Hrun Hlen Hcb.
    destruct (reachable_inv construct_at prog st Hrun Hlen) as [HI _].
    destruct (shared_holder_alive st x h b HI Hx Hcb) as (c & Hc & Hpos).
    pose proof (HI b) as Hb. unfold block_at in Hb. rewrite Hc in Hb.
    destruct Hb as (_ & _ & Hw0 & Hs0 & _).
    exists c. split; [done|]. split.
    + rewrite Hreset, Hcb. unfold release_strong.
      destruct (release_strong_ref_events
                  (with_shared <[x := null_shared]> st) b c Hc
                  ltac:(lia) ltac:(lia))
        as (st' & H1 & H2 & H3 & _ & _ & H4 & _ & H5).
      exists st'. split; [done|].
      split; [by rewrite H3; simpl; rewrite lookup_insert_eq|].
      split; [done|]. split; [by rewrite H4; unfold strong_of; rewrite Hc|].
      split; [|done]. unfold strong_holders. rewrite H3. simpl.
      pose proof (holders_update cb_ b (shared st) x h null_shared Hx) as Hu.
      rewrite (holds_same cb_ b h Hcb) in Hu.
      rewrite (holds_other cb_ b null_shared) in Hu by done. lia.
    + intros p d b' Hb'.
      assert (Hbb : b' ≠ b) by congruence.
      rewrite (Hresetp p d b' Hb'), Hcb. unfold release_strong.
      set (st1 := with_shared <[x := {| ptr_ := p; cb_ := Some b' |}]> _).
      assert (Hc1 : heap st1 !! b = Some c).
      { unfold st1. simpl. by rewrite lookup_insert_ne. }
      destruct (release_strong_ref_events st1 b c Hc1 ltac:(lia) ltac:(lia))
        as (st' & H1 & H2 & H3 & _ & _ & H4 & _ & H5).
      exists st'. split; [done|].
      split; [by rewrite H3; unfold st1; simpl; rewrite lookup_insert_eq|].
      split; [done|]. split; [by rewrite H4; unfold strong_of; rewrite Hc|].
      split.
      * unfold strong_holders. rewrite H3. unfold st1. simpl.
        pose proof (holders_update cb_ b (shared st) x h
                      {| ptr_ := p; cb_ := Some b' |} Hx) as Hu.
        rewrite (holds_same cb_ b h Hcb) in Hu.
        rewrite (holds_other cb_ b {| ptr_ := p; cb_ := Some b' |}) in Hu
          by (simpl; congruence).
        lia.
      * unfold use_count, get_strong_refs, bind, load_block, ret. simpl.
        rewrite (H5 b' Hbb). unfold st1. simpl.
        by rewrite lookup_insert_eq.
  - intros Hcb. split; [by rewrite Hreset, Hcb|].
    intros p d b' Hb'. by rewrite (Hresetp p d b' Hb'), Hcb.
Qed.

(** C7. [make_shared<T>(args)] returns a handle whose [get()] is the address
    of the object embedded in the new block, that object is the one
    constructed from [args], and [use_count()] is 1: the strong count the
    block was created with, not incremented. *)
Theorem make_shared_owns_embedded_object st x args v b :
  shared st !! x = None → heap st !! b = None →
  construct_at args = Some v →
  ∃ st' h, make_shared construct_at x args (Some b) st = Ok tt st' ∧
           shared st' !! x = Some h ∧
           get h = Some (Embedded b) ∧ cb_ h = Some b ∧
           points_to st' (get h) = Some v ∧
           use_count h st' = Ok 1 st' ∧
           heap st' !! b =
             Some (control_block_base (inplace_control_block (Some v))).
Proof.
  intros Hx Hb Hv. eexists _, _. split.
  { unfold make_shared, bind, unborn_shared, operator_new.
    rewrite Hx, Hb, Hv. unfold bind, shared_ptr_inplace, begin_shared. simpl.
    rewrite Hx. reflexivity. }
  simpl. rewrite !lookup_insert_eq. split; [done|]. simpl.
  do 2 (split; [done|]). rewrite lookup_insert_eq. simpl. split; [done|].
  unfold use_count, get_strong_refs, bind, load_block. simpl.
  rewrite lookup_insert_eq. done.
Qed.

(** C9. [a == b] holds exactly when [a.get() == b.get()], whatever the
    blocks; so two handles on one block with different pointers are unequal;
    a handle equals [nullptr] exactly when [get()] is null. *)
Theorem equality_compares_pointers (a1 a2 : shared_ptr) :
  (shared_ptr_eq a1 a2 = true ↔ get a1 = get a2) ∧
  (shared_ptr_ne a1 a2 = true ↔ get a1 ≠ get a2) ∧
  (cb_ a1 = cb_ a2 → get a1 ≠ get a2 → shared_ptr_eq a1 a2 = false) ∧
  (shared_ptr_eq_null a1 = true ↔ get a1 = None) ∧
  (null_eq_shared_ptr a1 = true ↔ get a1 = None) ∧
  (shared_ptr_ne_null a1 = true ↔ get a1 ≠ None) ∧
  (null_ne_shared_ptr a1 = true ↔ get a1 ≠ None).
Proof.
  unfold shared_ptr_ne_null, null_ne_shared_ptr, shared_ptr_ne,
    shared_ptr_eq_null, null_eq_shared_ptr, shared_ptr_eq.
  split_all.
  - apply bool_decide_eq_true.
  - rewrite negb_true_iff. apply bool_decide_eq_false.
  - intros _ Hne. by apply bool_decide_eq_false.
  - rewrite negb_true_iff, bool_decide_eq_false. destruct (get a1); naive_solver.
  - rewrite negb_true_iff, bool_decide_eq_false. destruct (get a1); naive_solver.
  - rewrite negb_involutive. apply bool_decide_eq_true.
  - rewrite negb_involutive. apply bool_decide_eq_true.
Qed.

(** C10. A shared handle built from a null raw pointer, with or without a
    deleter, owns a control block all the same: [use_count()] is 1 although
    [get()] is null and the conversion to [bool] gives [false]. *)
Theorem null_raw_pointer_owns_block st this d b :
  shared st !! this = None → heap st !! b = None →
  ∃ st' h, shared_ptr_ptr_deleter this None d (Some b) st = Ok tt st' ∧
           shared st' !! this = Some h ∧ cb_ h = Some b ∧
           use_count h st' = Ok 1 st' ∧
           operator_bool h = false ∧ get h = None ∧
           shared_ptr_ptr this None (Some b) st =
             shared_ptr_ptr_deleter this None default_delete (Some b) st.
Proof.
  intros Hx Hb. eexists _, _.
  split; [by apply shared_ptr_ptr_deleter_eq|].
  simpl. rewrite lookup_insert_eq. split; [done|]. simpl. split; [done|].
  split; [|done].
  unfold use_count, get_strong_refs, bind, load_block. simpl.
  by rewrite lookup_insert_eq.
Qed.

End Claims3.

Section Claims4.
Context {T Args : Type} (construct_at : Args → option T).
Implicit Types (st : @state T) (b x : N) (o : @op Args) (prog : list (@op Args)).

(** C8 (amended). For a shared handle [y] on block [b] in a reachable state:
    - move construction from [y] leaves the strong count of [b] as it is and
      [y] with null pointer and null block;
    - copy construction from [y] adds exactly 1 to the strong count;
    - [x = std::move(y)] leaves [y] (when it is not [x] itself) with null
      pointer and null block, and the strong count as it is, unless [x] was
      another handle on [b]: then the reference [x] held is released and the
      count drops by 1;
    - [x = y] adds exactly 1 to the strong count, unless [x] held [b]
      already: then the count is as before;
    - the destruction of [y] takes exactly 1 from the strong count. *)
Theorem move_keeps_count_copy_adds_one prog st y (hy : shared_ptr) b :
  run construct_at prog init = Ok tt st →
  Z.of_nat (length prog) + 2 < size_max →
  shared st !! y = Some hy → cb_ hy = Some b →
  (∀ x, shared st !! x = None →
     ∃ st', shared_ptr_move x y st = Ok tt st' ∧
            strong_of st' b = strong_of st b ∧
            shared st' !! x = Some hy ∧ shared st' !! y = Some null_shared) ∧
  (∀ x, shared st !! x = None →
     ∃ st', shared_ptr_copy x y st = Ok tt st' ∧
            strong_of st' b = strong_of st b + 1 ∧
            shared st' !! x = Some hy ∧ shared st' !! y = Some hy) ∧
  (∀ x (hx : shared_ptr), shared st !! x = Some hx →
     ∃ st', shared_ptr_assign_move x y st = Ok tt st' ∧
            shared st' !! x = Some hy ∧
            (x ≠ y → shared st' !! y = Some null_shared) ∧
            strong_of st' b =
              strong_of st b
              - (if decide (x ≠ y ∧ cb_ hx = Some b) then 1 else 0)) ∧
  (∀ x (hx : shared_ptr), shared st !! x = Some hx →
     ∃ st', shared_ptr_assign_copy x y st = Ok tt st' ∧
            shared st' !! x = Some hy ∧ shared st' !! y = Some hy ∧
            strong_of st' b =
              strong_of st b + 1
              - (if decide (cb_ hx = Some b) then 1 else 0)) ∧
  (∃ st', shared_ptr_dtor y st = Ok tt st' ∧
          strong_of st' b = strong_of st b - 1).
Proof.
  intros Hrun Hlen Hy Hb.
  destruct (reachable_inv construct_at prog st Hrun Hlen) as [HI Hfit].
  split_all.
  - intros x Hx. assert (Hne : x ≠ y) by congruence.
    destruct (shared_ptr_move_spec st x y hy HI Hx Hy)
      as (st' & Hrun' & HI' & Hsh & _).
    exists st'. split; [done|]. rewrite !strong_of_holders by done.
    unfold strong_holders. rewrite Hsh. split_all.
    + pose proof (holders_update cb_ b (<[x := hy]> (shared st)) y hy null_shared)
        as Hu.
      rewrite lookup_insert_ne in Hu by done. specialize (Hu Hy).
      rewrite (holders_insert_fresh cb_ b (shared st) x) in Hu by done.
      rewrite (holds_other cb_ b null_shared) in Hu by done. lia.
    + by rewrite lookup_insert_ne, lookup_insert_eq.
    + by rewrite lookup_insert_eq.
  - intros x Hx. assert (Hne : x ≠ y) by congruence.
    destruct (shared_ptr_copy_spec st x y hy HI Hfit Hx Hy)
      as (st' & Hrun' & HI' & Hsh & _).
    exists st'. split; [done|]. rewrite !strong_of_holders by done.
    unfold strong_holders. rewrite Hsh. split_all.
    + rewrite holders_insert_fresh, holds_same by done. lia.
    + by rewrite lookup_insert_eq.
    + by rewrite lookup_insert_ne.
  - intros x hx Hx.
    destruct (shared_ptr_assign_move_spec st x y hx hy HI Hx Hy)
      as (st' & Hrun' & HI' & Hsh & _).
    exists st'. split; [done|]. rewrite !strong_of_holders by done.
    unfold strong_holders. rewrite Hsh. split_all.
    + by rewrite lookup_insert_eq.
    + intros Hne. by rewrite lookup_insert_ne, lookup_insert_eq.
    + pose proof (holders_update cb_ b (shared st) y hy null_shared Hy) as Hu1.
      assert (∃ h', <[y := null_shared]> (shared st) !! x = Some h' ∧
                    (x = y → h' = null_shared) ∧ (x ≠ y → h' = hx))
        as (h' & Hx' & Heq & Hneq).
      { rewrite lookup_insert. case_decide; [by eexists|].
        exists hx. by rewrite Hx. }
      pose proof (holders_update cb_ b _ x h' hy Hx') as Hu2.
      rewrite (holds_same cb_ b hy) in * by done.
      rewrite (holds_other cb_ b null_shared) in * by done.
      destruct (decide (x = y)) as [->|Hne].
      * rewrite Heq in Hu2 by done.
        rewrite (holds_other cb_ b null_shared) in * by done.
        rewrite decide_False by tauto. lia.
      * rewrite Hneq in Hu2 by done. unfold holds in Hu2.
        repeat case_decide; try tauto; lia.
  - intros x hx Hx.
    destruct (shared_ptr_assign_copy_spec st x y hx hy HI Hfit Hx Hy)
      as (st' & Hrun' & HI' & Hsh & _).
    exists st'. split; [done|]. rewrite !strong_of_holders by done.
    unfold strong_holders. rewrite Hsh. split_all.
    + by rewrite lookup_insert_eq.
    + rewrite lookup_insert. case_decide; [congruence|done].
    + pose proof (holders_update cb_ b (shared st) x hx hy Hx) as Hu.
      rewrite (holds_same cb_ b hy) in Hu by done. unfold holds in Hu.
      repeat case_decide; try tauto; lia.
  - destruct (shared_ptr_dtor_spec st y hy HI Hy) as (st' & Hrun' & HI' & Hsh & _).
    exists st'. split; [done|]. rewrite !strong_of_holders by done.
    unfold strong_holders. rewrite Hsh.
    rewrite (holders_delete cb_ b (shared st) y hy Hy), holds_same by done. lia.
Qed.

End Claims4.

(** * Further properties of the code *)

(** ** Blocks and the handles on them *)

Section Safety.
Context {T Args : Type} (construct_at : Args → option T).
Implicit Types (st : @state T) (b x : N) (o : @op Args) (prog : list (@op Args)).

Lemma run_app prog1 prog2 st :
  run construct_at (prog1 ++ prog2) st =
    match run construct_at prog1 st with
    | Ok _ st' => run construct_at prog2 st'
    | r => r
    end.
Proof.
  revert st. induction prog1 as [|o prog1 IH]; intros st; simpl; [done|].
  destruct (step construct_at o st) as [[] st1|e st1| |]; try done; apply IH.
Qed.

(** Room for [n] more references in the counters of a reachable state. *)
Lemma reachable_room prog st (n : Z) :
  2 ≤ n →
  run construct_at prog init = Ok tt st →
  Z.of_nat (length prog) + n < size_max →
  Inv st ∧ Z.of_nat (handles st) + n < size_max.
Proof.
  intros Hn Hrun Hlen.
  pose proof (run_inv construct_at prog init Inv_init) as H.
  assert (Hh0 : handles (init (T:=T)) = 0%nat).
  { unfold handles. simpl. by rewrite !map_size_empty. }
  rewrite Hh0 in H. specialize (H ltac:(lia)). rewrite Hrun in H.
  destruct H as (HI & Hh & _). split; [done|lia].
Qed.

(** X1. No statement follows a dangling [cb_]: neither the program itself
    nor any statement executed in the state it ends in reads or writes a
    control block that has been deleted, which is the undefined behaviour
    the model tracks.  (What the stored pointers point to, and the pointer
    conversions of the converting overloads, are outside the model.) *)
Theorem no_use_of_deleted_blocks prog :
  Z.of_nat (length prog) + 2 < size_max →
  run construct_at prog init ≠ Undefined ∧
  (∀ st o, run construct_at prog init = Ok tt st →
           step construct_at o st ≠ Undefined) ∧
  (∀ st, run construct_at prog init = Ok tt st →
     (∀ x (h : shared_ptr) b, shared st !! x = Some h → cb_ h = Some b →
        is_Some (heap st !! b)) ∧
     (∀ x (h : weak_ptr) b, weak st !! x = Some h → w_cb_ h = Some b →
        is_Some (heap st !! b))).
Proof.
  intros Hlen. split_all.
  - intros Hrun.
    pose proof (run_inv construct_at prog init Inv_init) as H.
    assert (Hh0 : handles (init (T:=T)) = 0%nat).
    { unfold handles. simpl. by rewrite !map_size_empty. }
    rewrite Hh0 in H. specialize (H ltac:(lia)). by rewrite Hrun in H.
  - intros st o Hrun Hstep.
    destruct (reachable_inv construct_at prog st Hrun Hlen) as [HI Hfit].
    pose proof (step_inv construct_at o st HI Hfit) as Hok.
    by rewrite Hstep in Hok.
  - intros st Hrun.
    destruct (reachable_inv construct_at prog st Hrun Hlen) as [HI _].
    split; intros x h b Hx Hb.
    + destruct (shared_holder_alive st x h b HI Hx Hb) as (c & -> & _). eauto.
    + destruct (weak_holder_allocated st x h b HI Hx Hb) as (c & -> & _). eauto.
Qed.

(** X2. The state of a block follows the handles on it: the managed object is
    alive exactly while some shared handle holds the block; with weak handles
    only, the object is destroyed and the block still allocated; without any
    handle the block is gone.  The event log agrees. *)
Theorem block_phase_follows_holders prog st b :
  run construct_at prog init = Ok tt st →
  Z.of_nat (length prog) + 2 < size_max →
  block_phase st b = phase_by_holders st b ∧
  lifecycle b (log st) = Some (phase_by_holders st b).
Proof.
  intros Hrun Hlen.
  destruct (reachable_inv construct_at prog st Hrun Hlen) as [HI _].
  rewrite <- phase_by_holders_correct by done.
  split; [done|]. by apply block_phase_lifecycle.
Qed.

(** X3. Nothing leaks: once every handle object is gone, no control block is
    allocated, and every block that was ever created has had its destroy hook
    run and its storage freed as often as it was created. *)
Theorem no_handles_no_blocks prog st :
  run construct_at prog init = Ok tt st →
  Z.of_nat (length prog) + 2 < size_max →
  shared st = ∅ → weak st = ∅ →
  heap st = ∅ ∧
  ∀ b, occurrences (EvDeleteData b) (log st) = occurrences (EvNew b) (log st) ∧
       occurrences (EvFree b) (log st) = occurrences (EvNew b) (log st).
Proof.
  intros Hrun Hlen Hs Hw.
  destruct (reachable_inv construct_at prog st Hrun Hlen) as [HI _].
  assert (Hph : ∀ b, block_phase st b = Absent).
  { intros b. rewrite phase_by_holders_correct by done.
    unfold phase_by_holders, strong_holders, weak_holders.
    rewrite Hs, Hw, !holders_empty. done. }
  split.
  - apply map_eq. intros b. rewrite lookup_empty.
    specialize (Hph b). unfold block_phase in Hph.
    destruct (heap st !! b); [by case_decide|done].
  - intros b. pose proof (block_phase_lifecycle st b HI) as Hl.
    rewrite Hph in Hl. destruct (lifecycle_counts b _ _ Hl) as [H1 H2].
    simpl in *. lia.
Qed.

(** X4. The aliasing copy constructor gives a handle that reports the
    supplied address from [get()], whatever the source points to, and shares
    the block of the source: the strong count of that block grows by exactly
    1 and is what [use_count()] of the new handle returns.  From a source
    without a block it builds a handle without a block and touches no
    counter. *)
Theorem aliasing_copy_shares_block prog st y (hy : shared_ptr) x p :
  run construct_at prog init = Ok tt st →
  Z.of_nat (length prog) + 2 < size_max →
  shared st !! y = Some hy → shared st !! x = None →
  ∃ st' h, shared_ptr_alias_copy x y p st = Ok tt st' ∧
           shared st' !! x = Some h ∧ get h = p ∧ cb_ h = cb_ hy ∧
           shared st' !! y = Some hy ∧ log st' = log st ∧
           match cb_ hy with
           | Some b => strong_of st' b = strong_of st b + 1 ∧
                       use_count h st' = Ok (strong_of st b + 1) st' ∧
                       ∀ b', b' ≠ b → heap st' !! b' = heap st !! b'
           | None => heap st' = heap st ∧ use_count h st' = Ok 0 st'
           end.
Proof.
  intros Hrun Hlen Hy Hx.
  destruct (reachable_inv construct_at prog st Hrun Hlen) as [HI Hfit].
  assert (Hne : x ≠ y) by congruence.
  destruct (shared_ptr_alias_copy_spec st x y hy p HI Hfit Hx Hy)
    as (st' & Hrun' & HI' & Hsh & Hwk & Hl & Hh).
  exists st', {| ptr_ := p; cb_ := cb_ hy |}. split; [done|].
  split; [by rewrite Hsh, lookup_insert_eq|]. do 2 (split; [done|]).
  split; [by rewrite Hsh, lookup_insert_ne|]. split; [done|].
  destruct (cb_ hy) as [b|] eqn:Hcb; [|done].
  destruct (shared_holder_alive st y hy b HI Hy Hcb) as (c & Hc & _).
  assert (Hs : strong_of st' b = strong_of st b + 1).
  { unfold strong_of. by rewrite Hh, lookup_alter_eq, Hc. }
  split; [done|]. split.
  - unfold use_count, get_strong_refs, bind, load_block, ret. simpl.
    rewrite <- Hs. unfold strong_of. rewrite Hh, lookup_alter_eq, Hc. done.
  - intros b' Hb'. by rewrite Hh, lookup_alter_ne.
Qed.

(** X5. The aliasing move constructor hands the block of the source over to
    a handle that reports the supplied address: the source is left with null
    pointer and null block, no block and no counter changes, and the number
    of holders of the block, which [use_count()] of the new handle returns,
    is what it was. *)
Theorem aliasing_move_transfers_block prog st y (hy : shared_ptr) x p :
  run construct_at prog init = Ok tt st →
  Z.of_nat (length prog) + 2 < size_max →
  shared st !! y = Some hy → shared st !! x = None →
  ∃ st' h, shared_ptr_alias_move x y p st = Ok tt st' ∧
           shared st' !! x = Some h ∧ get h = p ∧ cb_ h = cb_ hy ∧
           shared st' !! y = Some null_shared ∧
           heap st' = heap st ∧ weak st' = weak st ∧ log st' = log st ∧
           (∀ b, strong_holders st' b = strong_holders st b) ∧
           use_count h st' = map_state (λ _, st') (use_count hy st).
Proof.
  intros Hrun Hlen Hy Hx.
  destruct (reachable_inv construct_at prog st Hrun Hlen) as [HI Hfit].
  assert (Hne : x ≠ y) by congruence.
  destruct (shared_ptr_alias_move_spec st x y hy p HI Hx Hy)
    as (st' & Hrun' & HI' & Hsh & Hwk & Hh & Hl).
  exists st', {| ptr_ := p; cb_ := cb_ hy |}. split; [done|].
  split; [by rewrite Hsh, lookup_insert_ne, lookup_insert_eq|].
  do 2 (split; [done|]). split; [by rewrite Hsh, lookup_insert_eq|].
  do 3 (split; [done|]). split.
  - intros b. apply Nat2Z.inj.
    rewrite <- !strong_of_holders by done. unfold strong_of. by rewrite Hh.
  - unfold use_count. simpl. destruct (cb_ hy) as [b|]; [|done].
    unfold get_strong_refs, bind, load_block, ret. rewrite Hh.
    by destruct (heap st !! b).
Qed.

End Safety.

(** ** Swaps, weak handles and [lock] *)

Section Observers.
Context {T Args : Type} (construct_at : Args → option T).
Implicit Types (st : @state T) (b x : N) (o : @op Args) (prog : list (@op Args)).

Lemma with_shared_id st (m : gmap N shared_ptr) :
  m = shared st → with_shared (λ _, m) st = st.
Proof. intros ->. by destruct st. Qed.

Lemma with_weak_id st (m : gmap N weak_ptr) :
  m = weak st → with_weak (λ _, m) st = st.
Proof. intros ->. by destruct st. Qed.

Lemma shared_ptr_swap_eq st x y (hx hy : shared_ptr) :
  shared st !! x = Some hx → shared st !! y = Some hy →
  shared_ptr_swap x y st =
    Ok tt (with_shared (λ m, <[y := hx]> (<[x := hy]> m)) st).
Proof.
  intros Hx Hy.
  unfold shared_ptr_swap, bind, read_shared, write_shared, bind, read_shared.
  rewrite Hx, Hy. simpl. rewrite Hx. simpl.
  destruct (decide (x = y)) as [->|Hne].
  - by rewrite lookup_insert_eq.
  - by rewrite lookup_insert_ne, Hy.
Qed.

Lemma weak_ptr_swap_eq st x y (hx hy : weak_ptr) :
  weak st !! x = Some hx → weak st !! y = Some hy →
  weak_ptr_swap x y st =
    Ok tt (with_weak (λ m, <[y := hx]> (<[x := hy]> m)) st).
Proof.
  intros Hx Hy.
  unfold weak_ptr_swap, bind, read_weak, write_weak, bind, read_weak.
  rewrite Hx, Hy. simpl. rewrite Hx. simpl.
  destruct (decide (x = y)) as [->|Hne].
  - by rewrite lookup_insert_eq.
  - by rewrite lookup_insert_ne, Hy.
Qed.

(** X6. [a.swap(b)] exchanges the members of the two handles and nothing
    else: every other handle, every control block and the log are as before;
    swapping again restores the state.  The same holds for [weak_ptr]. *)
Theorem swap_exchanges_and_undoes_itself st x y :
  (∀ hx hy : shared_ptr,
     shared st !! x = Some hx → shared st !! y = Some hy →
     ∃ st', shared_ptr_swap x y st = Ok tt st' ∧
            shared st' !! x = Some hy ∧ shared st' !! y = Some hx ∧
            (∀ z, z ≠ x → z ≠ y → shared st' !! z = shared st !! z) ∧
            heap st' = heap st ∧ weak st' = weak st ∧ log st' = log st ∧
            shared_ptr_swap x y st' = Ok tt st) ∧
  (∀ hx hy : weak_ptr,
     weak st !! x = Some hx → weak st !! y = Some hy →
     ∃ st', weak_ptr_swap x y st = Ok tt st' ∧
            weak st' !! x = Some hy ∧ weak st' !! y = Some hx ∧
            (∀ z, z ≠ x → z ≠ y → weak st' !! z = weak st !! z) ∧
            heap st' = heap st ∧ shared st' = shared st ∧ log st' = log st ∧
            weak_ptr_swap x y st' = Ok tt st).
Proof.
  split; intros hx hy Hx Hy.
  - assert (Hx' : <[y := hx]> (<[x := hy]> (shared st)) !! x = Some hy).
    { rewrite lookup_insert. case_decide; [congruence|].
      by rewrite lookup_insert_eq. }
    assert (Hy' : <[y := hx]> (<[x := hy]> (shared st)) !! y = Some hx).
    { by rewrite lookup_insert_eq. }
    eexists. split; [by apply shared_ptr_swap_eq|]. simpl.
    split; [done|]. split; [done|]. split.
    { intros z Hzx Hzy. by rewrite !lookup_insert_ne. }
    do 3 (split; [done|]).
    rewrite (shared_ptr_swap_eq _ x y hy hx) by done.
    f_equal. rewrite <- (with_shared_id st (shared st) eq_refl) at 2.
    unfold with_shared. simpl. f_equal.
    apply map_eq. intros z.
    repeat (rewrite lookup_insert). repeat case_decide; congruence.
  - assert (Hx' : <[y := hx]> (<[x := hy]> (weak st)) !! x = Some hy).
    { rewrite lookup_insert. case_decide; [congruence|].
      by rewrite lookup_insert_eq. }
    assert (Hy' : <[y := hx]> (<[x := hy]> (weak st)) !! y = Some hx).
    { by rewrite lookup_insert_eq. }
    eexists. split; [by apply weak_ptr_swap_eq|]. simpl.
    split; [done|]. split; [done|]. split.
    { intros z Hzx Hzy. by rewrite !lookup_insert_ne. }
    do 3 (split; [done|]).
    rewrite (weak_ptr_swap_eq _ x y hy hx) by done.
    f_equal. rewrite <- (with_weak_id st (weak st) eq_refl) at 2.
    unfold with_weak. simpl. f_equal.
    apply map_eq. intros z.
    repeat (rewrite lookup_insert). repeat case_decide; congruence.
Qed.

(** Counters of every block after a statement that left the shared store and
    the invariant alone. *)
Lemma strong_of_same_store st st' b :
  Inv st → Inv st' → shared st' = shared st →
  strong_of st' b = strong_of st b.
Proof.
  intros HI HI' Hsh. rewrite !strong_of_holders by done.
  unfold strong_holders. by rewrite Hsh.
Qed.

(** X7. Weak handles count in the weak counter only: building a weak handle
    from a shared handle, or copying a weak handle, adds exactly 1 to the
    weak count of the block and leaves every strong count, hence every
    [use_count()], as it is; moving a weak handle changes no count at all and
    leaves the source with null pointer and null block. *)
Theorem weak_handles_count_weakly prog st w :
  run construct_at prog init = Ok tt st →
  Z.of_nat (length prog) + 2 < size_max →
  weak st !! w = None →
  (∀ y (hy : shared_ptr) b, shared st !! y = Some hy → cb_ hy = Some b →
     ∃ st', weak_ptr_from_shared w y st = Ok tt st' ∧
            weak st' !! w = Some {| w_ptr_ := ptr_ hy; w_cb_ := Some b |} ∧
            weak_of st' b = weak_of st b + 1 ∧
            (∀ b', strong_of st' b' = strong_of st b') ∧
            shared st' = shared st ∧ log st' = log st) ∧
  (∀ v (hv : weak_ptr) b, weak st !! v = Some hv → w_cb_ hv = Some b →
     ∃ st', weak_ptr_copy w v st = Ok tt st' ∧
            weak st' !! w = Some hv ∧ weak st' !! v = Some hv ∧
            weak_of st' b = weak_of st b + 1 ∧
            (∀ b', strong_of st' b' = strong_of st b') ∧
            shared st' = shared st ∧ log st' = log st) ∧
  (∀ v (hv : weak_ptr), weak st !! v = Some hv →
     ∃ st', weak_ptr_move w v st = Ok tt st' ∧
            weak st' !! w = Some hv ∧ weak st' !! v = Some null_weak ∧
            heap st' = heap st ∧ shared st' = shared st ∧ log st' = log st).
Proof.
  intros Hrun Hlen Hw.
  destruct (reachable_inv construct_at prog st Hrun Hlen) as [HI Hfit].
  split_all.
  - intros y hy b Hy Hb.
    destruct (weak_ptr_from_shared_spec st w y hy HI Hfit Hw Hy)
      as (st' & Hrun' & HI' & Hwk & Hsh & Hl).
    exists st'. split; [done|]. rewrite Hb in Hwk.
    split; [by rewrite Hwk, lookup_insert_eq|].
    assert (Hs : ∀ b', strong_of st' b' = strong_of st b')
      by (intros; by apply strong_of_same_store).
    split; [|done].
    rewrite !weak_of_holders, Hs by done. unfold weak_holders. rewrite Hwk.
    rewrite holders_insert_fresh, holds_same by done. lia.
  - intros v hv b Hv Hb. assert (Hne : w ≠ v) by congruence.
    destruct (weak_ptr_copy_spec st w v hv HI Hfit Hw Hv)
      as (st' & Hrun' & HI' & Hwk & Hsh & Hl).
    exists st'. split; [done|].
    split; [by rewrite Hwk, lookup_insert_eq|].
    split; [by rewrite Hwk, lookup_insert_ne|].
    assert (Hs : ∀ b', strong_of st' b' = strong_of st b')
      by (intros; by apply strong_of_same_store).
    split; [|done].
    rewrite !weak_of_holders, Hs by done. unfold weak_holders. rewrite Hwk.
    rewrite holders_insert_fresh, holds_same by done. lia.
  - intros v hv Hv. assert (Hne : w ≠ v) by congruence.
    destruct (weak_ptr_move_spec st w v hv HI Hw Hv)
      as (st' & Hrun' & HI' & Hwk & Hsh & Hh & Hl).
    exists st'. split; [done|].
    split; [by rewrite Hwk, lookup_insert_ne, lookup_insert_eq|].
    split; [by rewrite Hwk, lookup_insert_eq|]. done.
Qed.

(** X8. [w.lock()] gives a handle on the block of [w] exactly while some
    shared handle holds that block; once the last one is gone it gives the
    null handle, however many weak handles are left. *)
Theorem lock_succeeds_while_held prog st w (hw : weak_ptr) b x :
  run construct_at prog init = Ok tt st →
  Z.of_nat (length prog) + 2 < size_max →
  weak st !! w = Some hw → w_cb_ hw = Some b → shared st !! x = None →
  ∃ st', weak_ptr_lock x w st = Ok tt st' ∧
         shared st' !! x =
           Some (if decide (0 < strong_holders st b)%nat
                 then {| ptr_ := w_ptr_ hw; cb_ := Some b |}
                 else null_shared) ∧
         strong_holders st' b =
           (if decide (0 < strong_holders st b)%nat
            then S (strong_holders st b) else 0%nat).
Proof.
  intros Hrun Hlen Hw Hb Hx.
  destruct (reachable_inv construct_at prog st Hrun Hlen) as [HI Hfit].
  destruct (weak_ptr_lock_spec st x w hw HI Hfit Hx Hw)
    as (st' & Hrun' & HI' & Hsh & Hwk & Hl).
  exists st'. split; [done|].
  destruct (weak_holder_allocated st w hw b HI Hw Hb) as (c & Hc & _).
  pose proof (strong_of_holders st b HI) as Hs. unfold strong_of in Hs.
  rewrite Hc in Hs.
  assert (Hres : lock_result st hw =
            if decide (0 < strong_holders st b)%nat
            then {| ptr_ := w_ptr_ hw; cb_ := Some b |} else null_shared).
  { unfold lock_result. rewrite Hb, Hc. repeat case_decide; try done; lia. }
  rewrite Hres in Hsh. split; [by rewrite Hsh, lookup_insert_eq|].
  unfold strong_holders in *. rewrite Hsh, holders_insert_fresh by done.
  destruct (decide (0 < holders cb_ b (shared st))%nat).
  - rewrite holds_same by done. lia.
  - rewrite holds_other by done. lia.
Qed.

(** X9. Round trip: a weak handle made from a shared handle locks back to a
    handle with the same pointer and the same block, equal to the original
    under [operator==]; the original is as it was, and the block has one more
    strong and one more weak reference. *)
Theorem weak_of_shared_locks_back prog st y (hy : shared_ptr) b w x :
  run construct_at prog init = Ok tt st →
  Z.of_nat (length prog) + 3 < size_max →
  shared st !! y = Some hy → cb_ hy = Some b →
  weak st !! w = None → shared st !! x = None →
  ∃ st1 st2 h, weak_ptr_from_shared w y st = Ok tt st1 ∧
               weak_ptr_lock x w st1 = Ok tt st2 ∧
               shared st2 !! x = Some h ∧
               get h = get hy ∧ cb_ h = Some b ∧ shared_ptr_eq h hy = true ∧
               shared st2 !! y = Some hy ∧
               strong_of st2 b = strong_of st b + 1 ∧
               weak_of st2 b = weak_of st b + 1.
Proof.
  intros Hrun Hlen Hy Hb Hw Hx.
  destruct (reachable_room construct_at prog st 3 ltac:(lia) Hrun Hlen)
    as [HI Hroom].
  assert (Hfit : fits st) by (unfold fits; lia).
  destruct (weak_ptr_from_shared_spec st w y hy HI Hfit Hw Hy)
    as (st1 & Hrun1 & HI1 & Hwk1 & Hsh1 & Hl1).
  assert (Hfit1 : fits st1).
  { unfold fits, handles in *. rewrite Hsh1, Hwk1.
    rewrite map_size_insert_None by done. lia. }
  assert (Hw1 : weak st1 !! w = Some {| w_ptr_ := ptr_ hy; w_cb_ := cb_ hy |})
    by (by rewrite Hwk1, lookup_insert_eq).
  assert (Hx1 : shared st1 !! x = None) by (by rewrite Hsh1).
  destruct (weak_ptr_lock_spec st1 x w _ HI1 Hfit1 Hx1 Hw1)
    as (st2 & Hrun2 & HI2 & Hsh2 & Hwk2 & Hl2).
  exists st1, st2, hy. do 2 (split; [done|]).
  assert (Hy1 : shared st1 !! y = Some hy) by (by rewrite Hsh1).
  assert (Hxy : x ≠ y) by congruence.
  destruct (shared_holder_alive st1 y hy b HI1 Hy1 Hb) as (c1 & Hc1 & Hpos).
  assert (Hres : lock_result st1 {| w_ptr_ := ptr_ hy; w_cb_ := cb_ hy |} = hy).
  { unfold lock_result. simpl. rewrite Hb, Hc1.
    rewrite decide_False by lia. destruct hy; simpl in *; congruence. }
  rewrite Hres in Hsh2.
  split; [by rewrite Hsh2, lookup_insert_eq|].
  do 2 (split; [done|]).
  split; [by apply bool_decide_eq_true|].
  split; [by rewrite Hsh2, lookup_insert_ne|].
  assert (Hs2 : strong_of st2 b = strong_of st b + 1).
  { rewrite !strong_of_holders by done. unfold strong_holders.
    rewrite Hsh2, Hsh1, holders_insert_fresh, holds_same by (done || by rewrite <- Hsh1).
    lia. }
  split; [done|].
  rewrite !weak_of_holders, Hs2 by done. unfold weak_holders.
  rewrite Hwk2, Hwk1, holders_insert_fresh, holds_same by done.
  destruct (shared_holder_alive st y hy b HI Hy Hb) as (c & Hc & Hpos0).
  unfold strong_of. rewrite Hc. repeat case_decide; lia.
Qed.

(** X10. Assignment to a weak handle [w]: from a shared handle or a weak
    handle on block [b] it adds exactly 1 to the weak count of [b], unless
    [w] observed [b] already (then the count is as before); move assignment
    from another weak handle [v] changes the count only by the reference [w]
    gave up, and leaves [v] with null pointer and null block.  No strong
    count changes. *)
Theorem weak_assignment_counts prog st w (hw : weak_ptr) b :
  run construct_at prog init = Ok tt st →
  Z.of_nat (length prog) + 2 < size_max →
  weak st !! w = Some hw →
  (∀ y (hy : shared_ptr), shared st !! y = Some hy → cb_ hy = Some b →
     ∃ st', weak_ptr_assign_shared w y st = Ok tt st' ∧
            weak st' !! w = Some {| w_ptr_ := ptr_ hy; w_cb_ := Some b |} ∧
            weak_of st' b =
              weak_of st b + 1 - (if decide (w_cb_ hw = Some b) then 1 else 0) ∧
            (∀ b', strong_of st' b' = strong_of st b')) ∧
  (∀ v (hv : weak_ptr), weak st !! v = Some hv → w_cb_ hv = Some b →
     ∃ st', weak_ptr_assign_copy w v st = Ok tt st' ∧
            weak st' !! w = Some hv ∧ weak st' !! v = Some hv ∧
            weak_of st' b =
              weak_of st b + 1 - (if decide (w_cb_ hw = Some b) then 1 else 0) ∧
            (∀ b', strong_of st' b' = strong_of st b')) ∧
  (∀ v (hv : weak_ptr), weak st !! v = Some hv → w_cb_ hv = Some b →
     ∃ st', weak_ptr_assign_move w v st = Ok tt st' ∧
            weak st' !! w = Some hv ∧
            (w ≠ v → weak st' !! v = Some null_weak) ∧
            weak_of st' b =
              weak_of st b
              - (if decide (w ≠ v ∧ w_cb_ hw = Some b) then 1 else 0) ∧
            (∀ b', strong_of st' b' = strong_of st b')).
Proof.
  intros Hrun Hlen Hw.
  destruct (reachable_inv construct_at prog st Hrun Hlen) as [HI Hfit].
  split_all.
  - intros y hy Hy Hb.
    destruct (weak_ptr_assign_shared_spec st w y hw hy HI Hfit Hw Hy)
      as (st' & Hrun' & HI' & Hwk & Hsh).
    exists st'. split; [done|]. rewrite Hb in Hwk.
    split; [by rewrite Hwk, lookup_insert_eq|].
    assert (Hs : ∀ b', strong_of st' b' = strong_of st b')
      by (intros; by apply strong_of_same_store).
    split; [|done].
    rewrite !weak_of_holders, Hs by done. unfold weak_holders. rewrite Hwk.
    pose proof (holders_update w_cb_ b (weak st) w hw
                  {| w_ptr_ := ptr_ hy; w_cb_ := Some b |} Hw) as Hu.
    rewrite (holds_same w_cb_ b {| w_ptr_ := ptr_ hy; w_cb_ := Some b |}) in Hu
      by done.
    unfold holds in Hu. repeat case_decide; try tauto; lia.
  - intros v hv Hv Hb.
    destruct (weak_ptr_assign_copy_spec st w v hw hv HI Hfit Hw Hv)
      as (st' & Hrun' & HI' & Hwk & Hsh).
    exists st'. split; [done|].
    split; [by rewrite Hwk, lookup_insert_eq|].
    split. { rewrite Hwk, lookup_insert. case_decide; [congruence|done]. }
    assert (Hs : ∀ b', strong_of st' b' = strong_of st b')
      by (intros; by apply strong_of_same_store).
    split; [|done].
    rewrite !weak_of_holders, Hs by done. unfold weak_holders. rewrite Hwk.
    pose proof (holders_update w_cb_ b (weak st) w hw hv Hw) as Hu.
    rewrite (holds_same w_cb_ b hv) in Hu by done.
    unfold holds in Hu. repeat case_decide; try tauto; lia.
  - intros v hv Hv Hb.
    destruct (weak_ptr_assign_move_spec st w v hw hv HI Hw Hv)
      as (st' & Hrun' & HI' & Hwk & Hsh).
    exists st'. split; [done|].
    split; [by rewrite Hwk, lookup_insert_eq|].
    split. { intros Hne. by rewrite Hwk, lookup_insert_ne, lookup_insert_eq. }
    assert (Hs : ∀ b', strong_of st' b' = strong_of st b')
      by (intros; by apply strong_of_same_store).
    split; [|done].
    rewrite !weak_of_holders, Hs by done. unfold weak_holders. rewrite Hwk.
    pose proof (holders_update w_cb_ b (weak st) v hv null_weak Hv) as Hu1.
    assert (∃ h', <[v := null_weak]> (weak st) !! w = Some h' ∧
                  (w = v → h' = null_weak) ∧ (w ≠ v → h' = hw))
      as (h' & Hw' & Heq & Hneq).
    { rewrite lookup_insert. case_decide; [by eexists|].
      exists hw. by rewrite Hw. }
    pose proof (holders_update w_cb_ b _ w h' hv Hw') as Hu2.
    rewrite (holds_same w_cb_ b hv) in * by done.
    rewrite (holds_other w_cb_ b null_weak) in * by done.
    destruct (decide (w = v)) as [->|Hne].
    + rewrite Heq in Hu2 by done.
      rewrite (holds_other w_cb_ b null_weak) in * by done.
      destruct (decide (v ≠ v ∧ w_cb_ hw = Some b)) as [[Hd _]|_]; [done|].
      case_decide; lia.
    + rewrite Hneq in Hu2 by done. unfold holds in Hu2.
      repeat case_decide; try tauto; lia.
Qed.

End Observers.

(** ** State predicates kept by every statement *)

Section Keeps.
Context {T : Type}.
Implicit Types (st : @state T) (b x : N) (c : @control_block T)
  (P : @state T → Prop).

Lemma keeps_ret {A} P (a : A) : keeps P (ret a).
Proof. by intros st HP. Qed.

Lemma keeps_throw {A} P e : keeps P (throw (A:=A) e).
Proof. by intros st HP. Qed.

Lemma keeps_bind {A B} P (m : M A) (f : A → M B) :
  keeps P m → (∀ a, keeps P (f a)) → keeps P (bind m f).
Proof.
  intros Hm Hf st HP. specialize (Hm st HP). unfold bind.
  destruct (m st) as [a st1|e st1| |]; try done. by apply Hf.
Qed.

Lemma keeps_try_catch {A} P (m : M A) (h : exn → M A) :
  keeps P m → (∀ e, keeps P (h e)) → keeps P (try_catch m h).
Proof.
  intros Hm Hh st HP. specialize (Hm st HP). unfold try_catch.
  destruct (m st) as [a st1|e st1| |]; try done. by apply Hh.
Qed.

(** Predicates on the heap and the log are kept by whatever happens in the
    handle stores. *)
Lemma keeps_stores {A} P (m : M A) :
  on_heap_and_log P →
  (∀ st, match m st with
         | Ok _ st' | Throw _ st' => heap st' = heap st ∧ log st' = log st
         | _ => True
         end) →
  keeps P m.
Proof.
  intros HP Hm st Hst. specialize (Hm st).
  destruct (m st) as [a st1|e st1| |]; try done;
    destruct Hm; by apply (HP st).
Qed.

End Keeps.

Ltac stores_only :=
  apply keeps_stores; [assumption|];
  intros st;
  cbv [read_shared write_shared begin_shared end_shared temp_shared
       unborn_shared read_weak write_weak begin_weak end_weak temp_weak
       operator_new get_strong_refs load_block ret bind];
  repeat case_match; simplify_eq; done.

Section KeepsStores.
Context {T : Type} (P : @state T → Prop) (HP : on_heap_and_log P).
Implicit Types (st : @state T) (b x : N).

Lemma keeps_read_shared x : keeps P (read_shared x).
Proof. stores_only. Qed.

Lemma keeps_write_shared x h : keeps P (write_shared x h).
Proof. stores_only. Qed.

Lemma keeps_begin_shared x h : keeps P (begin_shared x h).
Proof. stores_only. Qed.

Lemma keeps_end_shared x : keeps P (end_shared x).
Proof. stores_only. Qed.

Lemma keeps_temp_shared : keeps P temp_shared.
Proof. stores_only. Qed.

Lemma keeps_unborn_shared x : keeps P (unborn_shared x).
Proof. stores_only. Qed.

Lemma keeps_read_weak x : keeps P (read_weak x).
Proof. stores_only. Qed.

Lemma keeps_write_weak x h : keeps P (write_weak x h).
Proof. stores_only. Qed.

Lemma keeps_begin_weak x h : keeps P (begin_weak x h).
Proof. stores_only. Qed.

Lemma keeps_end_weak x : keeps P (end_weak x).
Proof. stores_only. Qed.

Lemma keeps_temp_weak : keeps P temp_weak.
Proof. stores_only. Qed.

Lemma keeps_operator_new answer : keeps P (operator_new answer).
Proof. stores_only. Qed.

Lemma keeps_get_strong_refs b : keeps P (get_strong_refs b).
Proof. stores_only. Qed.

End KeepsStores.

(** The methods of the handles are built from the primitives with sequencing
    and [try]: a predicate kept by the operations on the heap and the log
    ([heap_ops] proves those) is kept by every method. *)
Ltac keeps_calc HP heap_ops :=
  repeat first
    [ apply keeps_ret | apply keeps_throw
    | heap_ops
    | apply (keeps_read_shared _ HP) | apply (keeps_write_shared _ HP)
    | apply (keeps_begin_shared _ HP) | apply (keeps_end_shared _ HP)
    | apply (keeps_temp_shared _ HP) | apply (keeps_unborn_shared _ HP)
    | apply (keeps_read_weak _ HP) | apply (keeps_write_weak _ HP)
    | apply (keeps_begin_weak _ HP) | apply (keeps_end_weak _ HP)
    | apply (keeps_temp_weak _ HP) | apply (keeps_operator_new _ HP)
    | apply (keeps_get_strong_refs _ HP)
    | apply keeps_bind; [|intros ?]
    | apply keeps_try_catch; [|intros ?]
    | match goal with
      | |- keeps _ (match ?x with _ => _ end) => destruct x
      end
    | progress unfold step, shared_ptr_default, shared_ptr_ptr,
        shared_ptr_ptr_deleter, shared_ptr_alias_copy, shared_ptr_alias_move,
        shared_ptr_copy, shared_ptr_move, shared_ptr_assign_copy,
        shared_ptr_assign_move, shared_ptr_reset, shared_ptr_reset_ptr,
        shared_ptr_reset_ptr_deleter, shared_ptr_swap, shared_ptr_dtor,
        shared_ptr_ptr_cb, shared_ptr_inplace, make_shared, release_strong,
        release_weak, weak_ptr_default, weak_ptr_from_shared, weak_ptr_copy,
        weak_ptr_move, weak_ptr_assign_shared, weak_ptr_assign_copy,
        weak_ptr_assign_move, weak_ptr_reset, weak_ptr_swap, weak_ptr_dtor,
        weak_ptr_lock, weak_ptr_ptr_cb ].

Section KeepsRuns.
Context {T Args : Type} (construct_at : Args → option T).
Implicit Types (st : @state T) (prog : list (@op Args)).

Lemma keeps_run (P : @state T → Prop) prog :
  (∀ o, keeps P (step construct_at o)) → keeps P (run construct_at prog).
Proof.
  intros Hstep.
  induction prog as [|o prog IH]; intros st HP; simpl; [done|].
  specialize (Hstep o st HP).
  destruct (step construct_at o st) as [[] st1|e st1| |]; try done;
    by apply IH.
Qed.

End KeepsRuns.

(** ** The storage of in-place blocks *)

Section Storage.
Context {T : Type}.
Implicit Types (st : @state T) (b x : N) (c : @control_block T).

Lemma storage_ok_on_heap_and_log : on_heap_and_log (storage_ok (T:=T)).
Proof. intros st st' Hh Hl Hok b c v. rewrite Hh, Hl. apply Hok. Qed.

(** Events on one address leave the life cycle of the others alone. *)
Lemma lifecycle_other b' ev l :
  (∀ ph, next_phase b' ph ev = Some ph) →
  lifecycle b' (ev :: l) = lifecycle b' l.
Proof. intros H. simpl. destruct (lifecycle b' l); [apply H|done]. Qed.

Lemma next_phase_other b b' ph ev :
  b' ≠ b → ev ∈ [EvNew b; EvDeleteData b; EvDestroyAt b; EvFree b] →
  next_phase b' ph ev = Some ph.
Proof.
  intros Hne Hev. repeat (apply elem_of_cons in Hev as [->|Hev]); simpl;
    try (by rewrite decide_False by congruence); try done.
  by apply elem_of_nil in Hev.
Qed.

Lemma next_phase_deleter b' ph d p : next_phase b' ph (EvDeleter d p) = Some ph.
Proof. done. Qed.

(** A change of the heap at [b] and of the log by events on [b] only has to
    be checked at [b]. *)
Lemma storage_ok_at st st' b :
  (∀ b', b' ≠ b →
     heap st' !! b' = heap st !! b' ∧
     lifecycle b' (log st') = lifecycle b' (log st)) →
  (∀ c v, heap st' !! b = Some c → body c = inplace_control_block v →
     (lifecycle b (log st') = Some Alive → is_Some v) ∧
     (lifecycle b (log st') = Some Expired → v = None)) →
  storage_ok st → storage_ok st'.
Proof.
  intros Hother Hb Hok b' c v Hc Hv.
  destruct (decide (b' = b)) as [->|Hne]; [by apply (Hb c)|].
  destruct (Hother b' Hne) as [Hh Hl]. rewrite Hh in Hc. rewrite Hl.
  by apply (Hok b' c).
Qed.

Lemma keeps_storage_add_strong_ref b : keeps storage_ok (add_strong_ref (T:=T) b).
Proof.
  intros st Hok. unfold add_strong_ref, bind, load_block, store_block.
  destruct (heap st !! b) as [c|] eqn:Hc; [|done].
  apply (storage_ok_at st _ b); [| |done]; proj_simpl.
  - intros b' Hne. by rewrite lookup_insert_ne.
  - intros c' v. rewrite lookup_insert_eq. intros [= <-] Hv. by apply (Hok b c).
Qed.

Lemma keeps_storage_add_weak_ref b : keeps storage_ok (add_weak_ref (T:=T) b).
Proof.
  intros st Hok. unfold add_weak_ref, bind, load_block, store_block.
  destruct (heap st !! b) as [c|] eqn:Hc; [|done].
  apply (storage_ok_at st _ b); [| |done]; proj_simpl.
  - intros b' Hne. by rewrite lookup_insert_ne.
  - intros c' v. rewrite lookup_insert_eq. intros [= <-] Hv. by apply (Hok b c).
Qed.

Lemma keeps_storage_release_weak_ref b :
  keeps storage_ok (release_weak_ref (T:=T) b).
Proof.
  intros st Hok. unfold release_weak_ref, bind, load_block, store_block.
  destruct (heap st !! b) as [c|] eqn:Hc; [|done]. proj_simpl.
  case_decide; proj_simpl.
  - apply (storage_ok_at st _ b); [| |done]; proj_simpl.
    + intros b' Hne. rewrite lookup_delete_ne, lookup_insert_ne by done.
      split; [done|]. apply lifecycle_other. intros ph.
      apply (next_phase_other b); [done|]. set_solver.
    + intros c' v. by rewrite lookup_delete_eq.
  - apply (storage_ok_at st _ b); [| |done]; proj_simpl.
    + intros b' Hne. by rewrite lookup_insert_ne.
    + intros c' v. rewrite lookup_insert_eq. intros [= <-] Hv.
      by apply (Hok b c).
Qed.

Lemma lifecycle_after_delete_data b l ph :
  lifecycle b (EvDeleteData b :: l) = Some ph → ph = Expired.
Proof.
  simpl. destruct (lifecycle b l) as [ph'|]; [|done]. simpl.
  rewrite decide_True by done. destruct ph'; congruence.
Qed.

Lemma keeps_storage_delete_data b st c :
  heap st !! b = Some c → storage_ok st →
  match delete_data b st with
  | Ok _ st' =>
      storage_ok st' ∧ ∃ c', heap st' !! b = Some c'
  | _ => False
  end.
Proof.
  intros Hc Hok. unfold delete_data, bind, load_block, emit, store_block.
  rewrite Hc. proj_simpl.
  destruct (body c) as [p d|v0] eqn:Hbody; proj_simpl.
  - split; [|by exists c]. apply (storage_ok_at st _ b); [| |done]; proj_simpl.
    + intros b' Hne. split; [done|].
      rewrite lifecycle_other by (intros; apply next_phase_deleter).
      apply lifecycle_other. intros ph.
      apply (next_phase_other b); [done|]. set_solver.
    + intros c' v. rewrite Hc. intros [= <-] Hv. congruence.
  - split; [|by rewrite lookup_insert_eq; eexists].
    apply (storage_ok_at st _ b); [| |done]; proj_simpl.
    + intros b' Hne. rewrite lookup_insert_ne by done. split; [done|].
      rewrite !lifecycle_other; [done| |]; intros ph;
        (apply (next_phase_other b); [done|]); set_solver.
    + intros c' v. rewrite lookup_insert_eq. intros [= <-]. proj_simpl.
      intros [= <-]. split; [|done].
      rewrite lifecycle_other by done. intros Hl.
      by apply lifecycle_after_delete_data in Hl.
Qed.

Lemma keeps_storage_release_strong_ref b :
  keeps storage_ok (release_strong_ref (T:=T) b).
Proof.
  intros st Hok. unfold release_strong_ref.
  unfold bind at 1. unfold load_block at 1.
  destruct (heap st !! b) as [c|] eqn:Hc; [|done].
  unfold bind at 1. unfold store_block at 1.
  set (st1 := with_heap _ st).
  assert (Hok1 : storage_ok st1).
  { unfold st1. apply (storage_ok_at st _ b); [| |done]; proj_simpl.
    - intros b' Hne. by rewrite lookup_insert_ne.
    - intros c' v. rewrite lookup_insert_eq. intros [= <-] Hv.
      by apply (Hok b c). }
  case_decide; [|done].
  assert (Hc1 : heap st1 !! b = Some (set_strong (wrap (strong_refs_ c - 1)) c)).
  { unfold st1. proj_simpl. by rewrite lookup_insert_eq. }
  pose proof (keeps_storage_delete_data b st1 _ Hc1 Hok1) as Hdd.
  unfold bind.
  destruct (delete_data b st1) as [[] st2|e st2| |]; try done.
  destruct Hdd as [Hok2 _]. by apply keeps_storage_release_weak_ref.
Qed.

Lemma keeps_storage_deleter_call d p :
  keeps storage_ok (emit (T:=T) (EvDeleter d p)).
Proof.
  intros st Hok b c v Hc Hv. unfold emit in *. proj_simpl.
  rewrite lifecycle_other by done. by apply (Hok b c).
Qed.

(** A block enters the heap with its managed object alive. *)
Lemma keeps_storage_new_block {A} b (k : @block_body T) (f : M A) :
  (∀ v, k = inplace_control_block v → is_Some v) →
  keeps storage_ok f →
  keeps storage_ok
    (bind (store_block b (control_block_base k))
       (λ _, bind (emit (EvNew b)) (λ _, f))).
Proof.
  intros Hk Hf st Hok. unfold bind at 1. unfold store_block at 1.
  unfold bind at 1. unfold emit at 1. apply Hf.
  apply (storage_ok_at st _ b); [| |done]; proj_simpl.
  - intros b' Hne. rewrite lookup_insert_ne by done. split; [done|].
    apply lifecycle_other. intros ph.
    apply (next_phase_other b); [done|]. set_solver.
  - intros c v. rewrite lookup_insert_eq. intros [= <-]. simpl.
    intros Hv. split; [intros _; by apply Hk|].
    destruct (lifecycle b (log st)) as [[]|]; simpl;
      rewrite ?decide_True by done; done.
Qed.

End Storage.

Ltac storage_heap_ops :=
  first
    [ apply keeps_storage_new_block; [by (intros ? [= <-]) || done|]
    | apply keeps_storage_deleter_call
    | apply keeps_storage_add_strong_ref | apply keeps_storage_add_weak_ref
    | apply keeps_storage_release_weak_ref
    | apply keeps_storage_release_strong_ref ].

Section StorageRuns.
Context {T Args : Type} (construct_at : Args → option T).
Implicit Types (st : @state T) (b x : N) (o : @op Args) (prog : list (@op Args)).

Lemma keeps_storage_step o : keeps storage_ok (step construct_at o).
Proof.
  destruct o; keeps_calc (storage_ok_on_heap_and_log (T:=T)) storage_heap_ops.
Qed.

Lemma storage_ok_init : storage_ok (init (T:=T)).
Proof. intros b c v. simpl. by rewrite lookup_empty. Qed.

Lemma reachable_storage_ok prog st :
  run construct_at prog init = Ok tt st → storage_ok st.
Proof.
  intros Hrun.
  pose proof (keeps_run construct_at storage_ok prog keeps_storage_step
                init storage_ok_init) as Hok.
  by rewrite Hrun in Hok.
Qed.

(** X11. The object embedded in an in-place block exists exactly while some
    shared handle holds the block, aliasing handles included: it is there as
    long as one holder is left and it is destroyed once the last is gone,
    also when weak handles keep the block allocated. *)
Theorem embedded_object_lives_with_holders prog st b (c : @control_block T) v :
  run construct_at prog init = Ok tt st →
  Z.of_nat (length prog) + 2 < size_max →
  heap st !! b = Some c → body c = inplace_control_block v →
  points_to st (Some (Embedded b)) = v ∧
  (is_Some v ↔ (0 < strong_holders st b)%nat).
Proof.
  intros Hrun Hlen Hc Hv.
  destruct (reachable_inv construct_at prog st Hrun Hlen) as [HI _].
  destruct (reachable_storage_ok prog st Hrun b c v Hc Hv) as [Halive Hexp].
  pose proof (block_phase_lifecycle st b HI) as Hl.
  rewrite phase_by_holders_correct in Hl by done.
  unfold phase_by_holders in Hl.
  split; [unfold points_to; by rewrite Hc, Hv|]. split.
  - intros Hsome.
    destruct (decide (0 < strong_holders st b)%nat) as [|Hn]; [done|].
    exfalso. destruct (decide (0 < weak_holders st b)%nat).
    + rewrite Hexp in Hsome by done. by destruct Hsome.
    + pose proof (block_phase_lifecycle st b HI) as Hl2.
      rewrite Hl in Hl2. unfold block_phase in Hl2. rewrite Hc in Hl2.
      destruct (decide (strong_refs_ c = 0)); discriminate.
  - intros Hpos. rewrite decide_True in Hl by done. by apply Halive.
Qed.

End StorageRuns.

(** ** The embedded object between its construction and its destruction *)

Section Untouched.
Context {T : Type}.
Implicit Types (st : @state T) (b x : N) (c : @control_block T) (v : T).

Lemma untouched_on_heap_and_log b v n : on_heap_and_log (untouched b v n).
Proof.
  intros st st' Hh Hl. unfold untouched, points_to. by rewrite Hh, Hl.
Qed.

Lemma life_events_cons b ev l :
  life_events b (ev :: l) =
    ((if decide (ev ∈ [EvNew b; EvDeleteData b; EvFree b]) then 1 else 0)
     + life_events b l)%nat.
Proof.
  unfold life_events. rewrite !occurrences_cons.
  destruct (decide (ev ∈ _)) as [Hev|Hev]; rewrite !elem_of_cons in Hev.
  - destruct Hev as [->|[->|[->|Hev]]]; [..|by apply elem_of_nil in Hev];
      repeat case_decide; congruence || lia.
  - repeat case_decide; try lia; subst; tauto.
Qed.

Lemma life_events_cons_le b ev l :
  (life_events b l ≤ life_events b (ev :: l))%nat.
Proof. rewrite life_events_cons. lia. Qed.

Lemma life_events_cons_eq b b' ev l :
  ev ∈ [EvNew b'; EvDeleteData b'; EvFree b'] →
  life_events b (ev :: l) = life_events b l → b ≠ b'.
Proof.
  intros Hev Heq ->. rewrite life_events_cons, decide_True in Heq by done. lia.
Qed.

Lemma life_events_hook b ev l :
  (∃ d p, ev = EvDeleter d p) ∨ (∃ b', ev = EvDestroyAt b') →
  life_events b (ev :: l) = life_events b l.
Proof.
  intros Hev. rewrite life_events_cons, decide_False; [done|].
  rewrite !elem_of_cons, elem_of_nil.
  destruct Hev as [(d & p & ->)|(b' & ->)]; intros [|[|[|]]]; done.
Qed.

(** The predicate survives a change that either logs a life-cycle event of
    the block or leaves its embedded object alone. *)
Lemma untouched_change b v n st st' :
  (life_events b (log st) ≤ life_events b (log st'))%nat →
  (life_events b (log st') = life_events b (log st) →
   points_to st' (Some (Embedded b)) = points_to st (Some (Embedded b))) →
  untouched b v n st → untouched b v n st'.
Proof.
  intros Hle Hsame [Hn Hv]. split; [lia|]. intros Heq.
  rewrite Hsame by lia. apply Hv. lia.
Qed.

Lemma points_to_counters b b' c (g : @control_block T → @control_block T) st :
  heap st !! b' = Some c → body (g c) = body c →
  points_to (with_heap <[b' := g c]> st) (Some (Embedded b)) =
    points_to st (Some (Embedded b)).
Proof.
  intros Hc Hg. unfold points_to. proj_simpl.
  destruct (decide (b = b')) as [->|Hne].
  - by rewrite lookup_insert_eq, Hc, Hg.
  - by rewrite lookup_insert_ne.
Qed.

Lemma keeps_untouched_add_strong_ref b v n b' :
  keeps (untouched b v n) (add_strong_ref b').
Proof.
  intros st Hu. unfold add_strong_ref, bind, load_block, store_block.
  destruct (heap st !! b') as [c|] eqn:Hc; [|done].
  apply (untouched_change b v n st); [done| |done]. intros _.
  by apply (points_to_counters b b' c (set_strong _)).
Qed.

Lemma keeps_untouched_add_weak_ref b v n b' :
  keeps (untouched b v n) (add_weak_ref b').
Proof.
  intros st Hu. unfold add_weak_ref, bind, load_block, store_block.
  destruct (heap st !! b') as [c|] eqn:Hc; [|done].
  apply (untouched_change b v n st); [done| |done]. intros _.
  by apply (points_to_counters b b' c (set_weak _)).
Qed.

Lemma keeps_untouched_release_weak_ref b v n b' :
  keeps (untouched b v n) (release_weak_ref b').
Proof.
  intros st Hu. unfold release_weak_ref, bind, load_block, store_block.
  destruct (heap st !! b') as [c|] eqn:Hc; [|done]. proj_simpl.
  case_decide; unfold delete_this, ret; proj_simpl.
  - apply (untouched_change b v n st); [| |done]; proj_simpl.
    + apply life_events_cons_le.
    + intros Heq. apply (life_events_cons_eq b b') in Heq as Hne; [|set_solver].
      unfold points_to. proj_simpl.
      by rewrite lookup_delete_ne, lookup_insert_ne.
  - apply (untouched_change b v n st); [done| |done]. intros _.
    by apply (points_to_counters b b' c (set_weak _)).
Qed.

Lemma keeps_untouched_delete_data b v n b' :
  keeps (untouched b v n) (delete_data b').
Proof.
  intros st Hu. unfold delete_data, bind, load_block, emit, store_block.
  destruct (heap st !! b') as [c|] eqn:Hc; [|done]. proj_simpl.
  destruct (body c) as [p d|v0] eqn:Hbody; proj_simpl;
    (apply (untouched_change b v n st); [| |done]); proj_simpl;
    rewrite life_events_hook by eauto.
  - apply life_events_cons_le.
  - done.
  - apply life_events_cons_le.
  - intros Heq. apply (life_events_cons_eq b b') in Heq as Hne; [|set_solver].
    unfold points_to. proj_simpl. by rewrite lookup_insert_ne.
Qed.

Lemma keeps_untouched_release_strong_ref b v n b' :
  keeps (untouched b v n) (release_strong_ref b').
Proof.
  intros st Hu. unfold release_strong_ref.
  unfold bind at 1. unfold load_block at 1.
  destruct (heap st !! b') as [c|] eqn:Hc; [|done].
  unfold bind at 1. unfold store_block at 1.
  assert (Hu1 : untouched b v n
            (with_heap <[b' := set_strong (wrap (strong_refs_ c - 1)) c]> st)).
  { apply (untouched_change b v n st); [done| |done]. intros _.
    by apply (points_to_counters b b' c (set_strong _)). }
  case_decide; [|done].
  revert Hu1. generalize (with_heap
    <[b' := set_strong (wrap (strong_refs_ c - 1)) c]> st).
  apply keeps_bind; [apply keeps_untouched_delete_data|].
  intros _. apply keeps_untouched_release_weak_ref.
Qed.

Lemma keeps_untouched_deleter_call b v n d p :
  keeps (untouched b v n) (emit (EvDeleter d p)).
Proof.
  intros st Hu. unfold emit.
  apply (untouched_change b v n st); [| |done]; proj_simpl;
    by rewrite life_events_hook by eauto.
Qed.

Lemma keeps_untouched_new_block {A} b v n b' (k : @block_body T) (f : M A) :
  keeps (untouched b v n) f →
  keeps (untouched b v n)
    (bind (store_block b' (control_block_base k))
       (λ _, bind (emit (EvNew b')) (λ _, f))).
Proof.
  intros Hf st Hu. unfold bind at 1. unfold store_block at 1.
  unfold bind at 1. unfold emit at 1. apply Hf.
  apply (untouched_change b v n st); [| |done]; proj_simpl.
  - apply life_events_cons_le.
  - intros Heq. apply (life_events_cons_eq b b') in Heq as Hne; [|set_solver].
    unfold points_to. proj_simpl. by rewrite lookup_insert_ne.
Qed.

End Untouched.

Ltac untouched_heap_ops :=
  first
    [ apply keeps_untouched_new_block
    | apply keeps_untouched_deleter_call
    | apply keeps_untouched_add_strong_ref
    | apply keeps_untouched_add_weak_ref
    | apply keeps_untouched_release_weak_ref
    | apply keeps_untouched_release_strong_ref ].

Section UntouchedRuns.
Context {T Args : Type} (construct_at : Args → option T).
Implicit Types (st : @state T) (b x : N) (o : @op Args) (prog : list (@op Args)).

Lemma keeps_untouched_step b (v : T) n o :
  keeps (untouched b v n) (step construct_at o).
Proof.
  destruct o; keeps_calc (untouched_on_heap_and_log b v n) untouched_heap_ops.
Qed.

(** X12. No operation on a handle writes to the managed object: from the
    moment the object embedded in block [b] is [v], through any further
    statements on any handles, it stays [v] until the destroy hook of [b]
    runs. *)
Theorem embedded_object_untouched_until_destroyed prog prog' st st' b (v : T) :
  run construct_at prog init = Ok tt st →
  run construct_at prog' st = Ok tt st' →
  Z.of_nat (length prog + length prog') + 2 < size_max →
  points_to st (Some (Embedded b)) = Some v →
  occurrences (EvDeleteData b) (log st') =
    occurrences (EvDeleteData b) (log st) →
  points_to st' (Some (Embedded b)) = Some v.
Proof.
  intros Hrun Hrun' Hlen Hv Hdd.
  destruct (reachable_inv construct_at prog st Hrun ltac:(lia)) as [HI _].
  assert (Hrun2 : run construct_at (prog ++ prog') init = Ok tt st').
  { by rewrite run_app, Hrun. }
  destruct (reachable_inv construct_at _ st' Hrun2) as [HI' _].
  { rewrite length_app. lia. }
  pose proof (reachable_storage_ok construct_at prog st Hrun) as Hok.
  assert (Hph : lifecycle b (log st) = Some Alive).
  { rewrite (block_phase_lifecycle st b HI). unfold block_phase.
    unfold points_to in Hv.
    destruct (heap st !! b) as [c|] eqn:Hc; [|done].
    destruct (body c) as [|v0] eqn:Hbody; [done|]. subst v0.
    destruct (Hok b c (Some v) Hc Hbody) as [_ Hexp].
    case_decide as Hs; [|done]. exfalso.
    pose proof (block_phase_lifecycle st b HI) as Hl.
    unfold block_phase in Hl. rewrite Hc, decide_True in Hl by done.
    by specialize (Hexp Hl). }
  destruct (lifecycle_counts b _ _ Hph) as [Hn1 Hn2].
  pose proof (block_phase_lifecycle st' b HI') as Hph'.
  destruct (lifecycle_counts b _ _ Hph') as [Hm1 Hm2].
  pose proof (keeps_run construct_at _ prog'
                (keeps_untouched_step b v (life_events b (log st)))
                st) as Hkeep.
  rewrite Hrun' in Hkeep. destruct Hkeep as [Hle Hsame].
  { split; [lia|done]. }
  apply Hsame. unfold life_events in *.
  rewrite decide_True in Hn1 by done. rewrite decide_False in Hn2 by done.
  repeat case_decide; try congruence; lia.
Qed.

End UntouchedRuns.

(** ** What the destructors and the null handles do *)

Section Destruction.
Context {T Args : Type} (construct_at : Args → option T).
Implicit Types (st : @state T) (b x : N) (o : @op Args) (prog : list (@op Args)).

(** X13. What the destruction of a handle sets off.  For a shared handle on
    block [b]: nothing but the decrement unless it is the last strong
    holder; when it is, the destroy hook runs exactly once (the deleter of
    the block on the pointer kept in the block, or [destroy_at] on the
    embedded object), and after it the block is freed exactly when no weak
    handle is left.  For a weak handle: never a destroy hook; the block is
    freed exactly when it was the last reference. *)
Theorem destruction_events prog st b (c : @control_block T) :
  run construct_at prog init = Ok tt st →
  Z.of_nat (length prog) + 2 < size_max →
  heap st !! b = Some c →
  (∀ x (h : shared_ptr), shared st !! x = Some h → cb_ h = Some b →
     ∃ st', shared_ptr_dtor x st = Ok tt st' ∧
            log st' = release_events b c ++ log st ∧
            (strong_refs_ c = 1 ↔ strong_holders st b = 1%nat) ∧
            (heap st' !! b = None ↔
               strong_holders st b = 1%nat ∧ weak_holders st b = 0%nat)) ∧
  (∀ x (h : weak_ptr), weak st !! x = Some h → w_cb_ h = Some b →
     ∃ st', weak_ptr_dtor x st = Ok tt st' ∧
            log st' = (if decide (weak_refs_ c = 1) then [EvFree b] else [])
                      ++ log st ∧
            (heap st' !! b = None ↔
               strong_holders st b = 0%nat ∧ weak_holders st b = 1%nat)).
Proof.
  intros Hrun Hlen Hc.
  destruct (reachable_inv construct_at prog st Hrun Hlen) as [HI _].
  pose proof (HI b) as Hb. unfold block_at in Hb. rewrite Hc in Hb.
  destruct Hb as (Hs & Hw & Hw0 & Hs0 & _).
  split.
  - intros x h Hx Hcb.
    pose proof (holders_pos cb_ b _ x h Hx Hcb) as Hpos.
    fold (strong_holders st b) in Hpos.
    destruct (release_strong_ref_events st b c Hc ltac:(lia) ltac:(lia))
      as (st1 & Hrun1 & Hl1 & Hs1 & Hk1 & Hh1 & _).
    eexists. split.
    { unfold shared_ptr_dtor.
      rewrite (bind_Ok _ _ _ _ _ (read_shared_Ok st x h Hx)).
      unfold release_strong. rewrite Hcb.
      rewrite (bind_Ok _ _ _ _ _ Hrun1).
      unfold end_shared, bind, read_shared. rewrite Hs1, Hx. reflexivity. }
    proj_simpl. split; [done|]. split; [lia|]. rewrite Hh1.
    case_decide; lia.
  - intros x h Hx Hcb.
    pose proof (holders_pos w_cb_ b _ x h Hx Hcb) as Hpos.
    fold (weak_holders st b) in Hpos.
    destruct (release_weak_ref_events st b c Hc ltac:(lia))
      as (st1 & Hrun1 & Hl1 & Hs1 & Hk1 & Hh1 & _).
    eexists. split.
    { unfold weak_ptr_dtor.
      rewrite (bind_Ok _ _ _ _ _ (read_weak_Ok st x h Hx)).
      unfold release_weak. rewrite Hcb.
      rewrite (bind_Ok _ _ _ _ _ Hrun1).
      unfold end_weak, bind, read_weak. rewrite Hk1, Hx. reflexivity. }
    proj_simpl. split; [done|]. rewrite Hh1. clear Hl1. case_decide; lia.
Qed.

(** X14. Handles without a block (default constructed, moved from, reset)
    are inert: [use_count()] is 0, and destroying, resetting, copying or
    observing them allocates nothing, counts nothing and logs nothing; a weak
    handle without a block locks to the null handle. *)
Theorem null_handles_touch_no_block st :
  (∀ x (h : shared_ptr), shared st !! x = Some h → cb_ h = None →
     use_count h st = Ok 0 st ∧
     shared_ptr_dtor x st = Ok tt (with_shared (delete x) st) ∧
     shared_ptr_reset x st = Ok tt (with_shared <[x := null_shared]> st) ∧
     (∀ y, shared st !! y = None →
        shared_ptr_copy y x st = Ok tt (with_shared <[y := h]> st)) ∧
     (∀ w, weak st !! w = None →
        weak_ptr_from_shared w x st =
          Ok tt (with_weak <[w := {| w_ptr_ := ptr_ h; w_cb_ := None |}]> st))) ∧
  (∀ w (h : weak_ptr), weak st !! w = Some h → w_cb_ h = None →
     weak_ptr_dtor w st = Ok tt (with_weak (delete w) st) ∧
     (∀ x, shared st !! x = None →
        weak_ptr_lock x w st = Ok tt (with_shared <[x := null_shared]> st))).
Proof.
  split.
  - intros x h Hx Hcb. split_all.
    + unfold use_count. by rewrite Hcb.
    + unfold shared_ptr_dtor, release_strong, bind, read_shared, end_shared,
        bind, read_shared, ret.
      by rewrite Hx, Hcb, Hx.
    + pose proof (temp_shared_fresh st) as Htmp.
      assert (Hne : fresh (dom (shared st)) ≠ x) by congruence.
      unfold shared_ptr_reset.
      rewrite (bind_Ok _ _ _ _ _ (read_shared_Ok st x h Hx)).
      rewrite (bind_Ok _ _ _ _ _ (temp_shared_Ok st)).
      set (tmp := fresh (dom (shared st))) in *.
      assert (Hdef : shared_ptr_default tmp st =
                Ok tt (with_shared <[tmp := null_shared]> st)).
      { unfold shared_ptr_default, begin_shared. by rewrite Htmp. }
      rewrite (bind_Ok _ _ _ _ _ Hdef).
      rewrite (swap_in_eq _ tmp x null_shared h Hne).
      2:{ proj_simpl. by rewrite lookup_insert_eq. }
      2:{ proj_simpl. by rewrite lookup_insert_ne. }
      rewrite Hcb. unfold release_strong, ret. f_equal.
      unfold with_shared. proj_simpl. f_equal.
      apply map_eq. intros z.
      repeat (rewrite lookup_insert || rewrite lookup_delete).
      repeat case_decide; congruence.
    + intros y Hy.
      unfold shared_ptr_copy, shared_ptr_alias_copy, shared_ptr_ptr_cb, bind,
        read_shared, begin_shared, ret.
      rewrite Hx, Hx, Hy, Hcb. destruct h; simpl in *. by subst.
    + intros w Hw.
      unfold weak_ptr_from_shared, weak_ptr_ptr_cb, bind, read_shared,
        begin_weak, ret.
      by rewrite Hx, Hw, Hcb.
  - intros w h Hw Hcb. split.
    + unfold weak_ptr_dtor, release_weak, bind, read_weak, end_weak, bind,
        read_weak, ret.
      by rewrite Hw, Hcb, Hw.
    + intros x Hx.
      unfold weak_ptr_lock, bind, read_weak, ret.
      rewrite Hw, Hcb. unfold shared_ptr_default, begin_shared.
      by rewrite Hx.
Qed.

End Destruction.

(** ** Exceptions *)

Section NoThrow.
Context {T : Type}.
Implicit Types (st : @state T) (b x : N).

Lemma nothrow_ret {A} (a : A) : nothrow (T:=T) (ret a).
Proof. by intros st. Qed.

Lemma nothrow_bind {A B} (m : @M T A) (f : A → M B) :
  nothrow m → (∀ a, nothrow (f a)) → nothrow (bind m f).
Proof.
  intros Hm Hf st. specialize (Hm st). unfold bind.
  destruct (m st) as [a st1|e st1| |]; try done. apply Hf.
Qed.

Lemma nothrow_primitive {A} (m : @M T A) :
  (∀ st, (∃ a st', m st = Ok a st') ∨ m st = Undefined ∨ m st = IllFormed) →
  nothrow m.
Proof.
  intros Hm st. by destruct (Hm st) as [(a & st' & ->)|[->| ->]].
Qed.

End NoThrow.

Ltac primitive_nothrow :=
  apply nothrow_primitive; intros st;
  cbv [read_shared write_shared begin_shared end_shared temp_shared
       unborn_shared read_weak write_weak begin_weak end_weak temp_weak
       load_block store_block delete_this emit bind];
  repeat case_match; simplify_eq; eauto.

Section NoThrowPrimitives.
Context {T : Type}.
Implicit Types (st : @state T) (b x : N).

Lemma nothrow_read_shared x : nothrow (T:=T) (read_shared x).
Proof. primitive_nothrow. Qed.

Lemma nothrow_write_shared x h : nothrow (T:=T) (write_shared x h).
Proof. primitive_nothrow. Qed.

Lemma nothrow_begin_shared x h : nothrow (T:=T) (begin_shared x h).
Proof. primitive_nothrow. Qed.

Lemma nothrow_end_shared x : nothrow (T:=T) (end_shared x).
Proof. primitive_nothrow. Qed.

Lemma nothrow_temp_shared : nothrow (T:=T) temp_shared.
Proof. primitive_nothrow. Qed.

Lemma nothrow_unborn_shared x : nothrow (T:=T) (unborn_shared x).
Proof. primitive_nothrow. Qed.

Lemma nothrow_read_weak x : nothrow (T:=T) (read_weak x).
Proof. primitive_nothrow. Qed.

Lemma nothrow_write_weak x h : nothrow (T:=T) (write_weak x h).
Proof. primitive_nothrow. Qed.

Lemma nothrow_begin_weak x h : nothrow (T:=T) (begin_weak x h).
Proof. primitive_nothrow. Qed.

Lemma nothrow_end_weak x : nothrow (T:=T) (end_weak x).
Proof. primitive_nothrow. Qed.

Lemma nothrow_temp_weak : nothrow (T:=T) temp_weak.
Proof. primitive_nothrow. Qed.

Lemma nothrow_load_block b : nothrow (T:=T) (load_block b).
Proof. primitive_nothrow. Qed.

Lemma nothrow_store_block b c : nothrow (T:=T) (store_block b c).
Proof. primitive_nothrow. Qed.

Lemma nothrow_delete_this b : nothrow (T:=T) (delete_this b).
Proof. primitive_nothrow. Qed.

Lemma nothrow_emit ev : nothrow (T:=T) (emit ev).
Proof. primitive_nothrow. Qed.

End NoThrowPrimitives.

(** Everything that is built from the primitives other than [operator new]
    and [throw] lets no exception out. *)
Ltac nothrow_calc :=
  repeat first
    [ apply nothrow_ret
    | apply nothrow_read_shared | apply nothrow_write_shared
    | apply nothrow_begin_shared | apply nothrow_end_shared
    | apply nothrow_temp_shared | apply nothrow_unborn_shared
    | apply nothrow_read_weak | apply nothrow_write_weak
    | apply nothrow_begin_weak | apply nothrow_end_weak
    | apply nothrow_temp_weak | apply nothrow_load_block
    | apply nothrow_store_block | apply nothrow_delete_this
    | apply nothrow_emit
    | apply nothrow_bind; [|intros ?]
    | match goal with
      | |- nothrow (match ?x with _ => _ end) => destruct x
      | |- nothrow (if ?x then _ else _) => destruct x
      end
    | progress unfold step, shared_ptr_default, shared_ptr_alias_copy,
        shared_ptr_alias_move, shared_ptr_copy, shared_ptr_move,
        shared_ptr_assign_copy, shared_ptr_assign_move, shared_ptr_reset,
        shared_ptr_swap, shared_ptr_dtor, shared_ptr_ptr_cb,
        shared_ptr_inplace, release_strong, release_weak, weak_ptr_default,
        weak_ptr_from_shared, weak_ptr_copy, weak_ptr_move,
        weak_ptr_assign_shared, weak_ptr_assign_copy, weak_ptr_assign_move,
        weak_ptr_reset, weak_ptr_swap, weak_ptr_dtor, weak_ptr_lock,
        weak_ptr_ptr_cb, add_strong_ref, add_weak_ref, get_strong_refs,
        release_weak_ref, release_strong_ref, delete_data ].

Section Failures.
Context {T Args : Type} (construct_at : Args → option T).
Implicit Types (st : @state T) (b x : N) (o : @op Args) (prog : list (@op Args)).

Lemma nothrow_step o : allocates o = false → nothrow (step construct_at o).
Proof. destruct o; try done; intros _; nothrow_calc. Qed.

Lemma nothrow_swap_in tmp this :
  nothrow (T:=T) (bind (shared_ptr_swap tmp this) (λ _, shared_ptr_dtor tmp)).
Proof. nothrow_calc. Qed.

Lemma shared_ptr_ptr_deleter_failure st this p d answer e st' :
  shared_ptr_ptr_deleter this p d answer st = Throw e st' →
  answer = None ∧ e = bad_alloc ∧ st' = with_log (cons (EvDeleter d p)) st.
Proof.
  unfold shared_ptr_ptr_deleter, bind, unborn_shared, try_catch, bind,
    operator_new, store_block, emit, ret, begin_shared, throw.
  destruct (shared st !! this) eqn:Hx; [done|].
  destruct answer as [b|]; [|by intros [= <- <-]].
  destruct (heap st !! b); [done|]. proj_simpl. by rewrite Hx.
Qed.

Lemma shared_ptr_reset_ptr_deleter_failure st this p d answer e st' :
  shared_ptr_reset_ptr_deleter this p d answer st = Throw e st' →
  answer = None ∧ e = bad_alloc ∧ st' = with_log (cons (EvDeleter d p)) st.
Proof.
  unfold shared_ptr_reset_ptr_deleter.
  unfold bind at 1. unfold read_shared at 1.
  destruct (shared st !! this) as [h|]; [|done].
  unfold bind at 1. rewrite temp_shared_Ok. unfold bind at 1.
  destruct (shared_ptr_ptr_deleter _ p d answer st) as [[] st1|e1 st1| |]
    eqn:Hctor; try done.
  - intros Hthrow. pose proof (nothrow_swap_in (fresh (dom (shared st))) this st1)
      as Hno. by rewrite Hthrow in Hno.
  - intros [= <- <-]. by apply shared_ptr_ptr_deleter_failure in Hctor.
Qed.

Lemma make_shared_failure st x args answer e st' :
  make_shared construct_at x args answer st = Throw e st' →
  st' = st ∧
  (answer = None ∧ e = bad_alloc ∨
   (∃ b, answer = Some b) ∧ construct_at args = None ∧ e = ctor_failure).
Proof.
  unfold make_shared, bind, unborn_shared, operator_new, throw, store_block,
    emit, shared_ptr_inplace, begin_shared.
  destruct (shared st !! x) eqn:Hx; [done|].
  destruct answer as [b|]; [|intros [= <- <-]; by split; [|left]].
  destruct (heap st !! b); [done|].
  destruct (construct_at args) as [v|].
  - proj_simpl. by rewrite Hx.
  - intros [= <- <-]. split; [done|]. right. eauto.
Qed.

(** X15. Strong exception guarantee.  Only statements that allocate throw.
    After a throw every handle and every control block is as before, the
    handle that was to be reset included; the only trace is the call of the
    deleter on the pointer that was to be taken over.  [make_shared] throws
    without any trace, whether the allocation or the constructor of the
    object failed. *)
Theorem failed_statement_changes_no_handle o st e st' :
  step construct_at o st = Throw e st' →
  allocates o = true ∧
  shared st' = shared st ∧ weak st' = weak st ∧ heap st' = heap st ∧
  log st' = failure_trace o ++ log st ∧
  (e = bad_alloc ∨
   e = ctor_failure ∧ ∃ x args answer,
     o = SpMake x args answer ∧ construct_at args = None).
Proof.
  intros Hthrow.
  destruct (allocates o) eqn:Halloc.
  2:{ pose proof (nothrow_step o Halloc st) as Hno. by rewrite Hthrow in Hno. }
  split; [done|].
  destruct o; try done; cbn [step] in Hthrow.
  - apply shared_ptr_ptr_deleter_failure in Hthrow as (-> & -> & ->).
    split_all; try done. by left.
  - apply shared_ptr_ptr_deleter_failure in Hthrow as (-> & -> & ->).
    split_all; try done. by left.
  - apply shared_ptr_reset_ptr_deleter_failure in Hthrow as (-> & -> & ->).
    split_all; try done. by left.
  - apply shared_ptr_reset_ptr_deleter_failure in Hthrow as (-> & -> & ->).
    split_all; try done. by left.
  - apply make_shared_failure in Hthrow as (-> & [(-> & ->)|(_ & Hv & ->)]).
    + split_all; try done. by left.
    + split_all; try done. right. split; [done|]. eauto.
Qed.

End Failures.

(** ** Temporaries *)

Ltac handle_simpl := cbn [cb_ ptr_ w_cb_ w_ptr_]; proj_simpl.

Section Temporaries.
Context {T Args : Type} (construct_at : Args → option T).
Implicit Types (st : @state T) (b x : N) (o : @op Args) (prog : list (@op Args)).

Lemma set_strong_back (c : @control_block T) n :
  set_strong (n + 1 - 1) (set_strong (n + 1) c) = set_strong n c.
Proof. unfold set_strong. simpl. f_equal. lia. Qed.

Lemma set_weak_back (c : @control_block T) n :
  set_weak (n + 1 - 1) (set_weak (n + 1) c) = set_weak n c.
Proof. unfold set_weak. simpl. f_equal. lia. Qed.

Lemma set_strong_same (c : @control_block T) : set_strong (strong_refs_ c) c = c.
Proof. by destruct c. Qed.

Lemma set_weak_same (c : @control_block T) : set_weak (weak_refs_ c) c = c.
Proof. by destruct c. Qed.

(** X16. A copy that dies leaves no trace: copying a shared handle (with the
    copy constructor or the aliasing one) and destroying the copy, or
    building a weak handle from it and destroying that, gives back the very
    state it started from: same handles, same counters, no block destroyed
    or freed, nothing logged. *)
Theorem temporary_handles_leave_no_trace prog st y (hy : shared_ptr) :
  run construct_at prog init = Ok tt st →
  Z.of_nat (length prog) + 2 < size_max →
  shared st !! y = Some hy →
  (∀ x p, shared st !! x = None →
     ∃ st1, shared_ptr_alias_copy x y p st = Ok tt st1 ∧
            shared st1 !! x = Some {| ptr_ := p; cb_ := cb_ hy |} ∧
            shared_ptr_dtor x st1 = Ok tt st) ∧
  (∀ x, shared st !! x = None →
     ∃ st1, shared_ptr_copy x y st = Ok tt st1 ∧
            shared st1 !! x = Some hy ∧
            shared_ptr_dtor x st1 = Ok tt st) ∧
  (∀ w, weak st !! w = None →
     ∃ st1, weak_ptr_from_shared w y st = Ok tt st1 ∧
            weak st1 !! w = Some {| w_ptr_ := ptr_ hy; w_cb_ := cb_ hy |} ∧
            weak_ptr_dtor w st1 = Ok tt st).
Proof.
  intros Hrun Hlen Hy.
  destruct (reachable_inv construct_at prog st Hrun Hlen) as [HI Hfit].
  assert (Halias : ∀ x p, shared st !! x = None →
     ∃ st1, shared_ptr_alias_copy x y p st = Ok tt st1 ∧
            shared st1 !! x = Some {| ptr_ := p; cb_ := cb_ hy |} ∧
            shared_ptr_dtor x st1 = Ok tt st).
  { intros x p Hx.
    unfold shared_ptr_alias_copy, shared_ptr_ptr_cb, bind, read_shared,
      begin_shared. rewrite Hy, Hx.
    destruct (cb_ hy) as [b|] eqn:Hcb.
    - destruct (shared_holder_alive st y hy b HI Hy Hcb) as (c & Hc & Hpos).
      destruct (counters_bounded st b c HI Hfit Hc) as [Hroom _].
      unfold add_strong_ref, bind, load_block, store_block. handle_simpl.
      rewrite Hc. eexists. split; [reflexivity|]. handle_simpl.
      split; [by rewrite lookup_insert_eq|].
      unfold shared_ptr_dtor, bind, read_shared. handle_simpl.
      rewrite lookup_insert_eq. unfold release_strong. handle_simpl.
      unfold release_strong_ref, bind, load_block, store_block. handle_simpl.
      rewrite lookup_insert_eq. handle_simpl.
      rewrite (wrap_small (strong_refs_ c + 1)) by lia.
      rewrite wrap_small by lia.
      rewrite decide_False by lia.
      unfold ret, end_shared, bind, read_shared. handle_simpl.
      rewrite lookup_insert_eq. f_equal.
      destruct st as [hp sh wk lg]. unfold with_shared, with_heap. simpl in *.
      f_equal.
      + rewrite insert_insert_eq, set_strong_back, set_strong_same.
        by apply insert_id.
      + by apply delete_insert_id.
    - eexists. split; [reflexivity|]. handle_simpl.
      split; [by rewrite lookup_insert_eq|].
      unfold shared_ptr_dtor, bind, read_shared. handle_simpl.
      rewrite lookup_insert_eq. unfold release_strong, ret. handle_simpl.
      unfold end_shared, bind, read_shared. handle_simpl.
      rewrite lookup_insert_eq. f_equal.
      destruct st as [hp sh wk lg]. unfold with_shared. simpl in *.
      f_equal. by apply delete_insert_id. }
  split; [done|]. split.
  - intros x Hx. destruct (Halias x (ptr_ hy) Hx) as (st1 & H1 & H2 & H3).
    exists st1. split.
    { unfold shared_ptr_copy.
      by rewrite (bind_Ok _ _ _ _ _ (read_shared_Ok st y hy Hy)). }
    split; [|done]. rewrite H2. by destruct hy.
  - intros w Hw.
    unfold weak_ptr_from_shared, weak_ptr_ptr_cb, bind, read_shared,
      begin_weak. rewrite Hy, Hw.
    destruct (cb_ hy) as [b|] eqn:Hcb.
    + destruct (shared_holder_alive st y hy b HI Hy Hcb) as (c & Hc & Hpos).
      destruct (counters_bounded st b c HI Hfit Hc) as [_ Hroom].
      pose proof (HI b) as Hb. unfold block_at in Hb. rewrite Hc in Hb.
      destruct Hb as (_ & _ & Hw0 & _).
      unfold add_weak_ref, bind, load_block, store_block. handle_simpl.
      rewrite Hc. eexists. split; [reflexivity|]. handle_simpl.
      split; [by rewrite lookup_insert_eq|].
      unfold weak_ptr_dtor, bind, read_weak. handle_simpl.
      rewrite lookup_insert_eq. unfold release_weak. handle_simpl.
      unfold release_weak_ref, bind, load_block, store_block. handle_simpl.
      rewrite lookup_insert_eq. handle_simpl.
      rewrite (wrap_small (weak_refs_ c + 1)) by lia.
      rewrite wrap_small by lia.
      rewrite decide_False by lia.
      unfold ret, end_weak, bind, read_weak. handle_simpl.
      rewrite lookup_insert_eq. f_equal.
      destruct st as [hp sh wk lg]. unfold with_weak, with_heap. simpl in *.
      f_equal.
      * rewrite insert_insert_eq, set_weak_back, set_weak_same.
        by apply insert_id.
      * by apply delete_insert_id.
    + eexists. split; [reflexivity|]. handle_simpl.
      split; [by rewrite lookup_insert_eq|].
      unfold weak_ptr_dtor, bind, read_weak. handle_simpl.
      rewrite lookup_insert_eq. unfold release_weak, ret. handle_simpl.
      unfold end_weak, bind, read_weak. handle_simpl.
      rewrite lookup_insert_eq. f_equal.
      destruct st as [hp sh wk lg]. unfold with_weak. simpl in *.
      f_equal. by apply delete_insert_id.
Qed.

End Temporaries.

(** ** The theorems at work on concrete programs *)

Lemma use_count_counts_strong_holders_witness :
  let h := {| ptr_ := Some (Embedded 7); cb_ := Some 7%N |} in
  shared Demo.two_holders !! 0%N = Some h ∧
  use_count h Demo.two_holders =
    Ok (Z.of_nat (strong_holders Demo.two_holders 7)) Demo.two_holders ∧
  strong_holders Demo.two_holders 7 = 2%nat.
Proof.
  split; [by vm_compute|]. split; [|by vm_compute].
  apply (use_count_counts_strong_holders Demo.ctor Demo.two_holders_prog
           Demo.two_holders 0%N);
    by vm_compute.
Defined.

Lemma destroyed_once_then_freed_once_witness :
  (lifecycle 7 (log Demo.observed) = Some Alive ∧
   block_phase Demo.observed 7 = phase_by_holders Demo.observed 7) ∧
  ∃ st', release_strong_ref 7 Demo.observed = Ok tt st' ∧
         log st' = [EvDestroyAt 7%N; EvDeleteData 7%N] ++ log Demo.observed ∧
         strong_of st' 7 = 0 ∧ weak_of st' 7 = 1 ∧
         heap st' !! 7%N ≠ None.
Proof.
  destruct (destroyed_once_then_freed_once Demo.ctor Demo.observed_prog
              Demo.observed 7)
    as (Hl & _ & _ & _ & _ & Hrel & _ & Hph & _); [by vm_compute..|].
  split; [by split|].
  destruct (Hrel {| strong_refs_ := 1; weak_refs_ := 2;
                    body := inplace_control_block (Some 42) |})
    as (st' & H1 & H2 & H3 & H4 & H5 & _); [by vm_compute..|].
  exists st'. split; [done|]. split; [exact H2|]. split; [exact H3|].
  split; [exact H4|]. rewrite H5. by intros [_ [=]].
Defined.

Lemma handle_accounts_for_one_reference_witness :
  let c := {| strong_refs_ := 1; weak_refs_ := 2;
              body := inplace_control_block (Some 42) |} in
  heap Demo.observed !! 7%N = Some c ∧
  strong_refs_ c = Z.of_nat (strong_holders Demo.observed 7) ∧
  weak_refs_ c = Z.of_nat (weak_holders Demo.observed 7)
                 + (if decide (strong_refs_ c = 0) then 0 else 1).
Proof.
  split; [by vm_compute|].
  apply (handle_accounts_for_one_reference Demo.ctor Demo.observed_prog
           Demo.observed); by vm_compute.
Defined.

Lemma lock_null_or_one_more_strong_witness :
  ∃ st' h, weak_ptr_lock 1%N 0%N Demo.observed = Ok tt st' ∧
           shared st' !! 1%N = Some h ∧
           h = {| ptr_ := Some (Embedded 7); cb_ := Some 7%N |} ∧
           strong_of st' 7 = 2.
Proof.
  destruct (lock_null_or_one_more_strong Demo.ctor Demo.observed_prog
              Demo.observed 0%N
              {| w_ptr_ := Some (Embedded 7); w_cb_ := Some 7%N |} 1%N)
    as (st' & h & Hrun & Hx & _ & Hres); try by vm_compute.
  exists st', h. split; [done|]. split; [done|].
  change (strong_of Demo.observed 7) with 1 in Hres. simpl in Hres.
  destruct Hres as (Hh & Hs & _). split; [done|]. by rewrite Hs.
Defined.

Lemma failed_allocation_deletes_pointer_witness :
  shared_ptr_ptr_deleter (T:=Z) 0%N (Some (RawObj 100)) (custom_deleter 5) None init
  = Throw bad_alloc
      (with_log (cons (EvDeleter (custom_deleter 5) (Some (RawObj 100)))) init).
Proof.
  destruct (failed_allocation_deletes_pointer (T:=Z) init 0%N
              (Some (RawObj 100)) (custom_deleter 5))
    as (st' & Hrun & _); [by vm_compute|].
  rewrite Hrun. by vm_compute.
Defined.

Lemma reset_releases_previous_once_witness :
  ∃ st', shared_ptr_reset 0%N Demo.one_holder = Ok tt st' ∧
         shared st' !! 0%N = Some null_shared ∧
         log st' = [EvFree 7%N; EvDestroyAt 7%N; EvDeleteData 7%N]
                   ++ log Demo.one_holder ∧
         strong_of st' 7 = 0 ∧ strong_holders st' 7 = 0%nat.
Proof.
  destruct (reset_releases_previous_once Demo.ctor Demo.one_holder 0%N
              {| ptr_ := Some (Embedded 7); cb_ := Some 7%N |})
    as (_ & _ & _ & _ & Hrel & _); [by vm_compute|].
  destruct (Hrel Demo.one_holder_prog 7%N)
    as (c & Hc & (st' & H1 & H2 & H3 & H4 & H5 & _) & _); [by vm_compute..|].
  vm_compute in Hc. injection Hc as <-.
  exists st'. split; [done|]. split; [done|]. split; [exact H3|].
  split; [rewrite H4; by vm_compute|].
  change (strong_holders Demo.one_holder 7) with 1%nat in H5. lia.
Defined.

Lemma make_shared_owns_embedded_object_witness :
  ∃ st' h, make_shared Demo.ctor 0%N 42 (Some 7%N) init = Ok tt st' ∧
           shared st' !! 0%N = Some h ∧
           get h = Some (Embedded 7) ∧ cb_ h = Some 7%N ∧
           points_to st' (get h) = Some 42 ∧
           use_count h st' = Ok 1 st' ∧
           heap st' !! 7%N =
             Some (control_block_base (inplace_control_block (Some 42))).
Proof.
  apply (make_shared_owns_embedded_object Demo.ctor init 0%N 42 42 7%N);
    by vm_compute.
Defined.

Lemma move_keeps_count_copy_adds_one_witness :
  ∃ st', shared_ptr_dtor 0%N Demo.two_holders = Ok tt st' ∧
         strong_of st' 7 = strong_of Demo.two_holders 7 - 1.
Proof.
  apply (move_keeps_count_copy_adds_one Demo.ctor Demo.two_holders_prog
           Demo.two_holders 0%N
           {| ptr_ := Some (Embedded 7); cb_ := Some 7%N |} 7%N);
    by vm_compute.
Defined.

Lemma equality_compares_pointers_witness :
  shared_ptr_eq {| ptr_ := Some (RawObj 1); cb_ := Some 7%N |}
                {| ptr_ := Some (RawObj 2); cb_ := Some 7%N |} = false.
Proof.
  by apply (equality_compares_pointers
              {| ptr_ := Some (RawObj 1); cb_ := Some 7%N |}
              {| ptr_ := Some (RawObj 2); cb_ := Some 7%N |}).
Defined.

Lemma null_raw_pointer_owns_block_witness :
  ∃ st' h, shared_ptr_ptr_deleter (T:=Z) 0%N None default_delete (Some 7%N) init
             = Ok tt st' ∧
           shared st' !! 0%N = Some h ∧ cb_ h = Some 7%N ∧
           use_count h st' = Ok 1 st' ∧
           operator_bool h = false ∧ get h = None.
Proof.
  destruct (null_raw_pointer_owns_block (T:=Z) init 0%N default_delete 7%N)
    as (st' & h & H1 & H2 & H3 & H4 & H5 & H6 & _); try by vm_compute.
  by exists st', h.
Defined.

(** ** The further properties at work on concrete programs *)

Lemma no_use_of_deleted_blocks_witness :
  run Demo.ctor Demo.observed_prog init ≠ Undefined ∧
  step Demo.ctor (SpDestroy 0%N) Demo.observed ≠ Undefined ∧
  is_Some (heap Demo.observed !! 7%N).
Proof.
  destruct (no_use_of_deleted_blocks Demo.ctor Demo.observed_prog)
    as (H1 & H2 & H3); [by vm_compute|].
  split; [done|]. split; [apply H2; by vm_compute|].
  destruct (H3 Demo.observed) as [_ Hw]; [by vm_compute|].
  apply (Hw 0%N {| w_ptr_ := Some (Embedded 7); w_cb_ := Some 7%N |});
    by vm_compute.
Defined.

Lemma block_phase_follows_holders_witness :
  (block_phase Cases.expired 7 = phase_by_holders Cases.expired 7 ∧
   lifecycle 7 (log Cases.expired) = Some (phase_by_holders Cases.expired 7)) ∧
  phase_by_holders Cases.expired 7 = Expired.
Proof.
  split; [|by vm_compute].
  apply (block_phase_follows_holders Demo.ctor Cases.expired_prog);
    by vm_compute.
Defined.

Lemma no_handles_no_blocks_witness :
  heap Demo.whole_life = ∅ ∧
  occurrences (EvDeleteData 7) (log Demo.whole_life) =
    occurrences (EvNew 7) (log Demo.whole_life) ∧
  occurrences (EvFree 7) (log Demo.whole_life) =
    occurrences (EvNew 7) (log Demo.whole_life).
Proof.
  destruct (no_handles_no_blocks Demo.ctor Demo.whole_life_prog Demo.whole_life)
    as [H1 H2]; [by vm_compute..|].
  split; [done|]. apply (H2 7%N).
Defined.

Lemma aliasing_copy_shares_block_witness :
  ∃ st' h, shared_ptr_alias_copy 1%N 0%N (Some (RawObj 5)) Demo.one_holder
             = Ok tt st' ∧
           shared st' !! 1%N = Some h ∧ get h = Some (RawObj 5) ∧
           cb_ h = Some 7%N ∧ use_count h st' = Ok 2 st'.
Proof.
  destruct (aliasing_copy_shares_block Demo.ctor Demo.one_holder_prog
              Demo.one_holder 0%N
              {| ptr_ := Some (Embedded 7); cb_ := Some 7%N |} 1%N
              (Some (RawObj 5)))
    as (st' & h & H1 & H2 & H3 & H4 & _ & _ & Hm); [by vm_compute..|].
  exists st', h. do 4 (split; [done|]).
  simpl in Hm. destruct Hm as (_ & Hu & _).
  by change (strong_of Demo.one_holder 7) with 1 in Hu.
Defined.

Lemma aliasing_move_transfers_block_witness :
  ∃ st' h, shared_ptr_alias_move 1%N 0%N (Some (RawObj 5)) Demo.one_holder
             = Ok tt st' ∧
           shared st' !! 1%N = Some h ∧ get h = Some (RawObj 5) ∧
           cb_ h = Some 7%N ∧ shared st' !! 0%N = Some null_shared ∧
           heap st' = heap Demo.one_holder.
Proof.
  destruct (aliasing_move_transfers_block Demo.ctor Demo.one_holder_prog
              Demo.one_holder 0%N
              {| ptr_ := Some (Embedded 7); cb_ := Some 7%N |} 1%N
              (Some (RawObj 5)))
    as (st' & h & H1 & H2 & H3 & H4 & H5 & H6 & _); [by vm_compute..|].
  by exists st', h.
Defined.

Lemma swap_exchanges_and_undoes_itself_witness :
  ∃ st', shared_ptr_swap 0%N 1%N Cases.crowd = Ok tt st' ∧
         shared st' !! 0%N =
           Some {| ptr_ := Some (RawObj 100); cb_ := Some 8%N |} ∧
         shared st' !! 1%N =
           Some {| ptr_ := Some (Embedded 7); cb_ := Some 7%N |} ∧
         heap st' = heap Cases.crowd ∧
         shared_ptr_swap 0%N 1%N st' = Ok tt Cases.crowd.
Proof.
  destruct (swap_exchanges_and_undoes_itself Cases.crowd 0%N 1%N) as [Hs _].
  destruct (Hs {| ptr_ := Some (Embedded 7); cb_ := Some 7%N |}
               {| ptr_ := Some (RawObj 100); cb_ := Some 8%N |})
    as (st' & H1 & H2 & H3 & _ & H4 & _ & _ & H5); [by vm_compute..|].
  by exists st'.
Defined.

Lemma weak_handles_count_weakly_witness :
  ∃ st', weak_ptr_from_shared 0%N 0%N Demo.one_holder = Ok tt st' ∧
         weak_of st' 7 = 2 ∧ strong_of st' 7 = 1.
Proof.
  destruct (weak_handles_count_weakly Demo.ctor Demo.one_holder_prog
              Demo.one_holder 0%N) as (Hfrom & _); [by vm_compute..|].
  destruct (Hfrom 0%N {| ptr_ := Some (Embedded 7); cb_ := Some 7%N |} 7%N)
    as (st' & H1 & _ & Hw & Hs & _); [by vm_compute..|].
  exists st'. split; [done|]. rewrite Hw, Hs. by vm_compute.
Defined.

Lemma lock_succeeds_while_held_witness :
  ∃ st', weak_ptr_lock 1%N 0%N Cases.expired = Ok tt st' ∧
         shared st' !! 1%N = Some null_shared ∧
         strong_holders st' 7 = 0%nat.
Proof.
  destruct (lock_succeeds_while_held Demo.ctor Cases.expired_prog
              Cases.expired 0%N
              {| w_ptr_ := Some (Embedded 7); w_cb_ := Some 7%N |} 7%N 1%N)
    as (st' & H1 & H2 & H3); [by vm_compute..|].
  exists st'. split; [done|].
  change (strong_holders Cases.expired 7) with 0%nat in H2, H3.
  by split.
Defined.

Lemma weak_of_shared_locks_back_witness :
  ∃ st1 st2 h, weak_ptr_from_shared 0%N 0%N Demo.one_holder = Ok tt st1 ∧
               weak_ptr_lock 1%N 0%N st1 = Ok tt st2 ∧
               shared st2 !! 1%N = Some h ∧
               get h = Some (Embedded 7) ∧ cb_ h = Some 7%N ∧
               strong_of st2 7 = 2.
Proof.
  destruct (weak_of_shared_locks_back Demo.ctor Demo.one_holder_prog
              Demo.one_holder 0%N
              {| ptr_ := Some (Embedded 7); cb_ := Some 7%N |} 7%N 0%N 1%N)
    as (st1 & st2 & h & H1 & H2 & H3 & H4 & H5 & _ & _ & H6 & _);
    [by vm_compute..|].
  exists st1, st2, h. do 5 (split; [done|]). rewrite H6. by vm_compute.
Defined.

Lemma weak_assignment_counts_witness :
  ∃ st', weak_ptr_assign_shared 0%N 1%N Cases.crowd = Ok tt st' ∧
         weak st' !! 0%N =
           Some {| w_ptr_ := Some (RawObj 100); w_cb_ := Some 8%N |} ∧
         weak_of st' 8 = 3.
Proof.
  destruct (weak_assignment_counts Demo.ctor Cases.crowd_prog Cases.crowd 0%N
              {| w_ptr_ := Some (Embedded 7); w_cb_ := Some 7%N |} 8%N)
    as (Hassign & _); [by vm_compute..|].
  destruct (Hassign 1%N {| ptr_ := Some (RawObj 100); cb_ := Some 8%N |})
    as (st' & H1 & H2 & H3 & _); [by vm_compute..|].
  exists st'. do 2 (split; [done|]). rewrite H3. by vm_compute.
Defined.

Lemma embedded_object_lives_with_holders_witness :
  points_to Demo.two_holders (Some (Embedded 7)) = Some 42 ∧
  (is_Some (Some 42) ↔ (0 < strong_holders Demo.two_holders 7)%nat).
Proof.
  apply (embedded_object_lives_with_holders Demo.ctor Demo.two_holders_prog
           Demo.two_holders 7%N
           {| strong_refs_ := 2; weak_refs_ := 1;
              body := inplace_control_block (Some 42) |});
    by vm_compute.
Defined.

Lemma destruction_events_witness :
  ∃ st', shared_ptr_dtor 0%N Demo.one_holder = Ok tt st' ∧
         log st' = [EvFree 7%N; EvDestroyAt 7%N; EvDeleteData 7%N]
                   ++ log Demo.one_holder ∧
         heap st' !! 7%N = None.
Proof.
  destruct (destruction_events Demo.ctor Demo.one_holder_prog Demo.one_holder
              7%N {| strong_refs_ := 1; weak_refs_ := 1;
                     body := inplace_control_block (Some 42) |})
    as (Hdtor & _); [by vm_compute..|].
  destruct (Hdtor 0%N {| ptr_ := Some (Embedded 7); cb_ := Some 7%N |})
    as (st' & H1 & H2 & _ & H3); [by vm_compute..|].
  exists st'. do 2 (split; [done|]). apply H3. by vm_compute.
Defined.

Lemma null_handles_touch_no_block_witness :
  use_count null_shared Demo.alias_of_null = Ok 0 Demo.alias_of_null ∧
  shared_ptr_dtor 0%N Demo.alias_of_null =
    Ok tt (with_shared (delete 0%N) Demo.alias_of_null) ∧
  shared_ptr_reset 0%N Demo.alias_of_null =
    Ok tt (with_shared <[0%N := null_shared]> Demo.alias_of_null).
Proof.
  destruct (null_handles_touch_no_block Demo.alias_of_null) as [Hs _].
  destruct (Hs 0%N null_shared) as (H1 & H2 & H3 & _); [by vm_compute..|].
  done.
Defined.

Lemma embedded_object_untouched_until_destroyed_witness :
  points_to Cases.handed_on (Some (Embedded 7)) = Some 42.
Proof.
  apply (embedded_object_untouched_until_destroyed Demo.ctor
           Demo.one_holder_prog Cases.handed_on_prog Demo.one_holder);
    by vm_compute.
Defined.

Lemma failed_statement_changes_no_handle_witness :
  let o := SpResetPtr 0%N (Some (RawObj 100)) None in
  let st' := with_log (cons (EvDeleter default_delete (Some (RawObj 100))))
               Demo.two_holders in
  step Demo.ctor o Demo.two_holders = Throw bad_alloc st' ∧
  allocates o = true ∧
  shared st' = shared Demo.two_holders ∧ weak st' = weak Demo.two_holders ∧
  heap st' = heap Demo.two_holders ∧
  log st' = failure_trace o ++ log Demo.two_holders.
Proof.
  intros o st'. split; [by vm_compute|].
  destruct (failed_statement_changes_no_handle Demo.ctor o Demo.two_holders
              bad_alloc st') as (H1 & H2 & H3 & H4 & H5 & _);
    [by vm_compute|done].
Defined.

Lemma temporary_handles_leave_no_trace_witness :
  ∃ st1, shared_ptr_copy 1%N 0%N Demo.one_holder = Ok tt st1 ∧
         shared st1 !! 1%N =
           Some {| ptr_ := Some (Embedded 7); cb_ := Some 7%N |} ∧
         shared_ptr_dtor 1%N st1 = Ok tt Demo.one_holder.
Proof.
  destruct (temporary_handles_leave_no_trace Demo.ctor Demo.one_holder_prog
              Demo.one_holder 0%N
              {| ptr_ := Some (Embedded 7); cb_ := Some 7%N |})
    as (_ & Hcopy & _); [by vm_compute..|].
  apply Hcopy. by vm_compute.
Defined.

(** ** Counterexamples *)

(** C3 as stated fails: the aliasing constructor applied to a handle without
    a block yields a handle without a block whose [get()] is not null. *)
Lemma null_block_non_null_pointer_counterexample :
  let h := {| ptr_ := Some (RawObj 5); cb_ := None |} in
  run Demo.ctor Demo.alias_of_null_prog init = Ok tt Demo.alias_of_null ∧
  shared Demo.alias_of_null !! 1%N = Some h ∧
  cb_ h = None ∧ get h = Some (RawObj 5).
Proof. by vm_compute. Qed.

(** C8 as stated fails: with two handles on one block, [p1 = std::move(p0)]
    takes the strong count from 2 to 1, and [p1 = p0] leaves it at 2. *)
Lemma assignment_to_holder_counterexample :
  strong_of Demo.two_holders 7 = 2 ∧
  (∃ st', shared_ptr_assign_move 1%N 0%N Demo.two_holders = Ok tt st' ∧
          strong_of st' 7 = 1) ∧
  (∃ st', shared_ptr_assign_copy 1%N 0%N Demo.two_holders = Ok tt st' ∧
          strong_of st' 7 = 2).
Proof.
  split; [by vm_compute|]. split; eexists; split; by vm_compute.
Qed.

(** ** The scenarios of the specification *)

Module Scenarios.

(** Scenario 1: [make_shared<int>(42)]. *)
Example scenario_make_shared :
  let st := Demo.final [SpMake 0%N 42 (Some 7%N)] in
  Demo.count_of st 0%N = Some 1 ∧
  (h ← shared st !! 0%N; points_to st (get h)) = Some 42.
Proof. by vm_compute. Qed.

(** Scenario 2: copy, then destroy the original. *)
Example scenario_copy :
  let prog := [SpMake 0%N 42 (Some 7%N); SpDefault 1%N; SpAssignCopy 1%N 0%N] in
  Demo.count_of (Demo.final prog) 0%N = Some 2 ∧
  Demo.count_of (Demo.final prog) 1%N = Some 2 ∧
  Demo.count_of (Demo.final (prog ++ [SpDestroy 0%N])) 1%N = Some 1.
Proof. by vm_compute. Qed.

(** Scenario 3: a weak observer expires with the last strong holder. *)
Example scenario_weak_expires :
  let prog := [SpMake 0%N 42 (Some 7%N); WpFromShared 0%N 0%N; SpReset 0%N;
               WpLock 1%N 0%N] in
  shared (Demo.final prog) !! 1%N = Some null_shared ∧
  log (Demo.final prog) = [EvDestroyAt 7%N; EvDeleteData 7%N; EvNew 7%N].
Proof. by vm_compute. Qed.

(** Scenario 4: the custom deleter runs once, on the raw pointer. *)
Example scenario_custom_deleter :
  let p := Some (RawObj 100) in
  let prog := [SpPtrDeleter 0%N p (custom_deleter 5) (Some 7%N); SpCopy 1%N 0%N;
               SpDestroy 0%N; SpDestroy 1%N] in
  log (Demo.final prog) =
    [EvFree 7%N; EvDeleter (custom_deleter 5) p; EvDeleteData 7%N; EvNew 7%N].
Proof. by vm_compute. Qed.

(** Scenario 5: an aliasing handle keeps the whole object alive. *)
Example scenario_aliasing :
  let field := Some (RawObj 200) in
  let prog := [SpMake 0%N 42 (Some 7%N); SpAliasCopy 1%N 0%N field; SpReset 0%N] in
  Demo.count_of (Demo.final prog) 1%N = Some 1 ∧
  (h ← shared (Demo.final prog) !! 1%N; Some (get h)) = Some field ∧
  points_to (Demo.final prog) (Some (Embedded 7%N)) = Some 42.
Proof. by vm_compute. Qed.

(** A failed allocation in [reset(p, d)] leaves the handle as it was. *)
Example scenario_reset_fails :
  let p := Some (RawObj 100) in
  let prog := [SpMake 0%N 42 (Some 7%N);
               SpResetPtrDeleter 0%N p (custom_deleter 5) None] in
  Demo.count_of (Demo.final prog) 0%N = Some 1 ∧
  log (Demo.final prog) = [EvDeleter (custom_deleter 5) p; EvNew 7%N].
Proof. by vm_compute. Qed.

End Scenarios.
